(** * EPSTEIN language: line classifier, translator and execution scope

    A shallow embedding of [src/parser.ts] (class [EpsteinParser]), of the
    helpers it imports from the utilities module ([removeComment],
    [isFunction], [isConditional], [getIndent], [isEmpty], [extractLoop])
    and of the scope handling of the executor ([setupGlobalScope],
    [executeWithScope]).

    Strings are sequences of UTF-16 code units, as in the host language.  The
    regular expressions of the source are kept as syntax trees and run by a
    backtracking matcher with the host's priorities (leftmost start, greedy
    and lazy quantifiers, ordered alternation). *)

From Stdlib Require Import Ascii String List NArith ZArith Bool Lia.
Import ListNotations.

Set Implicit Arguments.

(** ** Code units and strings *)

Definition char := N.
Definition str := list char.

Definition ch (a : ascii) : char := N_of_ascii a.

(** [u "text"] is the code-unit sequence of an ASCII literal. *)
Definition u (s : string) : str := map ch (list_ascii_of_string s).

Definition nl : char := 10%N.

(** WhiteSpace and LineTerminator code units: the set removed by [trim] and
    matched by the class [\s]. *)
Definition isSpace (c : char) : bool :=
  ((9 <=? c) && (c <=? 13) || (c =? 32) || (c =? 160) || (c =? 5760)
   || (8192 <=? c) && (c <=? 8202) || (c =? 8232) || (c =? 8233)
   || (c =? 8239) || (c =? 8287) || (c =? 12288) || (c =? 65279))%N.

(** The class [\w]: [A-Za-z0-9_]. *)
Definition isWord (c : char) : bool :=
  ((48 <=? c) && (c <=? 57) || (65 <=? c) && (c <=? 90) || (c =? 95)
   || (97 <=? c) && (c <=? 122))%N.

(** The class [.] (no [s] flag): anything but a line terminator. *)
Definition isDot (c : char) : bool :=
  negb ((c =? 10) || (c =? 13) || (c =? 8232) || (c =? 8233))%N.

Fixpoint str_eqb (a b : str) : bool :=
  match a, b with
  | [], [] => true
  | x :: a', y :: b' => (x =? y)%N && str_eqb a' b'
  | _, _ => false
  end.

(** [s.startsWith(p)] *)
Fixpoint startsWith (p s : str) : bool :=
  match p, s with
  | [], _ => true
  | x :: p', y :: s' => (x =? y)%N && startsWith p' s'
  | _ :: _, [] => false
  end.

(** [s.includes(c)] for a one-unit needle. *)
Definition includes (c : char) (s : str) : bool := existsb (N.eqb c) s.

Fixpoint dropWhile (p : char -> bool) (s : str) : str :=
  match s with
  | [] => []
  | x :: t => if p x then dropWhile p t else s
  end.

Definition trimStart (s : str) : str := dropWhile isSpace s.
Definition trimEnd (s : str) : str := rev (dropWhile isSpace (rev s)).

(** [s.trim()] *)
Definition trim (s : str) : str := trimEnd (trimStart s).

(** [s.indexOf(p)]: index of the first occurrence, [-1] when there is none. *)
Fixpoint indexOf_from (p s : str) (i : Z) : Z :=
  if startsWith p s then i
  else match s with
       | [] => (-1)%Z
       | _ :: t => indexOf_from p t (i + 1)
       end.

Definition indexOf (p s : str) : Z := indexOf_from p s 0.

(** [s.substring(0, n)] for [0 <= n]. *)
Definition substring0 (s : str) (n : Z) : str := firstn (Z.to_nat n) s.

(** [s.split('\n')]: never empty, the empty string gives one empty line. *)
Fixpoint split_nl (s : str) : list str :=
  match s with
  | [] => [[]]
  | x :: t =>
      if (x =? nl)%N then [] :: split_nl t
      else match split_nl t with
           | [] => [[x]]
           | l :: ls => (x :: l) :: ls
           end
  end.

(** [lines.join('\n')] *)
Fixpoint join_nl (ls : list str) : str :=
  match ls with
  | [] => []
  | [l] => l
  | l :: rest => l ++ nl :: join_nl rest
  end.

(** [s.repeat(count)]: the count is truncated to an integer; a negative count
    is a RangeError, modelled by [None]. *)
Definition repeat_str (s : str) (count : Z) : option str :=
  if (count <? 0)%Z then None
  else Some (List.concat (repeat s (Z.to_nat count))).

(** ** Regular expressions

    The patterns of the source only quantify single character classes, so the
    quantifier node carries a class. *)

Inductive regex : Type :=
| RChar (c : char)                       (* a literal code unit *)
| RClass (p : char -> bool)              (* \s, \w, . *)
| RSeq (r1 r2 : regex)
| RAlt (r1 r2 : regex)                   (* r1|r2, r1 tried first *)
| RStar (greedy : bool) (p : char -> bool) (* p* and p*? *)
| RGroup (i : nat) (r : regex)           (* capture group number i *)
| RWordB                                 (* \b *)
| RBol.                                  (* ^ *)

(** [p+] and [p+?] *)
Definition RPlus (greedy : bool) (p : char -> bool) : regex :=
  RSeq (RClass p) (RStar greedy p).

(** A literal word. *)
Fixpoint lit (w : str) : regex :=
  match w with
  | [] => RStar true (fun _ => false)
  | [c] => RChar c
  | c :: w' => RSeq (RChar c) (lit w')
  end.

Declare Scope re_scope.
Delimit Scope re_scope with re.
Infix "^^" := RSeq (at level 30, right associativity) : re_scope.

(** A position of the matcher: the code units already passed (most recent
    first), the ones ahead, and the captures recorded so far. *)
Record mstate : Type := MState {
  passed : str;
  ahead : str;
  caps : list (nat * str)
}.

Definition isWordAt (s : str) : bool :=
  match s with
  | [] => false
  | c :: _ => isWord c
  end.

(** [\b]: exactly one side is a word character. *)
Definition boundary (before after : str) : bool :=
  negb (Bool.eqb (isWordAt before) (isWordAt after)).

Section Matcher.
Variable A : Type.

Fixpoint star (greedy : bool) (p : char -> bool) (k : mstate -> option A)
         (pv rs : str) (cs : list (nat * str)) : option A :=
  match rs with
  | [] => k (MState pv [] cs)
  | x :: t =>
      if p x then
        if greedy then
          match star greedy p k (x :: pv) t cs with
          | Some r => Some r
          | None => k (MState pv rs cs)
          end
        else
          match k (MState pv rs cs) with
          | Some r => Some r
          | None => star greedy p k (x :: pv) t cs
          end
      else k (MState pv rs cs)
  end.

(** The text passed between two positions of one run. *)
Definition span (s s' : mstate) : str :=
  rev (firstn (length (passed s') - length (passed s)) (passed s')).

(** Backtracking matcher in continuation-passing style: [k] is the rest of
    the pattern; [None] makes the matcher try its next alternative. *)
Fixpoint rmatch (r : regex) (k : mstate -> option A) (s : mstate) : option A :=
  match r with
  | RChar c =>
      match ahead s with
      | x :: t => if (x =? c)%N then k (MState (x :: passed s) t (caps s)) else None
      | [] => None
      end
  | RClass p =>
      match ahead s with
      | x :: t => if p x then k (MState (x :: passed s) t (caps s)) else None
      | [] => None
      end
  | RSeq r1 r2 => rmatch r1 (rmatch r2 k) s
  | RAlt r1 r2 =>
      match rmatch r1 k s with
      | Some a => Some a
      | None => rmatch r2 k s
      end
  | RStar g p => star g p k (passed s) (ahead s) (caps s)
  | RGroup i r =>
      rmatch r (fun s' => k (MState (passed s') (ahead s') ((i, span s s') :: caps s'))) s
  | RWordB => if boundary (passed s) (ahead s) then k s else None
  | RBol => match passed s with [] => k s | _ :: _ => None end
  end.
End Matcher.

(** One attempt at a fixed start position. *)
Definition match_at (r : regex) (pv rs : str) : option mstate :=
  rmatch r (fun s => Some s) (MState pv rs []).

(** The result of [s.match(r)] for a pattern without the [g] flag: the whole
    match and the captures of the leftmost successful start position. *)
Record MatchResult : Type := MkMatch {
  m_index : nat;
  m_whole : str;
  m_caps : list (nat * str)
}.

Fixpoint search (r : regex) (pv rs : str) : option MatchResult :=
  match match_at r pv rs with
  | Some e => Some (MkMatch (length pv) (span (MState pv rs []) e) (caps e))
  | None =>
      match rs with
      | [] => None
      | x :: t => search r (x :: pv) t
      end
  end.

Definition exec (r : regex) (s : str) : option MatchResult := search r [] s.

Fixpoint group (i : nat) (cs : list (nat * str)) : option str :=
  match cs with
  | [] => None
  | (j, w) :: rest => if Nat.eqb i j then Some w else group i rest
  end.

(** A capture spliced into a template literal; a group that did not take part
    would print as [undefined]. *)
Definition show_group (i : nat) (m : MatchResult) : str :=
  match group i (m_caps m) with
  | Some w => w
  | None => u "undefined"
  end.

(** [s.replace(r, repl)] for a pattern with the [g] flag and a replacement
    text without [$]: every match, found left to right, resuming where the
    previous match ended; an empty match advances by one unit.  [skip] counts
    the units of the current match still to be dropped. *)
Fixpoint replace_go (r : regex) (repl : str) (skip : nat) (pv rs : str) : str :=
  match rs with
  | [] =>
      match skip with
      | O => match match_at r pv [] with Some _ => repl | None => [] end
      | S _ => []
      end
  | x :: t =>
      match skip with
      | S n => replace_go r repl n (x :: pv) t
      | O =>
          match match_at r pv rs with
          | Some e =>
              match length (passed e) - length pv with
              | O => repl ++ x :: replace_go r repl 0 (x :: pv) t
              | S m => repl ++ replace_go r repl m (x :: pv) t
              end
          | None => x :: replace_go r repl 0 (x :: pv) t
          end
      end
  end.

Definition replace (r : regex) (repl : str) (s : str) : str :=
  replace_go r repl 0 [] s.

(** ** The utilities module *)

Module Utils.

(** [removeComment]: cut the line at the first [//]. *)
Definition removeComment (line : str) : str :=
  let commentIndex := indexOf (u "//") line in
  if negb (commentIndex =? -1)%Z then substring0 line commentIndex
  else line.

Definition isFunction (line : str) : bool :=
  let trimmed := trim line in
  startsWith (u "plot ") trimmed.

Definition isConditional (line : str) : bool :=
  let trimmed := trim line in
  startsWith (u "if ") trimmed || str_eqb trimmed (u "else:").

(** The pattern of [getIndent]: [^] followed by one group holding [\s*]. *)
Definition re_indent : regex := (RBol ^^ RGroup 1 (RStar true isSpace))%re.

Definition getIndent (line : str) : Z :=
  match exec re_indent line with
  | Some m => Z.of_nat (length (show_group 1 m))
  | None => 0%Z
  end.

Definition isEmpty (line : str) : bool :=
  let trimmed := trim line in
  str_eqb trimmed [] || startsWith (u "//") trimmed.

(** The pattern [/loop\s+(\w+):/]. *)
Definition re_loop : regex :=
  (lit (u "loop") ^^ RPlus true isSpace ^^ RGroup 1 (RPlus true isWord)
     ^^ RChar (ch ":"))%re.

Record LoopParts : Type := MkLoop { variable : str; collection : str }.

Definition extractLoop (line : str) : option LoopParts :=
  match exec re_loop line with
  | Some m => Some (MkLoop (u "item") (show_group 1 m))
  | None => None
  end.

(** The token table, in the order [Object.entries] lists it. *)
Definition TOKEN : list (string * string) :=
  [ ("truth", "true"); ("lie", "false"); ("plot", "function");
    ("suicide", "return"); ("escape", "break"); ("files", "console.log");
    ("loop", "for"); ("universe", "null") ]%string.

(** [replaceToken]: one global pass [/\bK\b/g] per entry of the table. *)
Definition replaceToken (code : str) : str :=
  fold_left
    (fun result entry =>
       replace (RWordB ^^ lit (u (fst entry)) ^^ RWordB)%re (u (snd entry)) result)
    TOKEN code.

(** The pattern [/(?:plot)\s+(\w+)/]. *)
Definition re_function_name : regex :=
  (lit (u "plot") ^^ RPlus true isSpace ^^ RGroup 1 (RPlus true isWord))%re.

Definition extractFunctionName (line : str) : option str :=
  match exec re_function_name line with
  | Some m => Some (show_group 1 m)
  | None => None
  end.

End Utils.

(** ** The parser *)

Module Parser.
Import Utils.

Inductive LineType : Type :=
| Tvariable | Tfunction | Tloop | Tconditional | Texpression | Tempty.

Record ParsedLine : Type := MkLine {
  original : str;
  cleaned : str;
  indent : Z;
  type : LineType
}.

Definition parseLine (line : str) : ParsedLine :=
  let indent := getIndent line in
  let cleaned := trim (removeComment line) in
  if isEmpty line then MkLine line [] indent Tempty
  else if isFunction cleaned then MkLine line cleaned indent Tfunction
  else if isConditional cleaned then MkLine line cleaned indent Tconditional
  else if includes (ch "=") cleaned then MkLine line cleaned indent Tvariable
  else MkLine line cleaned indent Texpression.

(** The constructor splits the code into physical lines; [parse] classifies
    them in order. *)
Definition parse (code : str) : list ParsedLine :=
  map parseLine (split_nl code).

(** The pattern [/(?:plot|plan)\s+(\w+)\((.*?)\):/]. *)
Definition re_function : regex :=
  (RAlt (lit (u "plot")) (lit (u "plan")) ^^ RPlus true isSpace
     ^^ RGroup 1 (RPlus true isWord) ^^ RChar (ch "(")
     ^^ RGroup 2 (RStar false isDot) ^^ RChar (ch ")") ^^ RChar (ch ":"))%re.

Definition convertFunction (line ind : str) : str :=
  match exec re_function line with
  | Some m =>
      ind ++ u "function " ++ show_group 1 m ++ u "(" ++ show_group 2 m ++ u ") {"
  | None => ind ++ u "// ERROR: Invalid function syntax"
  end.

Definition convertLoop (line ind : str) : str :=
  match extractLoop line with
  | Some parts =>
      ind ++ u "for (const " ++ variable parts ++ u " of " ++ collection parts ++ u ") {"
  | None => ind ++ u "// ERROR: Invalid loop syntax"
  end.

(** The pattern [/if\s+(.+):/]. *)
Definition re_if : regex :=
  (lit (u "if") ^^ RPlus true isSpace ^^ RGroup 1 (RPlus true isDot)
     ^^ RChar (ch ":"))%re.

Definition convertConditional (line ind : str) : str :=
  if str_eqb line (u "else:") then ind ++ u "} else {"
  else match exec re_if line with
       | Some m => ind ++ u "if (" ++ show_group 1 m ++ u ") {"
       | None => ind ++ u "// ERROR: Invalid conditional syntax"
       end.

(** The patterns [/\bK\(/g], [/\bK\[/g], [/\bK\{/g], [/\bK\b/g] and
    [/\bK\s+/g] of the substitution passes. *)
Definition kw_then (K : string) (c : ascii) : regex :=
  (RWordB ^^ lit (u K) ^^ RChar (ch c))%re.
Definition kw_word (K : string) : regex := (RWordB ^^ lit (u K) ^^ RWordB)%re.
Definition kw_spaces (K : string) : regex :=
  (RWordB ^^ lit (u K) ^^ RPlus true isSpace)%re.

Definition convertVariable (line ind : str) : str :=
  let converted := line in
  (* special constructors *)
  let converted := replace (kw_then "theory" "(") (u "Number(") converted in
  let converted := replace (kw_then "risk" "(") (u "parseFloat(") converted in
  let converted := replace (kw_then "ghost" "(") (u "String(") converted in
  let converted := replace (kw_then "money" "(") (u "Boolean(") converted in
  (* collections *)
  let converted := replace (kw_then "island" "[") (u "[") converted in
  let converted := replace (kw_then "girl" "{") (u "{") converted in
  let converted := replace (kw_then "mission" "(") (u "[") converted in
  let converted := replace (kw_then "weapon" "[") (u "[") converted in
  (* boolean values *)
  let converted := replace (kw_word "truestory") (u "true") converted in
  let converted := replace (kw_word "falsestory") (u "false") converted in
  let converted := replace (kw_word "truth") (u "true") converted in
  let converted := replace (kw_word "lie") (u "false") converted in
  (* special values *)
  let converted := replace (kw_word "universe") (u "null") converted in
  let converted := replace (kw_word "alibi") (u "null") converted in
  ind ++ u "const " ++ converted ++ u ";".

Definition convertExpression (line ind : str) : str :=
  let converted := line in
  (* files (print) *)
  let converted := replace (kw_then "files" "(") (u "console.log(") converted in
  (* suicide (return) *)
  let converted := replace (kw_spaces "suicide") (u "return ") converted in
  (* escape (break) *)
  let converted := replace (kw_word "escape") (u "break") converted in
  (* type conversions *)
  let converted := replace (kw_then "theory" "(") (u "Number(") converted in
  let converted := replace (kw_then "risk" "(") (u "parseFloat(") converted in
  let converted := replace (kw_then "ghost" "(") (u "String(") converted in
  let converted := replace (kw_then "money" "(") (u "Boolean(") converted in
  (* boolean values *)
  let converted := replace (kw_word "truestory") (u "true") converted in
  let converted := replace (kw_word "falsestory") (u "false") converted in
  (* closing braces *)
  if str_eqb (trim line) (u "}") then ind ++ u "}"
  else ind ++ converted ++ u ";".

(** The loop of [toJavaScript]: [jsLines] is the array being filled.  The
    indentation is [indent.repeat(line.indent / 2)], whose count is
    truncated to an integer by [repeat]; a RangeError is [None].  A line
    whose type no [case] of the [switch] handles pushes nothing. *)
Fixpoint toJavaScript_loop (parsedLines : list ParsedLine) (jsLines : list str)
  : option (list str) :=
  match parsedLines with
  | [] => Some jsLines
  | line :: rest =>
      match type line with
      | Tempty => toJavaScript_loop rest (jsLines ++ [[]])
      | ty =>
          match repeat_str (u "  ") (Z.quot (indent line) 2) with
          | None => None
          | Some indentation =>
              match ty with
              | Tfunction =>
                  toJavaScript_loop rest
                    (jsLines ++ [convertFunction (cleaned line) indentation])
              | Tloop =>
                  toJavaScript_loop rest
                    (jsLines ++ [convertLoop (cleaned line) indentation])
              | Tconditional =>
                  toJavaScript_loop rest
                    (jsLines ++ [convertConditional (cleaned line) indentation])
              | Tvariable =>
                  toJavaScript_loop rest
                    (jsLines ++ [convertVariable (cleaned line) indentation])
              | Texpression =>
                  toJavaScript_loop rest
                    (jsLines ++ [convertExpression (cleaned line) indentation])
              | Tempty => toJavaScript_loop rest jsLines
              end
          end
      end
  end.

Definition toJavaScript (parsedLines : list ParsedLine) : option str :=
  match toJavaScript_loop parsedLines [] with
  | Some jsLines => Some (join_nl jsLines)
  | None => None
  end.

(** The pipeline of the interpreter: classify every line, then translate. *)
Definition translate (code : str) : option str := toJavaScript (parse code).

(** What the module exports at run time: the class, under the name
    [EpsteinParser] (the interface [ParsedLine] is a type and leaves nothing
    behind).  A class is represented by what its user does with it:
    construct it on a text, call [parse], pass the lines to
    [toJavaScript]. *)
Definition exports : list (string * (str -> option str)) :=
  [ ("EpsteinParser"%string, fun code => toJavaScript (parse code)) ].

End Parser.

(** ** The executor's scope *)

Module Executor.
Section Scope.
(** Run-time values of the host are opaque here. *)
Variable value : Type.

(** An object used as a map: its own enumerable properties, every key once.
    [Object.keys] and [Object.values] list them in one and the same order;
    the model keeps the order of insertion. *)
Definition object : Type := list (str * value).

Definition keys (o : object) : list str := map fst o.
Definition values (o : object) : list value := map snd o.

(** [o[k]] *)
Fixpoint get (o : object) (k : str) : option value :=
  match o with
  | [] => None
  | (k', v) :: rest => if str_eqb k' k then Some v else get rest k
  end.

(** [o[k] = v]: an existing property keeps its place, a new one is added
    last. *)
Fixpoint set (o : object) (k : str) (v : value) : object :=
  match o with
  | [] => [(k, v)]
  | (k', v') :: rest =>
      if str_eqb k' k then (k', v) :: rest else (k', v') :: set rest k v
  end.

(** Copying the properties of [src] into [target], as a spread element
    does. *)
Definition copy_into (target src : object) : object :=
  fold_left (fun acc kv => set acc (fst kv) (snd kv)) src target.

(** The object literal with two spread elements. *)
Definition spread2 (o1 o2 : object) : object := copy_into (copy_into [] o1) o2.

(** The members of the runtime class the executor exposes. *)
Record Runtime : Type := MkRuntime {
  theory : value; risk : value; ghost : value; money : value;
  island : value; girl : value; mission : value; secret : value;
  weapon : value; files : value;
  truth : value; lie : value;
  universe : value; alibi : value
}.

Variable runtime : Runtime.
Variable console : value.

(** [setupGlobalScope], run by the constructor on the empty scope. *)
Definition setupGlobalScope : object :=
  let globalScope := [] in
  let globalScope := set globalScope (u "theory") (theory runtime) in
  let globalScope := set globalScope (u "risk") (risk runtime) in
  let globalScope := set globalScope (u "ghost") (ghost runtime) in
  let globalScope := set globalScope (u "money") (money runtime) in
  let globalScope := set globalScope (u "island") (island runtime) in
  let globalScope := set globalScope (u "girl") (girl runtime) in
  let globalScope := set globalScope (u "mission") (mission runtime) in
  let globalScope := set globalScope (u "secret") (secret runtime) in
  let globalScope := set globalScope (u "weapon") (weapon runtime) in
  let globalScope := set globalScope (u "files") (files runtime) in
  let globalScope := set globalScope (u "truestory") (truth runtime) in
  let globalScope := set globalScope (u "falsestory") (lie runtime) in
  let globalScope := set globalScope (u "truth") (truth runtime) in
  let globalScope := set globalScope (u "lie") (lie runtime) in
  let globalScope := set globalScope (u "universe") (universe runtime) in
  let globalScope := set globalScope (u "alibi") (alibi runtime) in
  let globalScope := set globalScope (u "console") console in
  globalScope.

(** The host facility behind [new Function(...params, body)(...args)]:
    building the function and calling it either throws or completes. *)
Variable outcome : Type.
Variable host_call : list str -> str -> list value -> outcome.

(** [executeWithScope]: the catch clause logs and rethrows, so the outcome
    is the host's. *)
Definition executeWithScope (globalScope : object) (jsCode : str)
           (customScope : object) : outcome :=
  let mergedScope := spread2 globalScope customScope in
  host_call (keys mergedScope) jsCode (values mergedScope).

(** What a free identifier of the body denotes in a function called with
    [args] for [params]: the argument of the parameter of that name, the
    last one if the name is repeated. *)
Definition param_binding (params : list str) (args : list value) (name : str)
  : option value :=
  fold_left (fun found pa => if str_eqb (fst pa) name then Some (snd pa) else found)
            (combine params args) None.

(** [execute]: the code runs with the global scope alone. *)
Definition execute (globalScope : object) (jsCode : str) : outcome :=
  host_call (keys globalScope) jsCode (values globalScope).

(** [executeWithReturn]: the code is wrapped so that its value comes back. *)
Definition executeWithReturn (globalScope : object) (jsCode : str) : outcome :=
  host_call (keys globalScope)
            (u "return (function() { " ++ jsCode ++ u " })();")
            (values globalScope).

(** [getScope]: a copy of the global scope. *)
Definition getScope (globalScope : object) : object := copy_into [] globalScope.

(** [updateScope]: the assignment [this.globalScope[key] = value].  The
    scope is an ordinary object, so for every key but [__proto__] the
    assignment defines or overwrites an own property.  With the key
    [__proto__] it reaches the accessor inherited from [Object.prototype]:
    no own property is defined, whatever the value.  (That accessor may
    replace the prototype of the scope.  The model keeps the own properties
    only, so what later assignments do under a replaced prototype is not
    followed; the properties of update sequences below are stated for
    sequences without that key.) *)
Definition updateScope (globalScope : object) (key : str) (v : value) : object :=
  if str_eqb key (u "__proto__") then globalScope else set globalScope key v.

End Scope.
End Executor.

(** ** The interpreter *)

Module Interpreter.
Section Run.
Variable value : Type.
Variable runtime : Executor.Runtime value.
Variable console : value.

(** What executed code can throw, and the host call behind the executor:
    [None] when the call completes, [Some e] when it throws [e]. *)
Variable exn : Type.
Variable host_call : list str -> str -> list value -> option exn.

Inductive error : Type :=
| NoSourceCode        (* 'No source code loaded. ...' *)
| NoCodeToExecute     (* 'No code to execute. Call parse() first.' *)
| NotAConstructor     (* the TypeError of [new] on a value that is no class *)
| RangeError          (* from [repeat] in the translator *)
| Thrown (e : exn).   (* rethrown from the executor *)

Inductive result (A : Type) : Type :=
| Done (a : A)
| Failed (e : error).
Arguments Done {A} a.
Arguments Failed {A} e.

(** The program runs as CommonJS modules ([index.ts] uses [require.main]
    and [__dirname]), where an import of [name] reads the property of that
    name of what the module exports: [undefined] when there is none. *)
Fixpoint imported (A : Type) (name : string) (module_exports : list (string * A))
  : option A :=
  match module_exports with
  | [] => None
  | (n, a) :: rest => if String.eqb n name then Some a else imported name rest
  end.

(** The import of the name [Parser] from the parser module, which is the
    name the interpreter asks for. *)
Definition Parser_binding : option (str -> option str) :=
  imported "Parser" Parser.exports.

(** The fields the methods below read and write; the executor built by the
    constructor keeps the scope of [setupGlobalScope]. *)
Record state : Type := MkState { sourceCode : str; jsCode : str }.

Definition init : state := MkState [] [].

Definition loadCode (code : str) (st : state) : state :=
  MkState code (jsCode st).

(** [parse]: an empty source is refused; otherwise the imported binding is
    constructed on the source, which throws when the binding is no class;
    the lines are then classified and translated. *)
Definition parse (st : state) : result state :=
  if str_eqb (sourceCode st) [] then Failed NoSourceCode
  else match Parser_binding with
       | None => Failed NotAConstructor
       | Some translator =>
           match translator (sourceCode st) with
           | Some js => Done (MkState (sourceCode st) js)
           | None => Failed RangeError
           end
       end.

(** [execute]: an empty translation is refused; otherwise the executor runs
    it and what it throws is thrown again. *)
Definition execute (st : state) : result state :=
  if str_eqb (jsCode st) [] then Failed NoCodeToExecute
  else match Executor.execute host_call
               (Executor.setupGlobalScope runtime console) (jsCode st) with
       | Some e => Failed (Thrown e)
       | None => Done st
       end.

(** [runCode]: load, parse, execute. *)
Definition runCode (code : str) (st : state) : result state :=
  match parse (loadCode code st) with
  | Done st' => execute st'
  | Failed e => Failed e
  end.

Definition getJavaScript (st : state) : str := jsCode st.
Definition getSource (st : state) : str := sourceCode st.

End Run.
Arguments Done {exn A} a.
Arguments Failed {exn A} e.
Arguments NoSourceCode {exn}.
Arguments NoCodeToExecute {exn}.
Arguments NotAConstructor {exn}.
Arguments RangeError {exn}.
End Interpreter.

Import Utils Parser.

(** ** Specification-side definitions *)

(** Declarative meaning of a pattern: [lang r pv w rs] says that [r] matches
    the text [w] when [pv] (reversed) precedes it and [rs] follows it. *)
Fixpoint lang (r : regex) (pv w rs : str) : Prop :=
  match r with
  | RChar c => w = [c]
  | RClass p => exists x, w = [x] /\ p x = true
  | RSeq r1 r2 =>
      exists w1 w2, w = w1 ++ w2 /\ lang r1 pv w1 (w2 ++ rs)
                    /\ lang r2 (rev w1 ++ pv) w2 rs
  | RAlt r1 r2 => lang r1 pv w rs \/ lang r2 pv w rs
  | RStar _ p => Forall (fun x => p x = true) w
  | RGroup _ r => lang r pv w rs
  | RWordB => w = [] /\ boundary pv rs = true
  | RBol => w = [] /\ pv = []
  end.

Definition all (p : char -> bool) (s : str) : Prop := Forall (fun x => p x = true) s.

(** Every capture recorded so far is made of units satisfying [P]. *)
Definition caps_ok (P : char -> Prop) (cs : list (nat * str)) : Prop :=
  Forall (fun c => Forall P (snd c)) cs.

(** The first unit of [s], if any, does not satisfy [p]. *)
Definition headNot (p : char -> bool) (s : str) : Prop :=
  match s with
  | [] => True
  | x :: _ => p x = false
  end.

(** The units of a physical line: anything but the line separator. *)
Definition notNl (c : char) : Prop := c <> nl.

(** The indentation the translator emits for a line with a non-negative
    indent: one two-space unit per two units of indent, rounded down. *)
Definition indentation_of (pl : ParsedLine) : str :=
  List.concat (repeat (u "  ") (Z.to_nat (Z.quot (indent pl) 2))).

(** What [toJavaScript] pushes for one classified line when building the
    indentation succeeds: the branch of the [switch] for its type, with the
    converter of the loop branch as a parameter. *)
Definition emit_with (loopConverter : str -> str -> str) (pl : ParsedLine) : str :=
  match type pl with
  | Tempty => []
  | Tfunction => convertFunction (cleaned pl) (indentation_of pl)
  | Tloop => loopConverter (cleaned pl) (indentation_of pl)
  | Tconditional => convertConditional (cleaned pl) (indentation_of pl)
  | Tvariable => convertVariable (cleaned pl) (indentation_of pl)
  | Texpression => convertExpression (cleaned pl) (indentation_of pl)
  end.

Definition emit (pl : ParsedLine) : str := emit_with convertLoop pl.

(** The header shape [<def-keyword> <name>(<params>):] occurring somewhere in
    a line: the keyword, at least one white space, a name of word characters,
    and a parameter list without line terminators closed by [):]. *)
Definition function_header (line : str) : Prop :=
  exists a kw ws name params b,
    line = a ++ kw ++ ws ++ name ++ u "(" ++ params ++ u "):" ++ b
    /\ (kw = u "plot" \/ kw = u "plan")
    /\ ws <> [] /\ all isSpace ws
    /\ name <> [] /\ all isWord name
    /\ all isDot params.

(** The double quote. *)
Definition dq : char := 34%N.

(** *** Keyword rules

    Every substitution pass of the translator replaces a pattern of the shape
    [\b K T] where [K] is a keyword and the tail [T] is one literal unit,
    [\b], or [\s+]. *)

Inductive tail : Type :=
| TChar (c : char)
| TWord
| TSpaces.

Record rule : Type := Rule { kw : str; tl : tail; repl : str }.

Definition tail_regex (t : tail) : regex :=
  match t with
  | TChar c => RChar c
  | TWord => RWordB
  | TSpaces => RPlus true isSpace
  end.

Definition rule_regex (p : rule) : regex :=
  RSeq RWordB (RSeq (lit (kw p)) (tail_regex (tl p))).

Definition apply_rule (s : str) (p : rule) : str := replace (rule_regex p) (repl p) s.

Definition apply_rules (rules : list rule) (s : str) : str :=
  fold_left apply_rule rules s.

(** The passes of [convertVariable], in source order. *)
Definition rules_variable : list rule :=
  [ Rule (u "theory") (TChar (ch "(")) (u "Number(");
    Rule (u "risk") (TChar (ch "(")) (u "parseFloat(");
    Rule (u "ghost") (TChar (ch "(")) (u "String(");
    Rule (u "money") (TChar (ch "(")) (u "Boolean(");
    Rule (u "island") (TChar (ch "[")) (u "[");
    Rule (u "girl") (TChar (ch "{")) (u "{");
    Rule (u "mission") (TChar (ch "(")) (u "[");
    Rule (u "weapon") (TChar (ch "[")) (u "[");
    Rule (u "truestory") TWord (u "true");
    Rule (u "falsestory") TWord (u "false");
    Rule (u "truth") TWord (u "true");
    Rule (u "lie") TWord (u "false");
    Rule (u "universe") TWord (u "null");
    Rule (u "alibi") TWord (u "null") ].

(** The passes of [convertExpression], in source order. *)
Definition rules_expression : list rule :=
  [ Rule (u "files") (TChar (ch "(")) (u "console.log(");
    Rule (u "suicide") TSpaces (u "return ");
    Rule (u "escape") TWord (u "break");
    Rule (u "theory") (TChar (ch "(")) (u "Number(");
    Rule (u "risk") (TChar (ch "(")) (u "parseFloat(");
    Rule (u "ghost") (TChar (ch "(")) (u "String(");
    Rule (u "money") (TChar (ch "(")) (u "Boolean(");
    Rule (u "truestory") TWord (u "true");
    Rule (u "falsestory") TWord (u "false") ].

(** The keywords of either table. *)
Definition keywords : list str := map kw (rules_variable ++ rules_expression).

Fixpoint takeWhile (p : char -> bool) (s : str) : str :=
  match s with
  | [] => []
  | x :: t => if p x then x :: takeWhile p t else []
  end.

(** Length of the match of a tail right after the keyword. *)
Definition tail_len (t : tail) (pv rs : str) : option nat :=
  match t with
  | TChar c =>
      match rs with
      | x :: _ => if (x =? c)%N then Some 1 else None
      | [] => None
      end
  | TWord => if boundary pv rs then Some 0 else None
  | TSpaces =>
      match takeWhile isSpace rs with
      | [] => None
      | sp => Some (length sp)
      end
  end.

(** Length of the match of a keyword rule at a position. *)
Definition kw_len (p : rule) (pv rs : str) : option nat :=
  if boundary pv rs && startsWith (kw p) rs then
    match tail_len (tl p) (rev (kw p) ++ pv) (skipn (length (kw p)) rs) with
    | Some n => Some (length (kw p) + n)
    | None => None
    end
  else None.

(** Length of the match found by the matcher at a position. *)
Definition mlen (r : regex) (pv rs : str) : option nat :=
  match match_at r pv rs with
  | Some e => Some (length (passed e) - length pv)
  | None => None
  end.

(** A text that does not end with a word character. *)
Definition lastNot (s : str) : Prop := headNot isWord (rev s).

(** What the proofs need of a rule: a non-empty keyword of word characters, a
    literal tail that is not a word character, and a non-empty replacement
    that, unless the pattern ends with [\b], does not end with a word
    character. *)
Definition good_tail (t : tail) (rp : str) : Prop :=
  match t with
  | TChar c => isWord c = false /\ lastNot rp
  | TWord => True
  | TSpaces => lastNot rp
  end.

Definition good_rule (p : rule) : Prop :=
  kw p <> [] /\ all isWord (kw p) /\ repl p <> [] /\ good_tail (tl p) (repl p).

(** [occurs K w]: the text [K] occurs somewhere in [w]. *)
Fixpoint occurs (K w : str) : bool :=
  startsWith K w || match w with [] => false | _ :: t => occurs K t end.

(** The replacement pass of one rule, from a position of the scan. *)
Definition rule_go (p : rule) (skip : nat) (pv rs : str) : str :=
  replace_go (rule_regex p) (repl p) skip pv rs.

(** The two-line program of the conditional scenario: [if truth:] followed by
    a print statement indented by four spaces, in the statement form and in
    the call form. *)
Definition scenario_if_statement : str :=
  u "if truth:" ++ nl :: u "    files " ++ dq :: u "Approved" ++ [dq].
Definition scenario_if_call : str :=
  u "if truth:" ++ nl :: u "    files(" ++ dq :: u "Approved" ++ dq :: u ")".

(** An executor over numbers: the built-in scope binds [truth] to 11, the
    caller overrides it and adds a name of its own. *)
Definition sample_runtime : Executor.Runtime nat :=
  Executor.MkRuntime 1 2 3 4 5 6 7 8 9 10 11 12 13 14.

Definition sample_custom : Executor.object nat := [(u "truth", 99); (u "extra", 7)].

(** Index of the first occurrence of [p] in [s], counted from the start. *)
Fixpoint find_first (p s : str) : option nat :=
  if startsWith p s then Some 0
  else match s with
       | [] => None
       | _ :: t => option_map S (find_first p t)
       end.

(** The passes of [replaceToken] as keyword rules. *)
Definition rules_token : list rule :=
  map (fun entry => Rule (u (fst entry)) TWord (u (snd entry))) TOKEN.

(** The whole-word passes of [convertVariable] and of [convertExpression]:
    keyword and replacement. *)
Definition synonyms_variable : list (string * string) :=
  [ ("truestory", "true"); ("falsestory", "false"); ("truth", "true");
    ("lie", "false"); ("universe", "null"); ("alibi", "null") ]%string.

Definition synonyms_expression : list (string * string) :=
  [ ("escape", "break"); ("truestory", "true"); ("falsestory", "false") ]%string.

(** The global scope of an executor after a sequence of [updateScope]
    calls, oldest first. *)
Definition scope_after (value : Type) (runtime : Executor.Runtime value)
           (console : value) (updates : list (str * value)) : Executor.object value :=
  fold_left (fun g kv => Executor.updateScope g (fst kv) (snd kv)) updates
            (Executor.setupGlobalScope runtime console).

(** ** Strings *)

Lemma str_eqb_eq a : forall b, str_eqb a b = true <-> a = b.
Proof.
  induction a as [|x a IH]; intros [|y b]; simpl; split; try congruence; try easy.
  - intros H. apply andb_prop in H as [H1 H2]. apply N.eqb_eq in H1.
    apply IH in H2. congruence.
  - intros H. injection H as -> ->. rewrite N.eqb_refl. simpl. now apply IH.
Qed.

Lemma startsWith_app p : forall s, startsWith p s = true <-> exists t, s = p ++ t.
Proof.
  induction p as [|x p IH]; intros s; simpl.
  - split; eauto.
  - destruct s as [|y s].
    + split; [discriminate | intros [t H]; discriminate].
    + split.
      * intros H. apply andb_prop in H as [H1 H2]. apply N.eqb_eq in H1.
        apply IH in H2 as [t ->]. subst. now exists t.
      * intros [t H]. injection H as -> ->. rewrite N.eqb_refl. simpl.
        apply IH. now exists t.
Qed.

Lemma dropWhile_split p s :
  exists pre, s = pre ++ dropWhile p s /\ all p pre.
Proof.
  induction s as [|x s [pre [E A]]]; simpl.
  - exists []. split; [reflexivity | constructor].
  - destruct (p x) eqn:Px.
    + exists (x :: pre). split; [simpl; congruence | now constructor].
    + exists []. split; [reflexivity | constructor].
Qed.

Lemma dropWhile_headNot p s : headNot p (dropWhile p s).
Proof.
  induction s as [|x s IH]; simpl; [exact I|].
  destruct (p x) eqn:Px; [exact IH | exact Px].
Qed.

Lemma dropWhile_id p s : headNot p s -> dropWhile p s = s.
Proof. destruct s as [|x s]; simpl; [reflexivity | now intros ->]. Qed.

Lemma dropWhile_all p s : all p s -> dropWhile p s = [].
Proof. induction 1 as [|x s Px _ IH]; simpl; [reflexivity | now rewrite Px]. Qed.

Lemma dropWhile_nil_all p s : dropWhile p s = [] -> all p s.
Proof.
  induction s as [|x s IH]; simpl; [constructor|].
  destruct (p x) eqn:Px; [|discriminate]. intros H.
  constructor; [exact Px | exact (IH H)].
Qed.

Lemma all_rev p s : all p s -> all p (rev s).
Proof. intros H. unfold all. now apply Forall_rev. Qed.

Lemma trimEnd_split s : exists suf, s = trimEnd s ++ suf /\ all isSpace suf.
Proof.
  unfold trimEnd. destruct (dropWhile_split isSpace (rev s)) as [pre [E A]].
  exists (rev pre). split; [|now apply all_rev].
  rewrite <- rev_app_distr, <- E. now rewrite rev_involutive.
Qed.

Lemma trimStart_split s : exists pre, s = pre ++ trimStart s /\ all isSpace pre.
Proof. apply dropWhile_split. Qed.

Lemma trim_all_space s : all isSpace s -> trim s = [].
Proof. intros H. unfold trim, trimStart. now rewrite dropWhile_all. Qed.

Lemma trim_nil_all_space s : trim s = [] -> all isSpace s.
Proof.
  unfold trim. intros H.
  destruct (trimEnd_split (trimStart s)) as [suf [E A]]. rewrite H in E. simpl in E.
  apply dropWhile_nil_all. unfold trimStart in E.
  destruct (dropWhile isSpace s) as [|x t] eqn:D; [reflexivity|].
  pose proof (dropWhile_headNot isSpace s) as Hh. rewrite D in Hh. simpl in Hh.
  subst suf. inversion A; congruence.
Qed.

Lemma headNot_prefix p a b : a <> [] -> headNot p (a ++ b) -> headNot p a.
Proof. destruct a; simpl; congruence. Qed.

Lemma trim_headNot s : headNot isSpace (trim s).
Proof.
  unfold trim. destruct (trimEnd_split (trimStart s)) as [suf [E A]].
  pose proof (dropWhile_headNot isSpace s) as Hh. fold (trimStart s) in Hh.
  destruct (trimEnd (trimStart s)) as [|x t] eqn:T; [exact I|].
  rewrite E in Hh. exact Hh.
Qed.

Lemma trim_lastNot s : headNot isSpace (rev (trim s)).
Proof.
  unfold trim, trimEnd. rewrite rev_involutive. apply dropWhile_headNot.
Qed.

Lemma trim_fixed s : headNot isSpace s -> headNot isSpace (rev s) -> trim s = s.
Proof.
  intros H1 H2. unfold trim, trimStart, trimEnd.
  rewrite (dropWhile_id _ _ H1), (dropWhile_id _ _ H2). apply rev_involutive.
Qed.

Lemma trim_idem s : trim (trim s) = trim s.
Proof. apply trim_fixed; [apply trim_headNot | apply trim_lastNot]. Qed.

Lemma Forall_dropWhile (P : char -> Prop) p s : Forall P s -> Forall P (dropWhile p s).
Proof.
  induction 1 as [|x s Px Hs IH]; simpl; [constructor|].
  destruct (p x); [exact IH | now constructor].
Qed.

Lemma Forall_trim (P : char -> Prop) s : Forall P s -> Forall P (trim s).
Proof.
  intros H. unfold trim, trimEnd, trimStart.
  apply Forall_rev, Forall_dropWhile, Forall_rev, Forall_dropWhile, H.
Qed.

Lemma Forall_firstn (P : char -> Prop) n s : Forall P s -> Forall P (firstn n s).
Proof.
  intros H. revert n. induction H as [|x s Px Hs IH]; intros [|n]; simpl;
    constructor; auto.
Qed.

(** ** The matcher at work *)

(** Greedy [.+] gives back as little as it must: the condition runs to the
    last colon. *)
Example re_if_greedy :
  option_map (show_group 1) (exec re_if (u "if a: b: c")) = Some (u "a: b").
Proof. reflexivity. Qed.

(** The leftmost start that succeeds wins, and lazy [.*?] stops at the first
    [):]. *)
Example re_function_leftmost_lazy :
  option_map (fun m => (m_index m, show_group 1 m, show_group 2 m))
             (exec re_function (u "plot plan f(x): g(y):"))
  = Some (5, u "f", u "x").
Proof. reflexivity. Qed.

(** Global replacement resumes where the last match ended and steps over an
    empty match. *)
Example replace_empty_matches :
  replace (RStar true (N.eqb (ch "a"))) (u "-") (u "aab") = u "--b-".
Proof. reflexivity. Qed.

Example getIndent_counts_leading_space :
  getIndent (9%N :: u "  x  ") = 3%Z.
Proof. reflexivity. Qed.

(** The first scenario of the documentation: a string bound to a name. *)
Example binding_scenario :
  translate (u "deal = " ++ dq :: u "Classified" ++ [dq])
  = Some (u "const deal = " ++ dq :: u "Classified" ++ dq :: u ";").
Proof. reflexivity. Qed.

(** ** The matcher against the declarative meaning of patterns *)

Section MatcherFacts.
Variable A : Type.
Variable P : char -> Prop.

Lemma star_sound g p (k : mstate -> option A) cs a :
  forall rs0 pv,
    star g p k pv rs0 cs = Some a ->
    exists w rs, rs0 = w ++ rs /\ all p w /\ k (MState (rev w ++ pv) rs cs) = Some a.
Proof.
  induction rs0 as [|x t IH]; intros pv H; simpl in H.
  - exists [], []. repeat split; [constructor | exact H].
  - assert (Hstop : k (MState pv (x :: t) cs) = Some a ->
                    exists w rs, x :: t = w ++ rs /\ all p w
                                 /\ k (MState (rev w ++ pv) rs cs) = Some a).
    { intros Hk. exists [], (x :: t). repeat split; [constructor | exact Hk]. }
    assert (Hgo : star g p k (x :: pv) t cs = Some a -> p x = true ->
                  exists w rs, x :: t = w ++ rs /\ all p w
                               /\ k (MState (rev w ++ pv) rs cs) = Some a).
    { intros Hs Px. destruct (IH _ Hs) as [w [rs [E [Aw Hk]]]].
      exists (x :: w), rs. repeat split.
      - simpl. congruence.
      - now constructor.
      - simpl. rewrite <- app_assoc. exact Hk. }
    destruct (p x) eqn:Px; [|auto].
    destruct g.
    + destruct (star true p k (x :: pv) t cs) eqn:S1; [injection H as ->; auto | auto].
    + destruct (k (MState pv (x :: t) cs)) eqn:K1; [injection H as ->; auto | auto].
Qed.

Lemma star_complete g p (k : mstate -> option A) cs rs :
  forall w pv,
    all p w ->
    star g p k pv (w ++ rs) cs = None ->
    k (MState (rev w ++ pv) rs cs) = None.
Proof.
  induction w as [|x w IH]; intros pv Aw H.
  - simpl in *. destruct rs as [|y t]; simpl in H; [exact H|].
    destruct (p y); [|exact H].
    destruct g.
    + destruct (star true p k (y :: pv) t cs); [discriminate | exact H].
    + destruct (k (MState pv (y :: t) cs)); [discriminate | reflexivity].
  - inversion Aw as [|? ? Px Aw']; subst. simpl in H. rewrite Px in H.
    simpl. rewrite <- app_assoc. simpl. apply IH; [exact Aw'|].
    destruct g.
    + destruct (star true p k (x :: pv) (w ++ rs) cs); [discriminate | reflexivity].
    + destruct (k (MState pv (x :: w ++ rs) cs)); [discriminate | exact H].
Qed.

Lemma span_ok s s' : Forall P (passed s') -> Forall P (span s s').
Proof. intros H. unfold span. apply Forall_rev. now apply Forall_firstn. Qed.

(** Soundness: a successful run has passed a text of the pattern's
    language, and its captures are made of units of the input. *)
Lemma rmatch_sound r :
  forall (k : mstate -> option A) pv rs0 cs a,
    Forall P pv -> Forall P rs0 -> caps_ok P cs ->
    rmatch r k (MState pv rs0 cs) = Some a ->
    exists w rs cs',
      rs0 = w ++ rs /\ lang r pv w rs /\ caps_ok P cs'
      /\ k (MState (rev w ++ pv) rs cs') = Some a.
Proof.
  induction r as [c|p|r1 IH1 r2 IH2|r1 IH1 r2 IH2|g p|i r IH| |];
    intros k pv rs0 cs a Hpv Hrs Hcs H; simpl in H.
  - destruct rs0 as [|x t]; [discriminate|].
    destruct (N.eqb_spec x c); [subst x | discriminate].
    exists [c], t, cs. simpl. auto.
  - destruct rs0 as [|x t]; [discriminate|].
    destruct (p x) eqn:Px; [|discriminate].
    exists [x], t, cs. simpl. repeat split; eauto.
  - destruct (IH1 _ _ _ _ _ Hpv Hrs Hcs H) as [w1 [rs1 [cs1 [E1 [L1 [C1 K1]]]]]].
    subst rs0. apply Forall_app in Hrs as [Hw1 Hrs1].
    assert (Hpv1 : Forall P (rev w1 ++ pv)).
    { apply Forall_app. split; [now apply Forall_rev | exact Hpv]. }
    destruct (IH2 _ _ _ _ _ Hpv1 Hrs1 C1 K1) as [w2 [rs [cs2 [E2 [L2 [C2 K2]]]]]].
    subst rs1. exists (w1 ++ w2), rs, cs2. repeat split.
    + now rewrite app_assoc.
    + exists w1, w2. auto.
    + exact C2.
    + rewrite rev_app_distr, <- app_assoc. exact K2.
  - destruct (rmatch r1 k (MState pv rs0 cs)) eqn:M1.
    + injection H as ->.
      destruct (IH1 _ _ _ _ _ Hpv Hrs Hcs M1) as [w [rs [cs' [E [L [C K]]]]]].
      exists w, rs, cs'. simpl. auto.
    + destruct (IH2 _ _ _ _ _ Hpv Hrs Hcs H) as [w [rs [cs' [E [L [C K]]]]]].
      exists w, rs, cs'. simpl. auto.
  - destruct (star_sound _ _ _ _ _ _ H) as [w [rs [E [Aw K]]]].
    exists w, rs, cs. simpl. auto.
  - destruct (IH _ _ _ _ _ Hpv Hrs Hcs H) as [w [rs [cs' [E [L [C K]]]]]].
    simpl in K. eexists w, rs, _. repeat split; [exact E | exact L | | exact K].
    constructor; [|exact C]. simpl. apply span_ok. simpl.
    subst rs0. apply Forall_app in Hrs as [Hw _].
    apply Forall_app. split; [now apply Forall_rev | exact Hpv].
  - destruct (boundary pv rs0) eqn:B; [|discriminate].
    exists [], rs0, cs. simpl. auto.
  - destruct pv; [|discriminate]. exists [], rs0, cs. simpl. auto.
Qed.

(** Completeness: when the run fails, the continuation fails after every
    text of the pattern's language. *)
Lemma rmatch_complete r :
  forall (k : mstate -> option A) pv w rs cs,
    lang r pv w rs ->
    rmatch r k (MState pv (w ++ rs) cs) = None ->
    exists cs', k (MState (rev w ++ pv) rs cs') = None.
Proof.
  induction r as [c|p|r1 IH1 r2 IH2|r1 IH1 r2 IH2|g p|i r IH| |];
    intros k pv w rs cs L H; simpl in L, H.
  - subst w. simpl in H. rewrite N.eqb_refl in H. eauto.
  - destruct L as [x [-> Px]]. simpl in H. rewrite Px in H. eauto.
  - destruct L as [w1 [w2 [-> [L1 L2]]]]. rewrite <- app_assoc in H.
    destruct (IH1 _ _ _ _ _ L1 H) as [cs1 H1].
    destruct (IH2 _ _ _ _ _ L2 H1) as [cs2 H2].
    exists cs2. rewrite rev_app_distr, <- app_assoc. exact H2.
  - destruct (rmatch r1 k (MState pv (w ++ rs) cs)) eqn:M1; [discriminate|].
    destruct L as [L|L]; eauto.
  - exists cs. eapply star_complete; eauto.
  - destruct (IH _ _ _ _ _ L H) as [cs' H']. simpl in H'. eauto.
  - destruct L as [-> B]. simpl in H. rewrite B in H. eauto.
  - destruct L as [-> ->]. simpl in H. eauto.
Qed.
End MatcherFacts.

Lemma match_at_sound (P : char -> Prop) r pv rs0 e :
  Forall P pv -> Forall P rs0 ->
  match_at r pv rs0 = Some e ->
  exists w rs, rs0 = w ++ rs /\ lang r pv w rs /\ caps_ok P (caps e)
               /\ passed e = rev w ++ pv /\ ahead e = rs.
Proof.
  intros Hpv Hrs H. unfold match_at in H.
  destruct (rmatch_sound (P := P) r _ Hpv Hrs (Forall_nil _) H)
    as [w [rs [cs' [E [L [C K]]]]]].
  injection K as <-. exists w, rs. simpl. auto.
Qed.

Lemma match_at_complete r pv w rs :
  lang r pv w rs -> match_at r pv (w ++ rs) <> None.
Proof.
  intros L H. unfold match_at in H.
  destruct (@rmatch_complete mstate r (fun s => Some s) pv w rs [] L H) as [cs' K].
  discriminate.
Qed.

Lemma span_passed pv rs w cs' rs' :
  span (MState pv rs []) (MState (rev w ++ pv) rs' cs') = w.
Proof.
  unfold span. simpl. rewrite length_app, Nat.add_sub.
  rewrite firstn_app, Nat.sub_diag, firstn_all.
  simpl. rewrite app_nil_r. apply rev_involutive.
Qed.

Lemma search_sound (P : char -> Prop) r :
  forall rs0 pv m,
    Forall P pv -> Forall P rs0 ->
    search r pv rs0 = Some m ->
    exists a w b,
      rs0 = a ++ w ++ b /\ lang r (rev a ++ pv) w b
      /\ m_whole m = w /\ caps_ok P (m_caps m).
Proof.
  induction rs0 as [|x t IH]; intros pv m Hpv Hrs H; simpl in H.
  - destruct (match_at r pv []) as [e|] eqn:M; [|discriminate].
    injection H as <-.
    destruct (match_at_sound r Hpv Hrs M) as [w [rs [E [L [C [Ep Ea]]]]]].
    exists [], w, rs. simpl. repeat split; auto.
    destruct e as [pe ae ce]. simpl in *. subst pe. apply span_passed.
  - destruct (match_at r pv (x :: t)) as [e|] eqn:M.
    + injection H as <-.
      destruct (match_at_sound r Hpv Hrs M) as [w [rs [E [L [C [Ep Ea]]]]]].
      exists [], w, rs. simpl. repeat split; auto.
      destruct e as [pe ae ce]. simpl in *. subst pe. apply span_passed.
    + inversion Hrs as [|? ? Px Ht]; subst.
      destruct (IH (x :: pv) m (Forall_cons _ Px Hpv) Ht H) as [a [w [b [E [L [W C]]]]]].
      exists (x :: a), w, b. simpl. rewrite <- app_assoc. simpl.
      repeat split; auto. now rewrite E.
Qed.

Lemma search_complete r :
  forall a pv w b,
    lang r (rev a ++ pv) w b -> search r pv (a ++ w ++ b) <> None.
Proof.
  induction a as [|x a IH]; intros pv w b L; simpl in *.
  - destruct (w ++ b) as [|y t] eqn:E; simpl;
      destruct (match_at r pv _) eqn:M; try discriminate;
      exfalso; rewrite <- E in M; revert M; now apply match_at_complete.
  - destruct (match_at r pv (x :: a ++ w ++ b)); [discriminate|].
    apply IH. rewrite <- app_assoc in L. exact L.
Qed.

(** ** Global replacement *)

Lemma replace_go_Forall (P : char -> Prop) r repl :
  Forall P repl ->
  forall rs skip pv, Forall P rs -> Forall P (replace_go r repl skip pv rs).
Proof.
  intros Hr. induction rs as [|x t IH]; intros skip pv Hrs; simpl.
  - destruct skip; [|constructor]. destruct (match_at r pv []); [exact Hr | constructor].
  - inversion Hrs as [|? ? Px Ht]; subst.
    destruct skip as [|n]; [|now apply IH].
    destruct (match_at r pv (x :: t)) as [e|].
    + destruct (length (passed e) - length pv).
      * apply Forall_app. split; [exact Hr|]. constructor; [exact Px | now apply IH].
      * apply Forall_app. split; [exact Hr | now apply IH].
    + constructor; [exact Px | now apply IH].
Qed.

Lemma replace_Forall (P : char -> Prop) r repl s :
  Forall P repl -> Forall P s -> Forall P (replace r repl s).
Proof. intros Hr Hs. unfold replace. now apply replace_go_Forall. Qed.

(** ** Lines *)

Lemma notNl_u (s : string) :
  forallb (fun c => negb (c =? nl)%N) (u s) = true -> Forall notNl (u s).
Proof.
  intros H. apply Forall_forall. intros c Hc.
  rewrite forallb_forall in H. specialize (H c Hc).
  intros ->. unfold nl in H. discriminate.
Qed.

Ltac lit_notNl := apply notNl_u; reflexivity.

Lemma split_nl_notNl s : Forall (Forall notNl) (split_nl s).
Proof.
  induction s as [|x t IH]; simpl.
  - repeat constructor.
  - destruct (N.eqb_spec x nl) as [E|E].
    + constructor; [constructor | exact IH].
    + destruct (split_nl t) as [|l ls]; [repeat constructor; exact E|].
      inversion IH; subst. constructor; [constructor; assumption | assumption].
Qed.

Lemma split_nl_not_nil s : split_nl s <> [].
Proof.
  destruct s as [|x t]; simpl; [discriminate|].
  destruct (x =? nl)%N; [discriminate|]. destruct (split_nl t); discriminate.
Qed.

Lemma split_nl_line l : Forall notNl l -> split_nl l = [l].
Proof.
  induction 1 as [|x t Hx Ht IH]; simpl; [reflexivity|].
  destruct (N.eqb_spec x nl) as [E|E]; [contradiction|]. now rewrite IH.
Qed.

Lemma split_nl_app l rest :
  Forall notNl l -> split_nl (l ++ nl :: rest) = l :: split_nl rest.
Proof.
  induction 1 as [|x t Hx Ht IH]; simpl; [reflexivity|].
  destruct (N.eqb_spec x nl) as [E|E]; [contradiction|]. now rewrite IH.
Qed.

Lemma split_join ls :
  ls <> [] -> Forall (Forall notNl) ls -> split_nl (join_nl ls) = ls.
Proof.
  induction ls as [|l rest IH]; intros Hne H; [congruence|].
  inversion H as [|? ? Hl Hrest]; subst.
  destruct rest as [|l' rest'].
  - simpl. now apply split_nl_line.
  - change (join_nl (l :: l' :: rest')) with (l ++ nl :: join_nl (l' :: rest')).
    rewrite split_nl_app by exact Hl. f_equal. apply IH; [discriminate | exact Hrest].
Qed.

(** ** The translator, line by line *)

Lemma repeat_str_nonneg s n :
  (0 <= n)%Z -> repeat_str s n = Some (List.concat (repeat s (Z.to_nat n))).
Proof.
  intros H. unfold repeat_str. destruct (Z.ltb_spec n 0); [lia | reflexivity].
Qed.

Lemma toJavaScript_loop_emit pls :
  forall acc,
    Forall (fun pl => 0 <= indent pl)%Z pls ->
    toJavaScript_loop pls acc = Some (acc ++ map emit pls).
Proof.
  induction pls as [|pl rest IH]; intros acc H; simpl.
  - now rewrite app_nil_r.
  - inversion H as [|? ? Hpl Hrest]; subst.
    assert (Hq : (0 <= Z.quot (indent pl) 2)%Z) by (apply Z.quot_pos; lia).
    rewrite (repeat_str_nonneg _ Hq). unfold emit, emit_with. fold (indentation_of pl).
    destruct (type pl); rewrite IH by exact Hrest; now rewrite <- app_assoc.
Qed.

Lemma getIndent_nonneg line : (0 <= getIndent line)%Z.
Proof. unfold getIndent. destruct (exec re_indent line); lia. Qed.

Lemma parseLine_indent line : indent (parseLine line) = getIndent line.
Proof.
  unfold parseLine.
  destruct (isEmpty line); [reflexivity|].
  destruct (isFunction _); [reflexivity|].
  destruct (isConditional _); [reflexivity|].
  destruct (includes _ _); reflexivity.
Qed.

Lemma parse_indent code : Forall (fun pl => 0 <= indent pl)%Z (parse code).
Proof.
  unfold parse. apply Forall_forall. intros pl Hin.
  apply in_map_iff in Hin as [line [<- _]]. rewrite parseLine_indent.
  apply getIndent_nonneg.
Qed.


(** The pipeline is line by line: the output is the join of what each
    classified line emits. *)
Lemma translate_emit code :
  translate code = Some (join_nl (map emit (parse code))).
Proof.
  unfold translate, toJavaScript.
  now rewrite (toJavaScript_loop_emit [] (parse_indent code)).
Qed.

(** ** No emitted line holds a line separator *)

Lemma group_ok (P : char -> Prop) i cs w :
  caps_ok P cs -> group i cs = Some w -> Forall P w.
Proof.
  induction 1 as [|[j v] cs Hv Hcs IH]; simpl; [discriminate|].
  destruct (Nat.eqb i j); [|exact IH]. intros H. injection H as <-. exact Hv.
Qed.

Lemma show_group_notNl i r line m :
  Forall notNl line -> exec r line = Some m -> Forall notNl (show_group i m).
Proof.
  intros Hl H. unfold exec in H.
  destruct (search_sound r (Forall_nil _) Hl H) as [a [w [b [_ [_ [_ C]]]]]].
  unfold show_group. destruct (group i (m_caps m)) eqn:G.
  - eapply group_ok; eauto.
  - lit_notNl.
Qed.

Lemma indentation_notNl pl : Forall notNl (indentation_of pl).
Proof.
  unfold indentation_of. induction (Z.to_nat _) as [|n IH]; simpl; [constructor|].
  repeat constructor; try (intros H; discriminate). exact IH.
Qed.

Ltac notNl_app :=
  repeat (apply Forall_app; split); try assumption; try lit_notNl.

Lemma convertFunction_notNl line ind :
  Forall notNl line -> Forall notNl ind -> Forall notNl (convertFunction line ind).
Proof.
  intros Hl Hi. unfold convertFunction.
  destruct (exec re_function line) as [m|] eqn:E; notNl_app;
    (eapply show_group_notNl; [exact Hl | exact E]).
Qed.

Lemma convertLoop_notNl line ind :
  Forall notNl line -> Forall notNl ind -> Forall notNl (convertLoop line ind).
Proof.
  intros Hl Hi. unfold convertLoop, extractLoop.
  destruct (exec re_loop line) as [m|] eqn:E; cbn [variable collection]; notNl_app.
  eapply show_group_notNl; [exact Hl | exact E].
Qed.

Lemma convertConditional_notNl line ind :
  Forall notNl line -> Forall notNl ind -> Forall notNl (convertConditional line ind).
Proof.
  intros Hl Hi. unfold convertConditional.
  destruct (str_eqb line (u "else:")); [notNl_app|].
  destruct (exec re_if line) as [m|] eqn:E; notNl_app.
  eapply show_group_notNl; [exact Hl | exact E].
Qed.

Ltac replace_notNl :=
  repeat (apply replace_Forall; [lit_notNl|]); try assumption.

Lemma convertVariable_notNl line ind :
  Forall notNl line -> Forall notNl ind -> Forall notNl (convertVariable line ind).
Proof.
  intros Hl Hi. unfold convertVariable. notNl_app. replace_notNl.
Qed.

Lemma convertExpression_notNl line ind :
  Forall notNl line -> Forall notNl ind -> Forall notNl (convertExpression line ind).
Proof.
  intros Hl Hi. unfold convertExpression.
  destruct (str_eqb (trim line) (u "}")); notNl_app. replace_notNl.
Qed.

Lemma removeComment_Forall (P : char -> Prop) line :
  Forall P line -> Forall P (removeComment line).
Proof.
  intros H. unfold removeComment.
  destruct (negb _); [now apply Forall_firstn | exact H].
Qed.

Lemma parseLine_cleaned_notNl line :
  Forall notNl line -> Forall notNl (cleaned (parseLine line)).
Proof.
  intros H. pose proof (Forall_trim (removeComment_Forall H)) as Hc.
  unfold parseLine.
  destruct (isEmpty line); [constructor|].
  destruct (isFunction _); [exact Hc|].
  destruct (isConditional _); [exact Hc|].
  destruct (includes _ _); exact Hc.
Qed.

Lemma emit_notNl pl : Forall notNl (cleaned pl) -> Forall notNl (emit pl).
Proof.
  intros H. pose proof (indentation_notNl pl) as Hi. unfold emit, emit_with.
  destruct (type pl); try constructor.
  - now apply convertVariable_notNl.
  - now apply convertFunction_notNl.
  - now apply convertLoop_notNl.
  - now apply convertConditional_notNl.
  - now apply convertExpression_notNl.
Qed.

Lemma map_emit_notNl pls :
  Forall (fun pl => Forall notNl (cleaned pl)) pls ->
  Forall (Forall notNl) (map emit pls).
Proof.
  induction 1 as [|pl rest Hpl Hrest IH]; simpl; constructor;
    [now apply emit_notNl | exact IH].
Qed.

Lemma parse_cleaned_notNl code :
  Forall (fun pl => Forall notNl (cleaned pl)) (parse code).
Proof.
  unfold parse. apply Forall_forall. intros pl Hin.
  apply in_map_iff in Hin as [line [<- Hl]].
  apply parseLine_cleaned_notNl.
  pose proof (split_nl_notNl code) as H. rewrite Forall_forall in H. now apply H.
Qed.

(** The output lines of a program are what its lines emit, in order. *)
Lemma translate_lines code :
  exists out,
    translate code = Some out
    /\ split_nl out = map emit (map parseLine (split_nl code)).
Proof.
  exists (join_nl (map emit (parse code))). split; [apply translate_emit|].
  apply split_join.
  - unfold parse. intros E. apply map_eq_nil, map_eq_nil in E.
    revert E. apply split_nl_not_nil.
  - apply map_emit_notNl, parse_cleaned_notNl.
Qed.

Lemma translate_nth code i line :
  nth_error (split_nl code) i = Some line ->
  exists out,
    translate code = Some out
    /\ nth_error (split_nl out) i = Some (emit (parseLine line)).
Proof.
  intros H. destruct (translate_lines code) as [out [E S]].
  exists out. split; [exact E|]. rewrite S.
  now rewrite !nth_error_map, H.
Qed.

(** C4. For every input string, the translation succeeds and its output,
    split into physical lines, has exactly as many lines as the input split
    into physical lines has: one output line per classified line, blank input
    lines included. *)
Theorem line_count_preserved (code : str) :
  exists out,
    translate code = Some out
    /\ length (parse code) = length (split_nl code)
    /\ length (split_nl out) = length (split_nl code).
Proof.
  destruct (translate_lines code) as [out [E S]].
  exists out. split; [exact E|]. split.
  - unfold parse. apply length_map.
  - now rewrite S, !length_map.
Qed.

(** ** The function-header pattern *)

Lemma lang_lit K : K <> [] -> forall pv w rs, lang (lit K) pv w rs <-> w = K.
Proof.
  induction K as [|c K IH]; intros Hne pv w rs; [congruence|].
  destruct K as [|d K'].
  - simpl. tauto.
  - change (lit (c :: d :: K')) with (RSeq (RChar c) (lit (d :: K'))).
    cbn [lang]. split.
    + intros [w1 [w2 [-> [-> L2]]]]. apply IH in L2; [|discriminate]. now subst.
    + intros ->. exists [c], (d :: K'). repeat split. apply IH; [discriminate | reflexivity].
Qed.

Lemma lang_plus g p pv w rs : lang (RPlus g p) pv w rs <-> w <> [] /\ all p w.
Proof.
  unfold RPlus. cbn [lang]. split.
  - intros [w1 [w2 [-> [[x [-> Px]] A]]]]. split; [discriminate | now constructor].
  - intros [Hne A]. destruct w as [|x t]; [congruence|].
    inversion A; subst. exists [x], t. repeat split; eauto.
Qed.

Lemma lang_function pv w rs :
  lang re_function pv w rs <->
  exists kw ws name params,
    w = kw ++ ws ++ name ++ u "(" ++ params ++ u "):"
    /\ (kw = u "plot" \/ kw = u "plan")
    /\ ws <> [] /\ all isSpace ws
    /\ name <> [] /\ all isWord name
    /\ all isDot params.
Proof.
  unfold re_function. cbn [lang]. split.
  - intros [kw [w1 [-> [Hkw H]]]].
    destruct H as [ws [w2 [-> [Hws H]]]].
    destruct H as [name [w3 [-> [Hname H]]]].
    destruct H as [o [w4 [-> [-> H]]]].
    destruct H as [params [w5 [-> [Hp H]]]].
    destruct H as [c [w6 [-> [-> ->]]]].
    apply lang_plus in Hws as [Hws1 Hws2]. apply lang_plus in Hname as [Hn1 Hn2].
    exists kw, ws, name, params. repeat split; auto.
    destruct Hkw as [H|H]; apply lang_lit in H; try discriminate; auto.
  - intros [kw [ws [name [params [-> [Hkw [Hws1 [Hws2 [Hn1 [Hn2 Hp]]]]]]]]]].
    exists kw, (ws ++ name ++ u "(" ++ params ++ u "):"). split; [reflexivity|]. split.
    { destruct Hkw as [->| ->]; [left | right]; apply lang_lit; try discriminate;
        reflexivity. }
    exists ws, (name ++ u "(" ++ params ++ u "):"). split; [reflexivity|]. split.
    { apply lang_plus. auto. }
    exists name, (u "(" ++ params ++ u "):"). split; [reflexivity|]. split.
    { apply lang_plus. auto. }
    exists (u "("), (params ++ u "):"). split; [reflexivity|]. split; [reflexivity|].
    exists params, (u "):"). split; [reflexivity|]. split; [exact Hp|].
    exists (u ")"), (u ":"). repeat split.
Qed.

(** The matcher finds a function header exactly when the line holds one. *)
Lemma function_header_exec line :
  function_header line <-> exec re_function line <> None.
Proof.
  split.
  - intros [a [kw [ws [name [params [b [-> H]]]]]]].
    unfold exec.
    replace (a ++ kw ++ ws ++ name ++ u "(" ++ params ++ u "):" ++ b)
      with (a ++ (kw ++ ws ++ name ++ u "(" ++ params ++ u "):") ++ b)
      by (now rewrite <- !app_assoc).
    apply search_complete. apply lang_function. exists kw, ws, name, params.
    split; [reflexivity | exact H].
  - intros H. unfold exec in H.
    destruct (search re_function [] line) as [m|] eqn:S; [|congruence].
    assert (HT : Forall (fun _ : char => True) line) by (apply Forall_forall; auto).
    destruct (search_sound re_function (Forall_nil _) HT S) as [a [w [b [E [L _]]]]].
    apply lang_function in L as [kw [ws [name [params [-> R]]]]].
    exists a, kw, ws, name, params, b. split; [|exact R].
    rewrite E. now rewrite <- !app_assoc.
Qed.

Lemma not_function_header line :
  exec re_function line = None -> ~ function_header line.
Proof. intros H F. apply function_header_exec in F. contradiction. Qed.

(** ** The classifier *)

Lemma parseLine_order line :
  type (parseLine line) =
    if isEmpty line then Tempty
    else if isFunction (trim (removeComment line)) then Tfunction
    else if isConditional (trim (removeComment line)) then Tconditional
    else if includes (ch "=") (trim (removeComment line)) then Tvariable
    else Texpression.
Proof.
  unfold parseLine.
  destruct (isEmpty line); [reflexivity|].
  destruct (isFunction _); [reflexivity|].
  destruct (isConditional _); [reflexivity|].
  destruct (includes _ _); reflexivity.
Qed.

Lemma parseLine_cleaned line :
  cleaned (parseLine line) = if isEmpty line then [] else trim (removeComment line).
Proof.
  unfold parseLine.
  destruct (isEmpty line); [reflexivity|].
  destruct (isFunction _); [reflexivity|].
  destruct (isConditional _); [reflexivity|].
  destruct (includes _ _); reflexivity.
Qed.

Lemma isSpace_not_slash x : isSpace x = true -> (ch "/" =? x)%N = false.
Proof.
  intros H. destruct (N.eqb_spec (ch "/") x) as [<-|]; [discriminate | reflexivity].
Qed.

Lemma indexOf_from_spaces pre rest :
  all isSpace pre ->
  forall i, indexOf_from (u "//") (pre ++ u "//" ++ rest) i = (i + Z.of_nat (length pre))%Z.
Proof.
  induction 1 as [|x t Hx Ht IH]; intros i.
  - simpl. lia.
  - cbn [app indexOf_from]. change (u "//") with [ch "/"; ch "/"].
    cbn [startsWith]. rewrite (isSpace_not_slash _ Hx). cbn [andb].
    change [ch "/"; ch "/"] with (u "//"). rewrite IH. simpl length. lia.
Qed.

(** An empty or comment-only line has nothing left once its comment is cut. *)
Lemma isEmpty_cleaned line : isEmpty line = true -> trim (removeComment line) = [].
Proof.
  unfold isEmpty. intros H. apply orb_prop in H as [H|H].
  - apply str_eqb_eq, trim_nil_all_space in H.
    apply trim_all_space. now apply removeComment_Forall.
  - apply startsWith_app in H as [t Ht].
    destruct (trimStart_split line) as [pre [E A]].
    destruct (trimEnd_split (trimStart line)) as [suf [E' _]].
    fold (trim line) in E'. rewrite Ht in E'. rewrite E' in E.
    rewrite <- !app_assoc in E.
    assert (Hidx : indexOf (u "//") line = Z.of_nat (length pre)).
    { unfold indexOf. rewrite E. now rewrite (indexOf_from_spaces _ A). }
    unfold removeComment. cbv zeta. rewrite Hidx.
    destruct (Z.eqb_spec (Z.of_nat (length pre)) (-1)) as [F|_]; [lia|].
    cbn [negb]. unfold substring0. rewrite Nat2Z.id. rewrite E.
    rewrite firstn_app, Nat.sub_diag, firstn_all. simpl. rewrite app_nil_r.
    now apply trim_all_space.
Qed.

(** C10. The classifier assigns every line one of the categories empty,
    function, conditional, variable or expression and never the category
    loop; no classified line of any program has it, and the output of the
    pipeline does not depend on what the translator's loop branch does. *)
Theorem loop_never_assigned (line code : str) :
  In (type (parseLine line)) [Tempty; Tfunction; Tconditional; Tvariable; Texpression]
  /\ type (parseLine line) <> Tloop
  /\ Forall (fun pl => type pl <> Tloop) (parse code)
  /\ forall loopConverter,
       translate code = Some (join_nl (map (emit_with loopConverter) (parse code))).
Proof.
  assert (H : forall l, In (type (parseLine l))
                          [Tempty; Tfunction; Tconditional; Tvariable; Texpression]).
  { intros l. rewrite parseLine_order.
    destruct (isEmpty l); [simpl; auto 10|].
    destruct (isFunction _); [simpl; auto 10|].
    destruct (isConditional _); [simpl; auto 10|].
    destruct (includes _ _); simpl; auto 10. }
  assert (H' : forall l, type (parseLine l) <> Tloop).
  { intros l E. specialize (H l). rewrite E in H. simpl in H.
    repeat (destruct H as [H|H]; [discriminate|]). exact H. }
  repeat split; auto.
  - unfold parse. apply Forall_forall. intros pl Hin.
    apply in_map_iff in Hin as [l [<- _]]. apply H'.
  - intros loopConverter. rewrite translate_emit. do 2 f_equal.
    unfold parse. rewrite !map_map. apply map_ext. intros l.
    unfold emit, emit_with.
    destruct (type (parseLine l)) eqn:E; try reflexivity.
    exfalso. exact (H' l E).
Qed.

(** C7. A line made only of white space, or whose trimmed content starts with
    the comment marker, is classified as empty, and the translation of any
    program holding it has a blank line at the same position. *)
Theorem blank_line_translation (code : str) (i : nat) (line : str)
  (Hline : nth_error (split_nl code) i = Some line)
  (Hblank : all isSpace line \/ startsWith (u "//") (trim line) = true) :
  type (parseLine line) = Tempty
  /\ exists out, translate code = Some out /\ nth_error (split_nl out) i = Some [].
Proof.
  assert (He : isEmpty line = true).
  { unfold isEmpty. destruct Hblank as [H|H].
    - now rewrite (trim_all_space H).
    - rewrite H. apply orb_true_r. }
  assert (Hty : type (parseLine line) = Tempty).
  { rewrite parseLine_order. now rewrite He. }
  split; [exact Hty|].
  destruct (translate_nth code i Hline) as [out [E N]].
  exists out. split; [exact E|]. rewrite N. unfold emit, emit_with. now rewrite Hty.
Qed.

Lemma blank_line_translation_witness :
  type (parseLine (u "   // note")) = Tempty
  /\ exists out,
      translate (u "x = 1" ++ nl :: u "   // note") = Some out
      /\ nth_error (split_nl out) 1 = Some [].
Proof.
  apply (@blank_line_translation (u "x = 1" ++ nl :: u "   // note") 1 (u "   // note")).
  - reflexivity.
  - right. reflexivity.
Defined.

(** C8. The checks run in the order empty, function, conditional, assignment,
    expression and the first that holds decides the category, for every
    line.  So a line whose cleaned text starts with the function keyword and
    a space and also holds the assignment character is classified as
    function, not as variable; in the same way a conditional that holds the
    assignment character is classified as conditional, and a line is
    classified as variable only when it is neither empty nor a function nor
    a conditional. *)
Theorem function_check_precedes_assignment (line : str) :
  type (parseLine line) =
    (if isEmpty line then Tempty
     else if isFunction (trim (removeComment line)) then Tfunction
     else if isConditional (trim (removeComment line)) then Tconditional
     else if includes (ch "=") (trim (removeComment line)) then Tvariable
     else Texpression)
  /\ (startsWith (u "plot ") (trim (removeComment line)) = true ->
      includes (ch "=") (trim (removeComment line)) = true ->
      type (parseLine line) = Tfunction)
  /\ (isConditional (trim (removeComment line)) = true ->
      includes (ch "=") (trim (removeComment line)) = true ->
      type (parseLine line) = Tconditional)
  /\ (type (parseLine line) = Tvariable <->
      isEmpty line = false
      /\ isFunction (trim (removeComment line)) = false
      /\ isConditional (trim (removeComment line)) = false
      /\ includes (ch "=") (trim (removeComment line)) = true).
Proof.
  split; [apply parseLine_order|]. rewrite parseLine_order.
  split; [|split].
  - intros Hplot _. destruct (isEmpty line) eqn:He.
    + rewrite (isEmpty_cleaned _ He) in Hplot. discriminate.
    + unfold isFunction. now rewrite trim_idem, Hplot.
  - intros Hcond _. destruct (isEmpty line) eqn:He.
    + rewrite (isEmpty_cleaned _ He) in Hcond. discriminate.
    + destruct (isFunction (trim (removeComment line))) eqn:Hf; [|now rewrite Hcond].
      exfalso. unfold isFunction, isConditional in *. rewrite trim_idem in *.
      apply startsWith_app in Hf as [t Ht]. rewrite Ht in Hcond.
      discriminate.
  - destruct (isEmpty line); [split; [discriminate | intros [H _]; discriminate]|].
    destruct (isFunction _); [split; [discriminate | intros [_ [H _]]; discriminate]|].
    destruct (isConditional _);
      [split; [discriminate | intros [_ [_ [H _]]]; discriminate]|].
    destruct (includes _ _); [tauto|].
    split; [discriminate | intros [_ [_ [_ H]]]; discriminate].
Qed.

Lemma function_check_precedes_assignment_witness :
  type (parseLine (u "  plot greet(name = 1):  // header")) = Tfunction
  /\ type (parseLine (u "if x == 1:")) = Tconditional.
Proof.
  split.
  - apply (proj1 (proj2 (@function_check_precedes_assignment
                           (u "  plot greet(name = 1):  // header"))));
      reflexivity.
  - apply (proj1 (proj2 (proj2 (@function_check_precedes_assignment
                                  (u "if x == 1:")))));
      reflexivity.
Defined.

(** ** Concrete programs and malformed headers *)

Lemma indentation_spaces pl :
  indentation_of pl = repeat (ch " ") (2 * Z.to_nat (Z.quot (indent pl) 2)).
Proof.
  unfold indentation_of. induction (Z.to_nat _) as [|n IH]; [reflexivity|].
  cbn [repeat List.concat]. rewrite IH.
  replace (2 * S n) with (S (S (2 * n))) by lia. reflexivity.
Qed.

Lemma translate_total program : exists js, translate program = Some js.
Proof. rewrite translate_emit. eauto. Qed.

(** C6. Translating a program never fails; and a line of the function
    category in which no header of the shape [<def-keyword> <name>(<params>):]
    occurs is translated, at its position, to the indentation followed by the
    comment flagging invalid function syntax. *)
Theorem malformed_function_degrades (code : str) (i : nat) (line : str)
  (Hline : nth_error (split_nl code) i = Some line)
  (Hty : type (parseLine line) = Tfunction)
  (Hbad : ~ function_header (cleaned (parseLine line))) :
  (forall program, exists js, translate program = Some js)
  /\ exists out,
      translate code = Some out
      /\ nth_error (split_nl out) i =
           Some (repeat (ch " ") (2 * Z.to_nat (Z.quot (getIndent line) 2))
                   ++ u "// ERROR: Invalid function syntax").
Proof.
  split; [exact translate_total|].
  destruct (translate_nth code i Hline) as [out [E N]].
  exists out. split; [exact E|]. rewrite N. unfold emit, emit_with. rewrite Hty.
  unfold convertFunction.
  destruct (exec re_function (cleaned (parseLine line))) eqn:X.
  - exfalso. apply Hbad. apply function_header_exec. congruence.
  - now rewrite indentation_spaces, parseLine_indent.
Qed.

Lemma malformed_function_degrades_witness :
  (forall program, exists js, translate program = Some js)
  /\ exists out,
      translate (u "plot broken(x)") = Some out
      /\ nth_error (split_nl out) 0 = Some (u "// ERROR: Invalid function syntax").
Proof.
  apply (@malformed_function_degrades (u "plot broken(x)") 0 (u "plot broken(x)")).
  - reflexivity.
  - reflexivity.
  - apply not_function_header. reflexivity.
Defined.

(** C1. On the single line [loop crew:] the classifier answers expression,
    not loop, so the pipeline emits the line with a semicolon appended; the
    loop converter, given the same line, would produce the for-of header. *)
Theorem loop_line_translation :
  type (parseLine (u "loop crew:")) = Texpression
  /\ translate (u "loop crew:") = Some (u "loop crew:;")
  /\ translate (u "loop crew:") <> Some (u "for (const item of crew) {")
  /\ convertLoop (u "loop crew:") [] = u "for (const item of crew) {".
Proof. repeat split; try reflexivity. discriminate. Qed.

(** C2, as stated, fails: the pipeline does not output [if (true) {] followed
    by the print call indented by two spaces. *)
Lemma conditional_scenario_counterexample :
  translate scenario_if_statement
  <> Some (u "if (true) {" ++ nl :: u "  console.log(" ++ dq :: u "Approved" ++ dq :: u ");").
Proof. vm_compute. discriminate. Qed.

(** C2, amended. The conditional header copies its condition as written, so
    the first output line is [if (truth) {]; the second line is indented by
    four spaces (indent 4 gives two two-space units); and a print written in
    call form is rewritten to [console.log]. *)
Theorem conditional_scenario :
  (exists body,
      translate scenario_if_statement
      = Some (u "if (truth) {" ++ nl :: u "    " ++ body)
      /\ headNot isSpace body /\ Forall notNl body)
  /\ translate scenario_if_call
     = Some (u "if (truth) {" ++ nl :: u "    console.log(" ++ dq :: u "Approved" ++ dq :: u ");").
Proof.
  split; [|reflexivity].
  eexists. split; [vm_compute; reflexivity|]. split; [reflexivity|].
  repeat constructor; intros H; discriminate.
Qed.

(** C3. The variable-binding pass rewrites [truth], [lie], [universe] and
    [alibi]; the expression pass leaves them as written, while both rewrite
    the type constructors and [truestory] / [falsestory]. *)
Theorem substitutions_differ_between_passes :
  translate (u "x = pick(truth, lie, universe, alibi)")
  = Some (u "const x = pick(true, false, null, null);")
  /\ translate (u "pick(truth, lie, universe, alibi)")
     = Some (u "pick(truth, lie, universe, alibi);")
  /\ translate (u "x = theory(truestory) + ghost(falsestory)")
     = Some (u "const x = Number(true) + String(false);")
  /\ translate (u "theory(truestory) + ghost(falsestory)")
     = Some (u "Number(true) + String(false);").
Proof. repeat split; reflexivity. Qed.

(** ** Keyword rules: what the matcher computes *)

Lemma convertVariable_rules line ind :
  convertVariable line ind = ind ++ u "const " ++ apply_rules rules_variable line ++ u ";".
Proof. reflexivity. Qed.

Lemma convertExpression_rules line ind :
  convertExpression line ind =
    if str_eqb (trim line) (u "}") then ind ++ u "}"
    else ind ++ apply_rules rules_expression line ++ u ";".
Proof. reflexivity. Qed.

Lemma star_greedy_id p cs :
  forall rs pv0,
    star true p (fun s => Some s) pv0 rs cs
    = Some (MState (rev (takeWhile p rs) ++ pv0) (dropWhile p rs) cs).
Proof.
  induction rs as [|x t IH]; intros pv0; simpl; [reflexivity|].
  destruct (p x); [|reflexivity]. rewrite IH. simpl. now rewrite <- app_assoc.
Qed.

Lemma rmatch_lit (A : Type) K (k : mstate -> option A) :
  K <> [] ->
  forall pv rs cs,
    rmatch (lit K) k (MState pv rs cs)
    = if startsWith K rs
      then k (MState (rev K ++ pv) (skipn (length K) rs) cs)
      else None.
Proof.
  induction K as [|c K IH]; intros Hne pv rs cs; [congruence|].
  destruct K as [|d K'].
  - simpl. destruct rs as [|x t]; [reflexivity|].
    rewrite (N.eqb_sym c x). destruct (N.eqb_spec x c) as [->|]; reflexivity.
  - change (lit (c :: d :: K')) with (RSeq (RChar c) (lit (d :: K'))).
    cbn [rmatch ahead passed caps]. destruct rs as [|x t]; [reflexivity|].
    change (startsWith (c :: d :: K') (x :: t))
      with ((c =? x)%N && startsWith (d :: K') t).
    rewrite (N.eqb_sym c x).
    destruct (N.eqb_spec x c) as [->|]; [|reflexivity].
    rewrite IH by discriminate. cbn [andb].
    destruct (startsWith (d :: K') t); [|reflexivity].
    cbn [length skipn]. f_equal. f_equal. cbn [rev]. now rewrite <- !app_assoc.
Qed.

Lemma mlen_rule p pv rs :
  kw p <> [] -> mlen (rule_regex p) pv rs = kw_len p pv rs.
Proof.
  intros Hkw. unfold mlen, match_at, kw_len, rule_regex.
  cbn [rmatch passed ahead caps].
  destruct (boundary pv rs); [|reflexivity]. cbn [andb].
  rewrite rmatch_lit by exact Hkw.
  destruct (startsWith (kw p) rs); [|reflexivity].
  set (pv' := rev (kw p) ++ pv). set (rs' := skipn (length (kw p)) rs).
  assert (Hlen : forall n, n + length pv' - length pv = length (kw p) + n).
  { intros n. unfold pv'. rewrite length_app, length_rev. lia. }
  destruct (tl p) as [c| |]; cbn [tail_regex tail_len].
  - cbn [rmatch passed ahead caps]. destruct rs' as [|x t]; [reflexivity|].
    destruct (x =? c)%N; [|reflexivity]. cbn [passed length].
    f_equal. apply (Hlen 1).
  - cbn [rmatch passed ahead caps]. destruct (boundary pv' rs'); [|reflexivity].
    cbn [passed]. f_equal. apply (Hlen 0).
  - unfold RPlus. cbn [rmatch passed ahead caps].
    destruct rs' as [|x t]; [reflexivity|]. cbn [takeWhile].
    destruct (isSpace x); [|reflexivity].
    rewrite star_greedy_id. cbn [passed length]. f_equal.
    rewrite length_app, length_rev. cbn [length].
    specialize (Hlen (S (length (takeWhile isSpace t)))). lia.
Qed.

Lemma isWord_not_space x : isWord x = true -> isSpace x = false.
Proof.
  intros H. destruct (isSpace x) eqn:S; [|reflexivity]. exfalso.
  unfold isWord, isSpace in *.
  rewrite ?orb_true_iff, ?andb_true_iff, ?N.leb_le, ?N.eqb_eq in *. lia.
Qed.

Lemma isWordAt_app_l a b : a <> [] -> isWordAt (a ++ b) = isWordAt a.
Proof. destruct a; [congruence | reflexivity]. Qed.

Lemma lastNot_cons x s : s <> [] -> lastNot s -> lastNot (x :: s).
Proof.
  unfold lastNot. intros Hne H. simpl.
  destruct (rev s) as [|y r] eqn:E; [|exact H].
  apply (f_equal (@rev char)) in E. rewrite rev_involutive in E. contradiction.
Qed.

Lemma lastNot_tail x s : lastNot (x :: s) -> lastNot s.
Proof.
  unfold lastNot. simpl. destruct (rev s) as [|y r]; simpl; [exact (fun _ => I) | auto].
Qed.

Lemma lastNot_app a b : b <> [] -> lastNot b -> lastNot (a ++ b).
Proof.
  intros Hne H. induction a as [|x a IH]; [exact H|].
  simpl. apply lastNot_cons; [|exact IH]. destruct a; [exact Hne | discriminate].
Qed.

Lemma lastNot_word_end a K : K <> [] -> all isWord K -> lastNot (a ++ K) -> False.
Proof.
  intros Hne Hword H. unfold lastNot in H. rewrite rev_app_distr in H.
  destruct (rev K) as [|y r] eqn:E.
  - apply (f_equal (@rev char)) in E. rewrite rev_involutive in E. contradiction.
  - simpl in H. apply all_rev in Hword. rewrite E in Hword. inversion Hword; congruence.
Qed.

Lemma takeWhile_app_stop p l rest :
  headNot p rest -> takeWhile p (l ++ rest) = takeWhile p l.
Proof.
  intros H. induction l as [|x l IH]; simpl.
  - destruct rest as [|y r]; [reflexivity|]. simpl in *. now rewrite H.
  - destruct (p x); [now rewrite IH | reflexivity].
Qed.

Lemma takeWhile_length p l : length (takeWhile p l) <= length l.
Proof.
  induction l as [|x l IH]; simpl; [lia|]. destruct (p x); simpl; lia.
Qed.

Lemma startsWith_skipn K t : startsWith K (K ++ t) = true /\ skipn (length K) (K ++ t) = t.
Proof.
  split.
  - apply startsWith_app. eauto.
  - induction K; simpl; auto.
Qed.

(** ** Keyword rules: where a match can sit *)

Section KeywordRule.
Variable p : rule.
Hypothesis Hgood : good_rule p.

Lemma rule_kw_nonempty : kw p <> [].
Proof. apply Hgood. Qed.
Lemma rule_kw_word : all isWord (kw p).
Proof. apply Hgood. Qed.
Lemma rule_repl_nonempty : repl p <> [].
Proof. apply Hgood. Qed.
Lemma rule_tail_good : good_tail (tl p) (repl p).
Proof. apply Hgood. Qed.

Lemma rev_kw_word pv : isWordAt (rev (kw p) ++ pv) = true.
Proof.
  pose proof rule_kw_nonempty as HK0. pose proof rule_kw_word as HKw0.
  destruct (rev (kw p)) as [|y r] eqn:E.
  - apply (f_equal (@rev char)) in E. rewrite rev_involutive in E. contradiction.
  - simpl. pose proof (all_rev rule_kw_word) as H. rewrite E in H. now inversion H.
Qed.

Lemma kw_len_ctx pv pv' rs :
  isWordAt pv = isWordAt pv' -> kw_len p pv rs = kw_len p pv' rs.
Proof.
  pose proof rule_kw_nonempty as HK0. pose proof rule_kw_word as HKw0.
  intros H. unfold kw_len, boundary. rewrite H.
  destruct (negb _ && _); [|reflexivity].
  destruct (tl p); cbn [tail_len]; try reflexivity.
  unfold boundary. now rewrite !rev_kw_word.
Qed.

Lemma startsWith_kw_nonword rs : headNot isWord rs -> startsWith (kw p) rs = false.
Proof.
  pose proof rule_kw_nonempty as HK0. pose proof rule_kw_word as HKw0.
  intros H. destruct (kw p) as [|c K'] eqn:E; [contradiction|].
  destruct rs as [|y t]; [reflexivity|]. simpl in *.
  pose proof rule_kw_word as HW. rewrite E in HW. inversion HW as [|? ? Hc _]; subst.
  destruct (N.eqb_spec c y) as [->|]; [congruence | reflexivity].
Qed.

Lemma kw_len_nonword pv rs : headNot isWord rs -> kw_len p pv rs = None.
Proof.
  pose proof rule_kw_nonempty as HK0. pose proof rule_kw_word as HKw0.
  intros H. unfold kw_len. rewrite (startsWith_kw_nonword _ H).
  now rewrite andb_false_r.
Qed.

Lemma kw_len_inword pv rs :
  isWordAt pv = true -> isWordAt rs = true -> kw_len p pv rs = None.
Proof. intros H1 H2. unfold kw_len, boundary. now rewrite H1, H2. Qed.

Lemma kw_len_pos pv rs n : kw_len p pv rs = Some n -> 1 <= n.
Proof.
  pose proof rule_kw_nonempty as HK0. pose proof rule_kw_word as HKw0.
  unfold kw_len. destruct (_ && _); [|discriminate].
  destruct (tail_len _ _ _); [|discriminate]. intros H. injection H as <-.
  destruct (kw p); [contradiction | simpl; lia].
Qed.

(** The tail of the pattern fails in front of a word character. *)
Lemma tail_len_word pv y t :
  isWord y = true -> tail_len (tl p) (rev (kw p) ++ pv) (y :: t) = None.
Proof.
  pose proof rule_kw_nonempty as HK0. pose proof rule_kw_word as HKw0.
  intros Hy. pose proof rule_tail_good as HT.
  destruct (tl p) as [c| |]; cbn [tail_len good_tail] in *.
  - destruct HT as [Hc _]. destruct (N.eqb_spec y c) as [->|]; [congruence | reflexivity].
  - unfold boundary. rewrite rev_kw_word. simpl. now rewrite Hy.
  - simpl. now rewrite (isWord_not_space _ Hy).
Qed.

(** No match starts at a maximal word that is not the keyword. *)
Lemma kw_len_word_start pv w b :
  all isWord w -> headNot isWord b -> w <> kw p -> kw_len p pv (w ++ b) = None.
Proof.
  pose proof rule_kw_nonempty as HK0. pose proof rule_kw_word as HKw0.
  intros Hw Hb Hne. unfold kw_len.
  destruct (boundary pv (w ++ b)); [|reflexivity]. cbn [andb].
  destruct (startsWith (kw p) (w ++ b)) eqn:S; [|reflexivity].
  apply startsWith_app in S as [r E].
  apply app_eq_app in E as [l [[E1 E2]|[E1 E2]]].
  - destruct l as [|y l'].
    + rewrite app_nil_r in E1. contradiction.
    + subst w. rewrite <- app_assoc.
      rewrite (proj2 (startsWith_skipn (kw p) _)).
      apply Forall_app in Hw as [_ Hl]. inversion Hl as [|? ? Hy _]; subst.
      cbn [app]. now rewrite tail_len_word.
  - destruct l as [|y l'].
    + rewrite app_nil_r in E1. symmetry in E1. contradiction.
    + exfalso. subst b. simpl in Hb.
      pose proof rule_kw_word as HW. rewrite E1 in HW.
      apply Forall_app in HW as [_ Hl]. inversion Hl; congruence.
Qed.

(** In front of a word, a match is decided by the text before the word and
    ends inside it; one that ends exactly there has a replacement that does
    not end with a word character. *)
Lemma kw_len_prefix pv a rest :
  a <> [] -> lastNot a -> isWordAt rest = true ->
  kw_len p pv (a ++ rest) = kw_len p pv a
  /\ forall n, kw_len p pv a = Some n ->
               n <= length a /\ (n = length a -> lastNot (repl p)).
Proof.
  pose proof rule_kw_nonempty as HK0. pose proof rule_kw_word as HKw0.
  intros Ha Hlast Hrest.
  assert (Hhr : headNot isSpace rest).
  { destruct rest as [|y r]; [exact I|]. simpl in *. now apply isWord_not_space. }
  unfold kw_len. unfold boundary. rewrite (isWordAt_app_l _ Ha).
  destruct (negb (Bool.eqb (isWordAt pv) (isWordAt a))); cbn [andb];
    [|split; [reflexivity | discriminate]].
  destruct (startsWith (kw p) a) eqn:Sa.
  - apply startsWith_app in Sa as [l El]. subst a.
    rewrite <- app_assoc.
    rewrite (proj1 (startsWith_skipn (kw p) _)).
    rewrite !(proj2 (startsWith_skipn (kw p) _)).
    destruct l as [|y l'].
    { exfalso. rewrite app_nil_r in Hlast.
      apply (@lastNot_word_end [] (kw p)); auto. }
    rewrite length_app. pose proof rule_tail_good as HT.
    destruct (tl p) as [c| |]; cbn [tail_len good_tail app] in *.
    + split; [reflexivity|]. destruct (y =? c)%N; [|discriminate].
      intros n H. injection H as <-. cbn [length]. split; [lia|]. tauto.
    + split; [reflexivity|]. destruct (boundary _ _); [|discriminate].
      intros n H. injection H as <-. cbn [length]. split; lia.
    + change (y :: l' ++ rest) with ((y :: l') ++ rest).
      rewrite (@takeWhile_app_stop isSpace (y :: l') rest Hhr). split; [reflexivity|].
      pose proof (takeWhile_length isSpace (y :: l')) as Hle.
      destruct (takeWhile isSpace (y :: l')); [discriminate|].
      intros n H. injection H as <-. cbn [length] in *. split; [lia | auto].
  - destruct (startsWith (kw p) (a ++ rest)) eqn:S; [|split; [reflexivity | discriminate]].
    exfalso. apply startsWith_app in S as [r E].
    apply app_eq_app in E as [l [[E1 E2]|[E1 E2]]].
    + assert (startsWith (kw p) a = true) by (apply startsWith_app; eauto). congruence.
    + pose proof rule_kw_word as HW. rewrite E1 in HW. apply Forall_app in HW as [HWa _].
      apply (@lastNot_word_end [] a); auto.
Qed.
End KeywordRule.

(** ** Keyword rules: the replacement pass around a word *)

Lemma mlen_none r pv rs : mlen r pv rs = None -> match_at r pv rs = None.
Proof. unfold mlen. destruct (match_at r pv rs); [discriminate | reflexivity]. Qed.

Section RulePass.
Variable p : rule.
Hypothesis Hgood : good_rule p.

Local Abbreviation rgo := (rule_go p).

Lemma rgo_nil skip pv : rgo skip pv [] = [].
Proof.
  unfold rule_go. simpl. destruct skip; [|reflexivity].
  rewrite mlen_none; [reflexivity|].
  rewrite mlen_rule by apply (rule_kw_nonempty Hgood).
  apply kw_len_nonword; [exact Hgood | exact I].
Qed.

Lemma rgo_cons pv x t :
  rgo 0 pv (x :: t) =
    match kw_len p pv (x :: t) with
    | Some 0 => repl p ++ x :: rgo 0 (x :: pv) t
    | Some (S m) => repl p ++ rgo m (x :: pv) t
    | None => x :: rgo 0 (x :: pv) t
    end.
Proof.
  rewrite <- mlen_rule by apply (rule_kw_nonempty Hgood). unfold rule_go, mlen. simpl.
  destruct (match_at (rule_regex p) pv (x :: t)); reflexivity.
Qed.

Lemma rgo_skip n pv x t : rgo (S n) pv (x :: t) = rgo n (x :: pv) t.
Proof. reflexivity. Qed.

Lemma rgo_ctx rs :
  forall skip pv pv', isWordAt pv = isWordAt pv' -> rgo skip pv rs = rgo skip pv' rs.
Proof.
  induction rs as [|x t IH]; intros skip pv pv' H; [now rewrite !rgo_nil|].
  destruct skip as [|n]; [|rewrite !rgo_skip; now apply IH].
  rewrite !rgo_cons, (kw_len_ctx Hgood _ _ _ H).
  destruct (kw_len p pv' (x :: t)) as [[|m]|];
    (rewrite (IH _ (x :: pv) (x :: pv')); reflexivity).
Qed.

Lemma rgo_nonword_start pv pv' rs :
  headNot isWord rs -> rgo 0 pv rs = rgo 0 pv' rs.
Proof.
  intros H. destruct rs as [|x t]; [now rewrite !rgo_nil|].
  rewrite !rgo_cons, !(kw_len_nonword Hgood _ _ H).
  f_equal. now apply rgo_ctx.
Qed.

Lemma rgo_inword b w :
  forall pv, all isWord w -> isWordAt pv = true ->
             rgo 0 pv (w ++ b) = w ++ rgo 0 (rev w ++ pv) b.
Proof.
  induction w as [|x t IH]; intros pv Hw Hpv; [reflexivity|].
  inversion Hw as [|? ? Hx Ht]; subst.
  cbn [app]. rewrite rgo_cons, kw_len_inword; auto.
  rewrite IH; auto. cbn [rev]. now rewrite <- app_assoc.
Qed.

(** A maximal word that is not the keyword is copied. *)
Lemma rgo_word pv w b :
  all isWord w -> headNot isWord b -> w <> kw p ->
  rgo 0 pv (w ++ b) = w ++ rgo 0 [] b.
Proof.
  intros Hw Hb Hne. destruct w as [|x t].
  - now apply rgo_nonword_start.
  - pose proof (kw_len_word_start Hgood pv b Hw Hb Hne) as HN.
    inversion Hw as [|? ? Hx Ht]; subst.
    cbn [app] in *. rewrite rgo_cons, HN. f_equal.
    rewrite rgo_inword; auto. f_equal. now apply rgo_nonword_start.
Qed.

(** The pass over a text followed by a word splits at the word. *)
Lemma rgo_prefix rest a :
  forall skip pv,
    skip <= length a -> lastNot a -> isWordAt rest = true ->
    rgo skip pv (a ++ rest) = rgo skip pv a ++ rgo 0 (rev a ++ pv) rest.
Proof.
  induction a as [|x t IH]; intros skip pv Hs Hl Hr.
  - simpl in Hs. assert (skip = 0) as -> by lia. now rewrite rgo_nil.
  - assert (Hstep : forall n, n <= length t ->
              rgo n (x :: pv) (t ++ rest)
              = rgo n (x :: pv) t ++ rgo 0 (rev (x :: t) ++ pv) rest).
    { intros n Hn. rewrite IH; auto; [|now apply lastNot_tail in Hl].
      cbn [rev]. now rewrite <- app_assoc. }
    cbn [app length] in *. destruct skip as [|n].
    + assert (Hne : x :: t <> []) by discriminate.
      destruct (kw_len_prefix Hgood pv rest Hne Hl Hr) as [E B].
      cbn [app] in E. rewrite !rgo_cons, E.
      destruct (kw_len p pv (x :: t)) as [[|m]|] eqn:L.
      * rewrite Hstep by lia. now rewrite <- app_assoc.
      * destruct (B _ eq_refl) as [Hm _]. cbn [length] in Hm.
        rewrite Hstep by lia. now rewrite <- app_assoc.
      * rewrite Hstep by lia. reflexivity.
    + rewrite !rgo_skip. apply Hstep. lia.
Qed.

Lemma rgo_skip_all a : forall pv, rgo (length a) pv a = [].
Proof.
  induction a as [|x t IH]; intros pv; [apply rgo_nil|].
  cbn [length]. rewrite rgo_skip. apply IH.
Qed.

(** The pass keeps a text from ending with a word character. *)
Lemma rgo_last a :
  forall skip pv,
    skip < length a -> lastNot a ->
    rgo skip pv a <> [] /\ lastNot (rgo skip pv a).
Proof.
  induction a as [|x t IH]; intros skip pv Hs Hl; [simpl in Hs; lia|].
  cbn [length] in Hs. destruct skip as [|n].
  - assert (Hne : x :: t <> []) by discriminate.
    destruct (kw_len_prefix Hgood pv [ch "a"] Hne Hl eq_refl) as [_ B].
    rewrite rgo_cons.
    assert (Hcopy : x :: rgo 0 (x :: pv) t <> []
                    /\ lastNot (x :: rgo 0 (x :: pv) t)).
    { split; [discriminate|]. destruct t as [|y t'].
      - now rewrite rgo_nil.
      - destruct (IH 0 (x :: pv)) as [N L];
          [simpl; lia | now apply lastNot_tail in Hl |].
        now apply lastNot_cons. }
    destruct (kw_len p pv (x :: t)) as [[|m]|] eqn:L; [| |exact Hcopy].
    + apply (kw_len_pos Hgood) in L. lia.
    + destruct (B _ eq_refl) as [Hm Hend]. cbn [length] in Hm, Hend.
      destruct (Nat.eq_dec m (length t)) as [->|Hlt].
      * rewrite rgo_skip_all, app_nil_r. split; [apply (rule_repl_nonempty Hgood) | auto].
      * destruct (IH m (x :: pv)) as [N La];
          [lia | now apply lastNot_tail in Hl |].
        split; [|now apply lastNot_app].
        intros E. apply app_eq_nil in E as [_ E]. contradiction.
  - rewrite rgo_skip. apply IH; [lia | now apply lastNot_tail in Hl].
Qed.

Lemma rgo_head pv b : headNot isWord b -> headNot isWord (rgo 0 pv b).
Proof.
  intros H. destruct b as [|y t]; [now rewrite rgo_nil|].
  rewrite rgo_cons, (kw_len_nonword Hgood _ _ H). exact H.
Qed.

(** One pass around a maximal word that is not its keyword. *)
Lemma apply_rule_word a w b :
  lastNot a -> w <> [] -> all isWord w -> headNot isWord b -> w <> kw p ->
  apply_rule (a ++ w ++ b) p = apply_rule a p ++ w ++ apply_rule b p
  /\ lastNot (apply_rule a p) /\ headNot isWord (apply_rule b p).
Proof.
  intros Ha Hne Hw Hb Hk. unfold apply_rule, replace. fold (rule_go p 0 [] (a ++ w ++ b)).
  fold (rule_go p 0 [] a). fold (rule_go p 0 [] b). repeat split.
  - rewrite rgo_prefix; auto; [|lia|].
    + now rewrite rgo_word.
    + destruct w as [|x t]; [congruence|]. now inversion Hw.
  - destruct a as [|x t]; [now rewrite rgo_nil|].
    apply rgo_last; [simpl; lia | exact Ha].
  - now apply rgo_head.
Qed.
End RulePass.

Lemma apply_rules_word rules w :
  Forall good_rule rules -> Forall (fun p => w <> kw p) rules ->
  w <> [] -> all isWord w ->
  forall a b,
    lastNot a -> headNot isWord b ->
    apply_rules rules (a ++ w ++ b)
    = apply_rules rules a ++ w ++ apply_rules rules b.
Proof.
  intros Hg Hk Hne Hw. induction rules as [|p rules IH]; intros a b Ha Hb; [reflexivity|].
  inversion Hg as [|? ? Gp Grest]; inversion Hk as [|? ? Kp Krest]; subst.
  unfold apply_rules in *. cbn [fold_left].
  destruct (@apply_rule_word p Gp a w b Ha Hne Hw Hb Kp) as [E [La Hb']].
  rewrite E. now apply IH.
Qed.

(** ** The substitution tables *)

Ltac good_rule_tac :=
  repeat split; try discriminate;
  try (repeat constructor; fail);
  try (unfold lastNot; simpl; reflexivity).

Lemma rules_variable_good : Forall good_rule rules_variable.
Proof. unfold rules_variable. repeat constructor; good_rule_tac. Qed.

Lemma rules_expression_good : Forall good_rule rules_expression.
Proof. unfold rules_expression. repeat constructor; good_rule_tac. Qed.

Lemma occurs_app K q : forall p, occurs K (p ++ K ++ q) = true.
Proof.
  induction p as [|x p IH]; simpl.
  - destruct (K ++ q) eqn:E; simpl; rewrite <- E;
      rewrite (proj1 (startsWith_skipn K q)); reflexivity.
  - rewrite IH. apply orb_true_r.
Qed.

(** No keyword occurs inside another keyword. *)
Lemma keywords_not_nested :
  forallb (fun K => forallb (fun w => negb (occurs K w) || str_eqb K w) keywords)
          keywords = true.
Proof. vm_compute. reflexivity. Qed.

Lemma longer_word_not_keyword K p q :
  In K keywords -> p ++ q <> [] -> ~ In (p ++ K ++ q) keywords.
Proof.
  intros HK Hlonger Hin.
  pose proof keywords_not_nested as H. rewrite forallb_forall in H.
  specialize (H K HK). rewrite forallb_forall in H. specialize (H _ Hin).
  rewrite occurs_app in H. simpl in H. apply str_eqb_eq in H.
  apply (f_equal (@length char)) in H. rewrite !length_app in H.
  apply Hlonger. destruct p, q; simpl in *; try reflexivity; lia.
Qed.

Lemma not_keyword_rules w (rules : list rule) :
  (forall p, In p rules -> In (kw p) keywords) ->
  ~ In w keywords -> Forall (fun p => w <> kw p) rules.
Proof.
  intros Hsub Hw. apply Forall_forall. intros p Hp E. apply Hw. subst w. now apply Hsub.
Qed.

Lemma rules_variable_keywords p : In p rules_variable -> In (kw p) keywords.
Proof.
  intros H. unfold keywords. apply in_map. apply in_or_app. now left.
Qed.

Lemma rules_expression_keywords p : In p rules_expression -> In (kw p) keywords.
Proof.
  intros H. unfold keywords. apply in_map. apply in_or_app. now right.
Qed.

Lemma trim_keeps x s : In x s -> isSpace x = false -> In x (trim s).
Proof.
  intros Hin Hx.
  assert (Hno : forall l, all isSpace l -> ~ In x l).
  { intros l Hl Hi. unfold all in Hl. rewrite Forall_forall in Hl.
    specialize (Hl _ Hi). congruence. }
  destruct (trimStart_split s) as [pre [E A]].
  destruct (trimEnd_split (trimStart s)) as [suf [E' A']].
  fold (trim s) in E'. rewrite E in Hin. apply in_app_or in Hin as [Hin|Hin].
  - now apply Hno in Hin.
  - rewrite E' in Hin. apply in_app_or in Hin as [Hin|Hin]; [exact Hin|].
    now apply Hno in Hin.
Qed.

Lemma word_line_not_brace a w b :
  w <> [] -> all isWord w -> str_eqb (trim (a ++ w ++ b)) (u "}") = false.
Proof.
  intros Hne Hw. destruct w as [|x t]; [congruence|]. inversion Hw as [|? ? Hx _]; subst.
  destruct (str_eqb _ _) eqn:E; [|reflexivity]. exfalso.
  apply str_eqb_eq in E.
  assert (Hin : In x (trim (a ++ (x :: t) ++ b))).
  { apply trim_keeps; [|now apply isWord_not_space].
    apply in_or_app. right. now left. }
  rewrite E in Hin. simpl in Hin. destruct Hin as [<-|[]]. discriminate.
Qed.

(** C5. Substitution matches whole words only.  Identifiers are runs of word
    characters, as in the header patterns of the source.  Let an identifier
    [w] hold a keyword [K] of the substitution tables strictly inside it
    ([w = p K q] with [p q] not empty), and let it stand in a line between
    [a], which does not end with a word character, and [b], which does not
    start with one.  Then both converters copy [w] unchanged, and the text
    before and after it is rewritten exactly as it would be on its own. *)
Theorem word_boundary_substitution (a w b ind K p q : str)
  (HK : In K keywords)
  (Hinside : w = p ++ K ++ q)
  (Hlonger : p ++ q <> [])
  (Hword : all isWord w)
  (Ha : lastNot a)
  (Hb : headNot isWord b) :
  convertVariable (a ++ w ++ b) ind
  = ind ++ u "const " ++ apply_rules rules_variable a ++ w
        ++ apply_rules rules_variable b ++ u ";"
  /\ convertExpression (a ++ w ++ b) ind
     = ind ++ apply_rules rules_expression a ++ w
           ++ apply_rules rules_expression b ++ u ";".
Proof.
  assert (Hnk : ~ In w keywords) by (subst w; now apply longer_word_not_keyword).
  assert (Hne : w <> []).
  { intros ->. destruct p; [|discriminate]. destruct K; [|discriminate].
    destruct q; [|discriminate]. now apply Hlonger. }
  split.
  - rewrite convertVariable_rules.
    rewrite (@apply_rules_word rules_variable w rules_variable_good
               (not_keyword_rules _ rules_variable_keywords Hnk) Hne Hword a b Ha Hb).
    now rewrite <- !app_assoc.
  - rewrite convertExpression_rules, (word_line_not_brace a b Hne Hword).
    rewrite (@apply_rules_word rules_expression w rules_expression_good
               (not_keyword_rules _ rules_expression_keywords Hnk) Hne Hword a b Ha Hb).
    now rewrite <- !app_assoc.
Qed.

Ltac in_list := repeat (try (left; reflexivity); right).

Lemma word_boundary_substitution_witness :
  convertVariable (u "ok = truthful + truth") [] = u "const ok = truthful + true;"
  /\ convertExpression (u "files(truthful, escaped)") []
     = u "console.log(truthful, escaped);".
Proof.
  split.
  - refine (proj1 (@word_boundary_substitution
                     (u "ok = ") (u "truthful") (u " + truth") []
                     (u "truth") [] (u "ful") _ _ _ _ _ _)).
    + unfold keywords. simpl. in_list.
    + reflexivity.
    + discriminate.
    + repeat constructor.
    + reflexivity.
    + reflexivity.
  - refine (proj2 (@word_boundary_substitution
                     (u "files(truthful, ") (u "escaped") (u ")") []
                     (u "escape") [] (u "d") _ _ _ _ _ _)).
    + unfold keywords. simpl. in_list.
    + reflexivity.
    + discriminate.
    + repeat constructor.
    + reflexivity.
    + reflexivity.
Defined.

(** ** The executor's scope *)

Section ScopeFacts.
Import Executor.
Variable value : Type.
Variable runtime : Runtime value.
Variable console : value.
Variable outcome : Type.
Variable host_call : list str -> str -> list value -> outcome.

Local Abbreviation object := (object value).
Local Abbreviation setupGlobalScope := (setupGlobalScope runtime console).
Local Abbreviation executeWithScope := (executeWithScope host_call).
Implicit Types (o src target customScope : object).

Lemma str_eqb_spec (a b : str) : reflect (a = b) (str_eqb a b).
Proof. apply iff_reflect. symmetry. apply str_eqb_eq. Qed.

Lemma get_set o : forall k v k',
  get (set o k v) k' = if str_eqb k k' then Some v else get o k'.
Proof.
  induction o as [|[k0 v0] rest IH]; intros k v k'; simpl; [reflexivity|].
  destruct (str_eqb_spec k0 k) as [->|N0]; simpl.
  - destruct (str_eqb_spec k k'); reflexivity.
  - destruct (str_eqb_spec k0 k') as [->|N1].
    + destruct (str_eqb_spec k k'); [congruence | reflexivity].
    + apply IH.
Qed.

Lemma keys_set o : forall k v,
  keys (set o k v) = if existsb (fun k' => str_eqb k' k) (keys o) then keys o
                     else keys o ++ [k].
Proof.
  induction o as [|[k0 v0] rest IH]; intros k v; simpl; [reflexivity|].
  destruct (str_eqb_spec k0 k) as [->|N0]; simpl; [reflexivity|].
  rewrite IH. destruct (existsb _ (keys rest)); reflexivity.
Qed.

Lemma existsb_keys o k : existsb (fun k' => str_eqb k' k) (keys o) = true <-> In k (keys o).
Proof.
  rewrite existsb_exists. split.
  - intros [x [Hx E]]. apply str_eqb_eq in E. now subst.
  - intros H. exists k. split; [exact H | now apply str_eqb_eq].
Qed.

Lemma NoDup_set o k v : NoDup (keys o) -> NoDup (keys (set o k v)).
Proof.
  intros H. rewrite keys_set.
  destruct (existsb _ (keys o)) eqn:E; [exact H|].
  apply NoDup_app; [exact H | repeat constructor; auto |].
  intros x Hx [<-|[]]. apply existsb_keys in Hx. congruence.
Qed.

Lemma in_keys_set o k v k' : In k' (keys (set o k v)) <-> k = k' \/ In k' (keys o).
Proof.
  rewrite keys_set. destruct (existsb _ (keys o)) eqn:E.
  - apply existsb_keys in E. split; [auto | intros [<-|H]; auto].
  - rewrite in_app_iff. simpl. tauto.
Qed.

Lemma copy_into_spec src : forall target k,
  NoDup (keys src) ->
  get (copy_into target src) k =
    match get src k with Some v => Some v | None => get target k end.
Proof.
  induction src as [|[k0 v0] rest IH]; intros target k Hnd; [reflexivity|].
  simpl in Hnd. inversion Hnd as [|? ? Hnot Hrest]; subst.
  unfold copy_into in *. cbn [fold_left fst snd get].
  rewrite IH by exact Hrest. rewrite get_set.
  destruct (str_eqb_spec k0 k) as [->|N]; [|reflexivity].
  destruct (get rest k) eqn:G; [|reflexivity].
  exfalso. apply Hnot. clear - G.
  induction rest as [|[k1 v1] r IHr]; [discriminate|]. simpl in *.
  destruct (str_eqb_spec k1 k); [now left | right; auto].
Qed.

Lemma copy_into_NoDup src : forall target,
  NoDup (keys target) -> NoDup (keys (copy_into target src)).
Proof.
  induction src as [|[k0 v0] rest IH]; intros target H; [exact H|].
  unfold copy_into in *. cbn [fold_left]. apply IH. now apply NoDup_set.
Qed.

Lemma copy_into_keys src : forall target k,
  In k (keys (copy_into target src)) <-> In k (keys target) \/ In k (keys src).
Proof.
  induction src as [|[k0 v0] rest IH]; intros target k.
  - simpl. tauto.
  - unfold copy_into in *. cbn [fold_left fst snd]. rewrite IH, in_keys_set.
    simpl. tauto.
Qed.

(** With distinct parameter names, an identifier denotes the value stored
    under its name. *)
Lemma param_binding_get o k :
  NoDup (keys o) -> param_binding (keys o) (values o) k = get o k.
Proof.
  unfold param_binding.
  assert (G : forall found,
             (forall v, found = Some v -> ~ In k (keys o)) ->
             NoDup (keys o) ->
             fold_left (fun found pa => if str_eqb (fst pa) k then Some (snd pa) else found)
                       (combine (keys o) (values o)) found
             = match get o k with Some v => Some v | None => found end).
  { induction o as [|[k0 v0] rest IH]; intros found Hf Hnd; simpl.
    - reflexivity.
    - inversion Hnd as [|? ? Hnot Hrest]; subst.
      destruct (str_eqb_spec k0 k) as [->|N].
      + rewrite IH; [|intros v _; exact Hnot | exact Hrest].
        destruct (get rest k) eqn:Gk; [|reflexivity].
        exfalso. apply Hnot. clear - Gk.
        induction rest as [|[k1 v1] r IHr]; [discriminate|]. simpl in *.
        destruct (str_eqb_spec k1 k); [now left | right; auto].
      + apply IH; [|exact Hrest]. intros v E Hin. apply (Hf v E). now right. }
  intros Hnd. rewrite G; [destruct (get o k); reflexivity | discriminate | exact Hnd].
Qed.

Lemma get_in_keys o k : (exists v, get o k = Some v) <-> In k (keys o).
Proof.
  induction o as [|[k0 v0] rest IH]; simpl.
  - split; [intros [v H]; discriminate | tauto].
  - destruct (str_eqb_spec k0 k) as [->|N].
    + split; eauto.
    + rewrite IH. split; [auto | intros [E|H]; [contradiction | exact H]].
Qed.

Lemma setupGlobalScope_keys :
  keys setupGlobalScope =
    map u ["theory"; "risk"; "ghost"; "money"; "island"; "girl"; "mission";
           "secret"; "weapon"; "files"; "truestory"; "falsestory"; "truth";
           "lie"; "universe"; "alibi"; "console"]%string.
Proof. reflexivity. Qed.

Lemma setupGlobalScope_NoDup : NoDup (keys setupGlobalScope).
Proof.
  unfold setupGlobalScope. cbv zeta.
  repeat apply NoDup_set. constructor.
Qed.

(** C9. [executeWithScope] hands the host the keys and values of the merged
    scope; the names visible to the executed code are those of the built-in
    scope together with those of the caller's scope; and each name denotes
    the caller's value when the caller's scope has it, the built-in value
    otherwise. *)
Theorem merged_scope_override (jsCode : str) (customScope : object)
  (Hobj : NoDup (keys customScope)) :
  let merged := spread2 setupGlobalScope customScope in
  executeWithScope setupGlobalScope jsCode customScope
  = host_call (keys merged) jsCode (values merged)
  /\ (forall name,
        In name (keys merged) <->
        In name (keys setupGlobalScope) \/ In name (keys customScope))
  /\ (forall name,
        param_binding (keys merged) (values merged) name =
          match get customScope name with
          | Some v => Some v
          | None => get setupGlobalScope name
          end).
Proof.
  intros merged. split; [reflexivity|]. split.
  - intros name. unfold merged, spread2. rewrite !copy_into_keys. simpl. tauto.
  - intros name. unfold merged, spread2. rewrite param_binding_get.
    + rewrite copy_into_spec by exact Hobj.
      rewrite copy_into_spec by exact setupGlobalScope_NoDup.
      change (get [] name) with (@None value).
      destruct (get customScope name); [reflexivity|].
      destruct (get setupGlobalScope name); reflexivity.
    + apply copy_into_NoDup, copy_into_NoDup. constructor.
Qed.

End ScopeFacts.

Lemma merged_scope_override_witness :
  let merged := Executor.spread2 (Executor.setupGlobalScope sample_runtime 0) sample_custom in
  Executor.param_binding (Executor.keys merged) (Executor.values merged) (u "truth") = Some 99
  /\ Executor.param_binding (Executor.keys merged) (Executor.values merged) (u "lie") = Some 12
  /\ Executor.param_binding (Executor.keys merged) (Executor.values merged) (u "extra") = Some 7.
Proof.
  assert (Hobj : NoDup (Executor.keys sample_custom)).
  { repeat constructor; simpl; intuition discriminate. }
  pose proof (@merged_scope_override nat sample_runtime 0
                (list (str * nat)) (fun ps _ vs => combine ps vs) [] sample_custom Hobj)
    as [_ [_ H]].
  repeat split; apply H.
Defined.

(** * Further properties of the code *)

(** ** Lines and their round trip *)

Lemma join_split s : join_nl (split_nl s) = s.
Proof.
  induction s as [|x t IH]; [reflexivity|]. cbn [split_nl].
  pose proof (split_nl_not_nil t) as Hne.
  destruct (split_nl t) as [|l ls]; [congruence|].
  destruct (N.eqb_spec x nl) as [->|_].
  - change (join_nl ([] :: l :: ls)) with (nl :: join_nl (l :: ls)).
    now rewrite IH.
  - destruct ls as [|l' ls'].
    + cbn [join_nl] in *. now rewrite IH.
    + change (join_nl ((x :: l) :: l' :: ls'))
        with (x :: (l ++ nl :: join_nl (l' :: ls'))).
      change (join_nl (l :: l' :: ls')) with (l ++ nl :: join_nl (l' :: ls')) in IH.
      now rewrite IH.
Qed.

Lemma parseLine_original line : original (parseLine line) = line.
Proof.
  unfold parseLine.
  destruct (isEmpty line); [reflexivity|].
  destruct (isFunction _); [reflexivity|].
  destruct (isConditional _); [reflexivity|].
  destruct (includes _ _); reflexivity.
Qed.

(** X1. Classification loses nothing of the source: the original texts of
    the classified lines, joined by line separators, give back the program. *)
Theorem parse_keeps_source (code : str) :
  join_nl (map original (parse code)) = code.
Proof.
  unfold parse. rewrite map_map.
  rewrite (map_ext _ (fun l => l) parseLine_original), map_id.
  apply join_split.
Qed.

Lemma split_nl_concat a b : split_nl (a ++ nl :: b) = split_nl a ++ split_nl b.
Proof.
  induction a as [|x t IH]; [reflexivity|]. simpl.
  destruct (x =? nl)%N; [now rewrite IH|].
  rewrite IH. pose proof (split_nl_not_nil t) as Hne.
  destruct (split_nl t) as [|l ls]; [congruence | reflexivity].
Qed.

Lemma join_nl_app la lb :
  la <> [] -> lb <> [] -> join_nl (la ++ lb) = join_nl la ++ nl :: join_nl lb.
Proof.
  intros Ha Hb. induction la as [|l rest IH]; [congruence|].
  destruct rest as [|l' rest'].
  - destruct lb as [|m lb']; [congruence | reflexivity].
  - change (join_nl ((l :: l' :: rest') ++ lb))
      with (l ++ nl :: join_nl ((l' :: rest') ++ lb)).
    rewrite IH by discriminate.
    change (join_nl (l :: l' :: rest')) with (l ++ nl :: join_nl (l' :: rest')).
    now rewrite <- app_assoc.
Qed.

Lemma parse_not_nil code : parse code <> [].
Proof.
  unfold parse. intros E. apply map_eq_nil in E. revert E. apply split_nl_not_nil.
Qed.

(** X2. Translation has no state across lines: the translation of two
    programs put one after the other, separated by a line separator, is the
    two translations put one after the other. *)
Theorem translate_concat (a b : str) :
  exists ja jb,
    translate a = Some ja /\ translate b = Some jb
    /\ translate (a ++ nl :: b) = Some (ja ++ nl :: jb).
Proof.
  exists (join_nl (map emit (parse a))), (join_nl (map emit (parse b))).
  rewrite !translate_emit. repeat split.
  unfold parse. rewrite split_nl_concat, !map_app. f_equal.
  apply join_nl_app; intros E; apply map_eq_nil in E;
    revert E; apply parse_not_nil.
Qed.

(** ** Comments *)

Lemma indexOf_find_first p s :
  forall i, indexOf_from p s i =
            match find_first p s with
            | Some n => (i + Z.of_nat n)%Z
            | None => (-1)%Z
            end.
Proof.
  induction s as [|x t IH]; intros i; simpl.
  - destruct (startsWith p []); [lia | reflexivity].
  - destruct (startsWith p (x :: t)); [lia|].
    rewrite IH. destruct (find_first p t); simpl; [lia | reflexivity].
Qed.

Lemma startsWith_firstn p : forall n s,
  startsWith p (firstn n s) = true -> startsWith p s = true.
Proof.
  induction p as [|c p IH]; intros n s H; [reflexivity|].
  destruct n, s; simpl in *; try discriminate.
  apply andb_prop in H as [H1 H2]. rewrite H1. simpl. eauto.
Qed.

Lemma find_first_firstn p s :
  p <> [] -> forall n, find_first p s = Some n -> find_first p (firstn n s) = None.
Proof.
  intros Hp. induction s as [|x t IH]; intros n H; simpl in H.
  - destruct (startsWith p []) eqn:SW.
    + destruct p; [congruence | discriminate].
    + discriminate.
  - destruct (startsWith p (x :: t)) eqn:SW.
    + injection H as <-. simpl. destruct p; [congruence | reflexivity].
    + destruct (find_first p t) as [m|] eqn:F; [|discriminate].
      injection H as <-. cbn [firstn find_first].
      destruct (startsWith p (x :: firstn m t)) eqn:SW'.
      * apply (startsWith_firstn p (S m) (x :: t)) in SW'. congruence.
      * now rewrite IH.
Qed.

Lemma find_first_skipn p s :
  forall n, find_first p s = Some n ->
            s = firstn n s ++ skipn n s /\ startsWith p (skipn n s) = true.
Proof.
  induction s as [|x t IH]; intros n H; simpl in H.
  - destruct (startsWith p []) eqn:SW; [|discriminate]. injection H as <-. auto.
  - destruct (startsWith p (x :: t)) eqn:SW.
    + injection H as <-. auto.
    + destruct (find_first p t) as [m|] eqn:F; [|discriminate].
      injection H as <-. destruct (IH m eq_refl) as [E SW']. simpl. split; congruence.
Qed.

Lemma find_first_occurs p s : find_first p s = None <-> occurs p s = false.
Proof.
  induction s as [|x t IH]; simpl.
  - destruct (startsWith p []); simpl; split; congruence.
  - destruct (startsWith p (x :: t)); simpl; [split; congruence|].
    rewrite <- IH. destruct (find_first p t); simpl; split; congruence.
Qed.

Lemma occurs_split p s : occurs p s = true -> exists a b, s = a ++ p ++ b.
Proof.
  induction s as [|x t IH]; simpl; intros H.
  - rewrite orb_false_r in H. apply startsWith_app in H as [r E]. exists [], r. exact E.
  - apply orb_prop in H as [H|H].
    + apply startsWith_app in H as [r E]. exists [], r. exact E.
    + destruct (IH H) as [a [b E]]. exists (x :: a), b. simpl. congruence.
Qed.

Lemma find_first_infix p a m b :
  find_first p (a ++ m ++ b) = None -> find_first p m = None.
Proof.
  rewrite !find_first_occurs. intros H.
  destruct (occurs p m) eqn:O; [|reflexivity].
  apply occurs_split in O as [x [y ->]].
  replace (a ++ (x ++ p ++ y) ++ b) with ((a ++ x) ++ p ++ (y ++ b)) in H
    by (now rewrite <- !app_assoc).
  now rewrite occurs_app in H.
Qed.

Lemma trim_infix s : exists pre suf, s = pre ++ trim s ++ suf.
Proof.
  destruct (trimStart_split s) as [pre [E _]].
  destruct (trimEnd_split (trimStart s)) as [suf [E' _]].
  exists pre, suf. fold (trim s) in E'. now rewrite <- E'.
Qed.

Lemma removeComment_find line :
  removeComment line =
    match find_first (u "//") line with
    | Some n => firstn n line
    | None => line
    end.
Proof.
  unfold removeComment, indexOf. cbv zeta. rewrite indexOf_find_first.
  destruct (find_first (u "//") line) as [n|]; [|reflexivity].
  destruct (Z.eqb_spec (0 + Z.of_nat n) (-1)); [lia|].
  unfold substring0. simpl negb. cbv iota. now rewrite Z.add_0_l, Nat2Z.id.
Qed.

Lemma removeComment_no_marker line : find_first (u "//") (removeComment line) = None.
Proof.
  rewrite removeComment_find.
  destruct (find_first (u "//") line) as [n|] eqn:F; [|exact F].
  apply find_first_firstn; [discriminate | exact F].
Qed.

(** X3. [removeComment] returns a prefix of the line in which the comment
    marker no longer occurs; it leaves a line without marker as it is, and
    applying it twice is the same as applying it once. *)
Theorem removeComment_cuts_at_marker (line : str) :
  (exists rest, line = removeComment line ++ rest)
  /\ indexOf (u "//") (removeComment line) = (-1)%Z
  /\ (indexOf (u "//") line = (-1)%Z -> removeComment line = line)
  /\ removeComment (removeComment line) = removeComment line.
Proof.
  pose proof (removeComment_no_marker line) as Hno.
  repeat split.
  - rewrite removeComment_find. destruct (find_first (u "//") line) as [n|].
    + exists (skipn n line). symmetry. apply firstn_skipn.
    + exists []. now rewrite app_nil_r.
  - unfold indexOf. rewrite indexOf_find_first. now rewrite Hno.
  - unfold indexOf. rewrite indexOf_find_first, removeComment_find.
    destruct (find_first (u "//") line); [lia | reflexivity].
  - rewrite (removeComment_find (removeComment line)). now rewrite Hno.
Qed.

(** ** The cleaned text *)

Lemma dropWhile_app_last p x : forall l,
  p x = false -> dropWhile p (l ++ [x]) = dropWhile p l ++ [x].
Proof.
  induction l as [|y l IH]; intros Hx; simpl.
  - now rewrite Hx.
  - destruct (p y); [now apply IH | reflexivity].
Qed.

Lemma trimEnd_cons x r : isSpace x = false -> trimEnd (x :: r) = x :: trimEnd r.
Proof.
  intros Hx. unfold trimEnd. cbn [rev].
  rewrite dropWhile_app_last by exact Hx.
  rewrite rev_app_distr. reflexivity.
Qed.

Lemma dropWhile_app_all p ws t : all p ws -> dropWhile p (ws ++ t) = dropWhile p t.
Proof. induction 1 as [|x ws Hx _ IH]; simpl; [reflexivity | now rewrite Hx]. Qed.

(** A line is empty for the classifier exactly when nothing is left of it
    once the comment is cut and the white space trimmed. *)
Lemma isEmpty_iff line : isEmpty line = true <-> trim (removeComment line) = [].
Proof.
  split; [apply isEmpty_cleaned|].
  intros H. apply trim_nil_all_space in H. unfold isEmpty.
  rewrite removeComment_find in H.
  destruct (find_first (u "//") line) as [n|] eqn:F.
  - destruct (find_first_skipn _ _ F) as [E SW].
    apply startsWith_app in SW as [r Er].
    assert (T : trim line = u "//" ++ trimEnd r).
    { unfold trim, trimStart. rewrite E, Er, (dropWhile_app_all _ H).
      change (u "//" ++ r) with (ch "/" :: ch "/" :: r).
      cbn [dropWhile]. change (isSpace (ch "/")) with false. cbv iota.
      now rewrite !trimEnd_cons by reflexivity. }
    rewrite T. apply orb_true_r.
  - now rewrite (trim_all_space H).
Qed.

Lemma cleaned_trimmed line :
  headNot isSpace (cleaned (parseLine line))
  /\ headNot isSpace (rev (cleaned (parseLine line))).
Proof.
  rewrite parseLine_cleaned. destruct (isEmpty line); [split; exact I|].
  split; [apply trim_headNot | apply trim_lastNot].
Qed.

(** X4. The cleaned text of a classified line neither starts nor ends with
    white space and holds no comment marker. *)
Theorem cleaned_is_trimmed_and_comment_free (line : str) :
  headNot isSpace (cleaned (parseLine line))
  /\ headNot isSpace (rev (cleaned (parseLine line)))
  /\ indexOf (u "//") (cleaned (parseLine line)) = (-1)%Z.
Proof.
  destruct (cleaned_trimmed line) as [H1 H2]. repeat split; auto.
  unfold indexOf. rewrite indexOf_find_first, parseLine_cleaned.
  destruct (isEmpty line); [reflexivity|].
  destruct (trim_infix (removeComment line)) as [pre [suf E]].
  pose proof (removeComment_no_marker line) as Hno. rewrite E in Hno.
  now rewrite (find_first_infix _ _ _ _ Hno).
Qed.

Lemma parseLine_empty_iff (line : str) :
  (type (parseLine line) = Tempty <-> trim (removeComment line) = [])
  /\ (type (parseLine line) = Tempty <-> cleaned (parseLine line) = []).
Proof.
  rewrite parseLine_order, parseLine_cleaned, <- isEmpty_iff.
  destruct (isEmpty line) eqn:He.
  - repeat split; reflexivity.
  - assert (Hne : trim (removeComment line) <> []).
    { intros E. apply isEmpty_iff in E. congruence. }
    assert (Hty : (if isFunction (trim (removeComment line)) then Tfunction
                   else if isConditional (trim (removeComment line)) then Tconditional
                   else if includes (ch "=") (trim (removeComment line)) then Tvariable
                   else Texpression) <> Tempty).
    { destruct (isFunction _); [discriminate|].
      destruct (isConditional _); [discriminate|].
      destruct (includes _ _); discriminate. }
    repeat split; intros H; try congruence; contradiction.
Qed.

(** X5. The category empty is assigned exactly when nothing is left of the
    line once its comment is cut and its white space trimmed; and a line of
    any other category has a cleaned text that is not empty. *)
Theorem empty_category_iff_nothing_left (line : str) :
  (type (parseLine line) = Tempty <-> trim (removeComment line) = [])
  /\ (type (parseLine line) = Tempty <-> cleaned (parseLine line) = []).
Proof. apply parseLine_empty_iff. Qed.

(** ** Which match the matcher finds *)

Section MatcherPriority.
Variable A : Type.
Variable k : mstate -> option A.

(** A greedy star that cannot succeed further on stops where it is. *)
Lemma star_greedy_stop p cs : forall rs pv,
  (forall w1 w2, rs = w1 ++ w2 -> w1 <> [] -> all p w1 ->
                 k (MState (rev w1 ++ pv) w2 cs) = None) ->
  star true p k pv rs cs = k (MState pv rs cs).
Proof.
  induction rs as [|x t IH]; intros pv H; [reflexivity|].
  simpl. destruct (p x) eqn:Px; [|reflexivity].
  rewrite IH.
  - assert (Hx : k (MState (rev [x] ++ pv) t cs) = None).
    { apply H; [reflexivity | discriminate |].
      constructor; [exact Px | constructor]. }
    simpl in Hx. now rewrite Hx.
  - intros w1 w2 E Hne Hp. specialize (H (x :: w1) w2).
    simpl in H. rewrite <- app_assoc in H. apply H.
    + now rewrite E.
    + discriminate.
    + constructor; assumption.
Qed.

(** A greedy star ends after [w] when the rest of the pattern succeeds there
    and fails after every longer run. *)
Lemma star_greedy_at p cs a rs : forall w pv,
  all p w ->
  k (MState (rev w ++ pv) rs cs) = Some a ->
  (forall w1 w2, rs = w1 ++ w2 -> w1 <> [] -> all p w1 ->
                 k (MState (rev w1 ++ rev w ++ pv) w2 cs) = None) ->
  star true p k pv (w ++ rs) cs = Some a.
Proof.
  induction w as [|x w IH]; intros pv Hw Hk Hdeep.
  - simpl in *. rewrite star_greedy_stop; [exact Hk | exact Hdeep].
  - inversion Hw as [|? ? Px Hw']; subst. simpl. rewrite Px.
    rewrite (IH (x :: pv)); [reflexivity | exact Hw' | |].
    + simpl in Hk. rewrite <- app_assoc in Hk. exact Hk.
    + intros w1 w2 E Hne Hp. specialize (Hdeep w1 w2 E Hne Hp).
      simpl in Hdeep. rewrite <- !app_assoc in Hdeep. exact Hdeep.
Qed.

(** A greedy star takes the whole run in front of a unit outside the class,
    when the rest of the pattern succeeds there. *)
Lemma star_greedy_max p cs a rs w pv :
  all p w -> headNot p rs ->
  k (MState (rev w ++ pv) rs cs) = Some a ->
  star true p k pv (w ++ rs) cs = Some a.
Proof.
  intros Hw Hrs Hk. apply star_greedy_at; auto.
  intros w1 w2 E Hne Hp. exfalso. destruct w1 as [|y w1']; [congruence|].
  subst rs. simpl in Hrs. inversion Hp; congruence.
Qed.

(** A lazy star ends after [w] when the rest of the pattern succeeds there
    and fails after every shorter run. *)
Lemma star_lazy_at p cs a rs : forall w pv,
  all p w ->
  k (MState (rev w ++ pv) rs cs) = Some a ->
  (forall w1 w2, w = w1 ++ w2 -> w2 <> [] ->
                 k (MState (rev w1 ++ pv) (w2 ++ rs) cs) = None) ->
  star false p k pv (w ++ rs) cs = Some a.
Proof.
  induction w as [|x w IH]; intros pv Hw Hk Hshort.
  - simpl in *. destruct rs as [|y t]; simpl; [exact Hk|].
    destruct (p y); [|exact Hk]. now rewrite Hk.
  - inversion Hw as [|? ? Px Hw']; subst. simpl. rewrite Px.
    assert (H0 : k (MState (rev [] ++ pv) ((x :: w) ++ rs) cs) = None)
      by (apply Hshort; [reflexivity | discriminate]).
    simpl in H0. rewrite H0.
    apply IH; [exact Hw' | |].
    + simpl in Hk. rewrite <- app_assoc in Hk. exact Hk.
    + intros w1 w2 E Hne. specialize (Hshort (x :: w1) w2).
      simpl in Hshort. rewrite <- app_assoc in Hshort. apply Hshort; [|exact Hne].
      now rewrite E.
Qed.

Lemma rmatch_char_ok c pv rs cs :
  rmatch (RChar c) k (MState pv (c :: rs) cs) = k (MState (c :: pv) rs cs).
Proof. simpl. now rewrite N.eqb_refl. Qed.

Lemma rmatch_lit_ok K pv rs cs :
  K <> [] ->
  rmatch (lit K) k (MState pv (K ++ rs) cs) = k (MState (rev K ++ pv) rs cs).
Proof.
  intros HK. rewrite rmatch_lit by exact HK.
  destruct (startsWith_skipn K rs) as [-> ->]. reflexivity.
Qed.

Lemma rmatch_plus_at p cs a rs w pv :
  w <> [] -> all p w ->
  k (MState (rev w ++ pv) rs cs) = Some a ->
  (forall w1 w2, rs = w1 ++ w2 -> w1 <> [] -> all p w1 ->
                 k (MState (rev w1 ++ rev w ++ pv) w2 cs) = None) ->
  rmatch (RPlus true p) k (MState pv (w ++ rs) cs) = Some a.
Proof.
  intros Hne Hw Hk Hdeep. destruct w as [|x w]; [congruence|].
  inversion Hw as [|? ? Px Hw']; subst.
  unfold RPlus. cbn [rmatch ahead passed caps app]. rewrite Px.
  apply star_greedy_at; [exact Hw' | |].
  - simpl in Hk. rewrite <- app_assoc in Hk. exact Hk.
  - intros w1 w2 E Hn Hp. specialize (Hdeep w1 w2 E Hn Hp).
    simpl in Hdeep. rewrite <- !app_assoc in Hdeep. exact Hdeep.
Qed.

Lemma rmatch_plus_max p cs a rs w pv :
  w <> [] -> all p w -> headNot p rs ->
  k (MState (rev w ++ pv) rs cs) = Some a ->
  rmatch (RPlus true p) k (MState pv (w ++ rs) cs) = Some a.
Proof.
  intros Hne Hw Hrs Hk. apply rmatch_plus_at; auto.
  intros w1 w2 E Hn Hp. exfalso. destruct w1 as [|y w1']; [congruence|].
  subst rs. simpl in Hrs. inversion Hp; congruence.
Qed.
End MatcherPriority.

Lemma span_app pv w a c a' c' :
  span (MState pv a c) (MState (rev w ++ pv) a' c') = w.
Proof.
  unfold span. simpl. rewrite length_app, Nat.add_sub.
  rewrite firstn_app, Nat.sub_diag, firstn_all.
  simpl. rewrite app_nil_r. apply rev_involutive.
Qed.

Lemma search_first r pv rs e :
  match_at r pv rs = Some e ->
  search r pv rs = Some (MkMatch (length pv) (span (MState pv rs []) e) (caps e)).
Proof. intros H. destruct rs; simpl; now rewrite H. Qed.

Lemma takeWhile_dropWhile p s : s = takeWhile p s ++ dropWhile p s.
Proof.
  induction s as [|x t IH]; simpl; [reflexivity|].
  destruct (p x); simpl; congruence.
Qed.

Lemma takeWhile_all p s : all p (takeWhile p s).
Proof.
  induction s as [|x t IH]; simpl; [constructor|].
  destruct (p x) eqn:Px; constructor; assumption.
Qed.

Lemma getIndent_takeWhile line :
  getIndent line = Z.of_nat (length (takeWhile isSpace line)).
Proof.
  unfold getIndent, exec.
  assert (M : match_at re_indent [] line
              = Some (MState (rev (takeWhile isSpace line) ++ [])
                             (dropWhile isSpace line)
                             [(1, takeWhile isSpace line)])).
  { unfold match_at, re_indent. cbn [rmatch passed ahead caps].
    rewrite (takeWhile_dropWhile isSpace line) at 1.
    apply star_greedy_max.
    - apply takeWhile_all.
    - apply dropWhile_headNot.
    - cbn [passed ahead caps]. now rewrite span_app. }
  rewrite (search_first _ _ _ M). reflexivity.
Qed.

(** X6. The indent of a classified line is the number of white-space units
    in front of its first other unit, whatever its category. *)
Theorem indent_is_leading_whitespace (line : str) :
  exists ws rest,
    line = ws ++ rest /\ all isSpace ws /\ headNot isSpace rest
    /\ getIndent line = Z.of_nat (length ws)
    /\ indent (parseLine line) = Z.of_nat (length ws).
Proof.
  exists (takeWhile isSpace line), (dropWhile isSpace line).
  rewrite parseLine_indent, getIndent_takeWhile. repeat split.
  - apply takeWhile_dropWhile.
  - apply takeWhile_all.
  - apply dropWhile_headNot.
Qed.

(** ** Well-formed headers *)

Lemma rmatch_seq (A : Type) r1 r2 (k : mstate -> option A) s :
  rmatch (RSeq r1 r2) k s = rmatch r1 (rmatch r2 k) s.
Proof. reflexivity. Qed.

Lemma rmatch_group (A : Type) i r (k : mstate -> option A) s :
  rmatch (RGroup i r) k s
  = rmatch r (fun s' => k (MState (passed s') (ahead s') ((i, span s s') :: caps s'))) s.
Proof. reflexivity. Qed.

Lemma rmatch_alt_l (A : Type) r1 r2 (k : mstate -> option A) s a :
  rmatch r1 k s = Some a -> rmatch (RAlt r1 r2) k s = Some a.
Proof. intros H. simpl. now rewrite H. Qed.

Lemma rmatch_alt_r (A : Type) r1 r2 (k : mstate -> option A) s a :
  rmatch r1 k s = None -> rmatch r2 k s = Some a -> rmatch (RAlt r1 r2) k s = Some a.
Proof. intros H1 H2. simpl. now rewrite H1. Qed.

Lemma includes_app c a b : includes c (a ++ b) = includes c a || includes c b.
Proof. unfold includes. apply existsb_app. Qed.

Lemma headNot_word_app p w rest :
  w <> [] -> all isWord w -> (forall x, isWord x = true -> p x = false) ->
  headNot p (w ++ rest).
Proof.
  intros Hne Hw Hp. destruct w as [|x t]; [congruence|].
  inversion Hw; subst. simpl. now apply Hp.
Qed.

Section FunctionHeader.
Variables kw ws name params b : str.
Hypothesis Hkw : kw = u "plot" \/ kw = u "plan".
Hypothesis Hws : ws <> [].
Hypothesis Hsp : all isSpace ws.
Hypothesis Hname : name <> [].
Hypothesis Hword : all isWord name.
Hypothesis Hdot : all isDot params.
Hypothesis Hclose : includes (ch ")") params = false.

Lemma match_function_rest :
  rmatch (RPlus true isSpace ^^ RGroup 1 (RPlus true isWord)
            ^^ RChar (ch "(") ^^ RGroup 2 (RStar false isDot)
            ^^ RChar (ch ")") ^^ RChar (ch ":"))%re (fun s => Some s)
         (MState (rev kw ++ [])
                 (ws ++ name ++ u "(" ++ params ++ u "):" ++ b) [])
  = Some (MState (ch ":" :: ch ")" :: rev params ++ ch "(" :: rev name
                    ++ rev ws ++ rev kw ++ [])
                 b [(2, params); (1, name)]).
Proof.
  rewrite rmatch_seq.
  apply rmatch_plus_max; [exact Hws | exact Hsp | |].
  { apply headNot_word_app; auto. apply isWord_not_space. }
  rewrite rmatch_seq, rmatch_group.
  apply rmatch_plus_max; [exact Hname | exact Hword | reflexivity |].
  cbv beta. cbn [passed ahead caps]. rewrite span_app.
  rewrite rmatch_seq. change (u "(" ++ params ++ u "):" ++ b)
    with (ch "(" :: params ++ u "):" ++ b).
  rewrite rmatch_char_ok, rmatch_seq, rmatch_group.
  cbn [rmatch passed ahead caps].
  apply star_lazy_at; [exact Hdot | |].
  - cbv beta. cbn [passed ahead caps].
    change (rev params ++ ch "(" :: rev name ++ rev ws ++ rev kw ++ [])
      with (rev params ++ (ch "(" :: rev name ++ rev ws ++ rev kw ++ [])).
    rewrite span_app. reflexivity.
  - intros w1 w2 E Hne. cbv beta. cbn [passed ahead caps].
    destruct w2 as [|y w2']; [congruence|].
    pose proof Hclose as Hc. rewrite E, includes_app in Hc.
    apply orb_false_elim in Hc as [_ Hc].
    unfold includes in Hc. cbn [existsb] in Hc.
    apply orb_false_elim in Hc as [Hy _].
    cbn [app]. rewrite N.eqb_sym, Hy. reflexivity.
Qed.

Lemma match_function_header :
  exists e,
    match_at re_function [] (kw ++ ws ++ name ++ u "(" ++ params ++ u "):" ++ b) = Some e
    /\ caps e = [(2, params); (1, name)].
Proof.
  pose proof match_function_rest as Hrest.
  unfold match_at, re_function.
  destruct Hkw as [E|E]; rewrite E in *; eexists; split.
  - rewrite rmatch_seq. apply rmatch_alt_l.
    rewrite rmatch_lit_ok by discriminate. exact Hrest.
  - reflexivity.
  - rewrite rmatch_seq. apply rmatch_alt_r.
    + rewrite rmatch_lit by discriminate. reflexivity.
    + rewrite rmatch_lit_ok by discriminate. exact Hrest.
  - reflexivity.
Qed.
End FunctionHeader.

Lemma convertFunction_on_header (kw ws name params b ind : str)
  (Hkw : kw = u "plot" \/ kw = u "plan")
  (Hws : ws <> []) (Hsp : all isSpace ws)
  (Hname : name <> []) (Hword : all isWord name)
  (Hdot : all isDot params)
  (Hclose : includes (ch ")") params = false) :
  convertFunction (kw ++ ws ++ name ++ u "(" ++ params ++ u "):" ++ b) ind
  = ind ++ u "function " ++ name ++ u "(" ++ params ++ u ") {".
Proof.
  destruct (match_function_header b Hkw Hws Hsp Hname Hword Hdot Hclose) as [e [M C]].
  unfold convertFunction, exec. rewrite (search_first _ _ _ M).
  unfold show_group. cbn [m_caps]. rewrite C. reflexivity.
Qed.

(** X7. A header [<plot|plan> <name>(<params>):] at the start of the text,
    with a parameter list free of closing parentheses, is converted to
    [function <name>(<params>) {] after the indentation; what follows the
    header on the line is dropped. *)
Theorem convertFunction_header (kw ws name params b ind : str)
  (Hkw : kw = u "plot" \/ kw = u "plan")
  (Hws : ws <> []) (Hsp : all isSpace ws)
  (Hname : name <> []) (Hword : all isWord name)
  (Hdot : all isDot params)
  (Hclose : includes (ch ")") params = false) :
  convertFunction (kw ++ ws ++ name ++ u "(" ++ params ++ u "):" ++ b) ind
  = ind ++ u "function " ++ name ++ u "(" ++ params ++ u ") {".
Proof.
  now apply convertFunction_on_header.
Qed.

Lemma convertFunction_header_witness :
  convertFunction (u "plan escape(a, b = 2):  run") (u "  ")
  = u "  function escape(a, b = 2) {".
Proof.
  apply (@convertFunction_header (u "plan") (u " ") (u "escape") (u "a, b = 2")
           (u "  run") (u "  ")).
  - right. reflexivity.
  - discriminate.
  - repeat constructor.
  - discriminate.
  - repeat constructor.
  - repeat constructor.
  - reflexivity.
Defined.

(** X8. A loop header [loop <name>:] at the start of the text is converted
    by the loop converter to the for-of header over [<name>] with the fixed
    variable [item]. *)
Theorem convertLoop_header (ws name b ind : str)
  (Hws : ws <> []) (Hsp : all isSpace ws)
  (Hname : name <> []) (Hword : all isWord name) :
  extractLoop (u "loop" ++ ws ++ name ++ u ":" ++ b) = Some (MkLoop (u "item") name)
  /\ convertLoop (u "loop" ++ ws ++ name ++ u ":" ++ b) ind
     = ind ++ u "for (const item of " ++ name ++ u ") {".
Proof.
  assert (M : match_at re_loop [] (u "loop" ++ ws ++ name ++ u ":" ++ b)
              = Some (MState (ch ":" :: rev name ++ rev ws ++ rev (u "loop") ++ [])
                             b [(1, name)])).
  { unfold match_at, re_loop. rewrite rmatch_seq, rmatch_lit_ok by discriminate.
    rewrite rmatch_seq.
    apply rmatch_plus_max; [exact Hws | exact Hsp | |].
    { apply headNot_word_app; auto. apply isWord_not_space. }
    rewrite rmatch_seq, rmatch_group.
    apply rmatch_plus_max; [exact Hname | exact Hword | reflexivity |].
    cbv beta. cbn [passed ahead caps]. rewrite span_app. reflexivity. }
  assert (E : extractLoop (u "loop" ++ ws ++ name ++ u ":" ++ b)
              = Some (MkLoop (u "item") name)).
  { unfold extractLoop, exec. rewrite (search_first _ _ _ M). reflexivity. }
  split; [exact E|]. unfold convertLoop. rewrite E. reflexivity.
Qed.

Lemma convertLoop_header_witness :
  extractLoop (u "loop  crew_2: x") = Some (MkLoop (u "item") (u "crew_2"))
  /\ convertLoop (u "loop  crew_2: x") (u "  ") = u "  for (const item of crew_2) {".
Proof.
  apply (@convertLoop_header (u "  ") (u "crew_2") (u " x") (u "  ")).
  - discriminate.
  - repeat constructor.
  - discriminate.
  - repeat constructor.
Defined.

(** X9. [extractFunctionName] returns the whole word that follows [plot] and
    its white space. *)
Theorem extractFunctionName_word (ws name b : str)
  (Hws : ws <> []) (Hsp : all isSpace ws)
  (Hname : name <> []) (Hword : all isWord name)
  (Hb : headNot isWord b) :
  extractFunctionName (u "plot" ++ ws ++ name ++ b) = Some name.
Proof.
  assert (M : match_at re_function_name [] (u "plot" ++ ws ++ name ++ b)
              = Some (MState (rev name ++ rev ws ++ rev (u "plot") ++ [])
                             b [(1, name)])).
  { unfold match_at, re_function_name.
    rewrite rmatch_seq, rmatch_lit_ok by discriminate. rewrite rmatch_seq.
    apply rmatch_plus_max; [exact Hws | exact Hsp | |].
    { apply headNot_word_app; auto. apply isWord_not_space. }
    rewrite rmatch_group.
    apply rmatch_plus_max; [exact Hname | exact Hword | exact Hb |].
    cbv beta. cbn [passed ahead caps]. now rewrite span_app. }
  unfold extractFunctionName, exec. rewrite (search_first _ _ _ M). reflexivity.
Qed.

Lemma extractFunctionName_word_witness :
  extractFunctionName (u "plot  infiltrate(x):") = Some (u "infiltrate").
Proof.
  apply (@extractFunctionName_word (u "  ") (u "infiltrate") (u "(x):")).
  - discriminate.
  - repeat constructor.
  - discriminate.
  - repeat constructor.
  - reflexivity.
Defined.

(** X10. A conditional [if <condition>:] is converted to [if (<condition>) {]
    where the condition runs to the last colon of the text: what follows
    that colon is dropped, and colons inside the condition are kept. *)
Theorem convertConditional_if (ws cond rest ind : str)
  (Hws : ws <> []) (Hsp : all isSpace ws)
  (Hcond : cond <> []) (Hstart : headNot isSpace cond) (Hdot : all isDot cond)
  (Hrest : includes (ch ":") rest = false) :
  convertConditional (u "if" ++ ws ++ cond ++ u ":" ++ rest) ind
  = ind ++ u "if (" ++ cond ++ u ") {".
Proof.
  assert (M : match_at re_if [] (u "if" ++ ws ++ cond ++ u ":" ++ rest)
              = Some (MState (ch ":" :: rev cond ++ rev ws ++ rev (u "if") ++ [])
                             rest [(1, cond)])).
  { unfold match_at, re_if. rewrite rmatch_seq, rmatch_lit_ok by discriminate.
    rewrite rmatch_seq.
    apply rmatch_plus_max; [exact Hws | exact Hsp | |].
    { destruct cond; [congruence | exact Hstart]. }
    rewrite rmatch_seq, rmatch_group.
    apply rmatch_plus_at; [exact Hcond | exact Hdot | |].
    - cbv beta. cbn [passed ahead caps]. rewrite span_app. reflexivity.
    - intros w1 w2 E Hne _. cbv beta. cbn [passed ahead caps rmatch].
      destruct w2 as [|y t]; [reflexivity|].
      destruct w1 as [|c w1']; [congruence|].
      injection E as _ E. pose proof Hrest as Hr.
      rewrite E, includes_app in Hr. apply orb_false_elim in Hr as [_ Hr].
      unfold includes in Hr. cbn [existsb] in Hr.
      apply orb_false_elim in Hr as [Hy _].
      now rewrite N.eqb_sym, Hy. }
  unfold convertConditional, exec.
  replace (str_eqb (u "if" ++ ws ++ cond ++ u ":" ++ rest) (u "else:")) with false
    by reflexivity.
  rewrite (search_first _ _ _ M). reflexivity.
Qed.

Lemma convertConditional_if_witness :
  convertConditional (u "if a ? b : c:  go") (u "  ") = u "  if (a ? b : c) {".
Proof.
  apply (@convertConditional_if (u " ") (u "a ? b : c") (u "  go") (u "  ")).
  - discriminate.
  - repeat constructor.
  - discriminate.
  - reflexivity.
  - repeat constructor.
  - reflexivity.
Defined.

(** ** Indentation of the output *)

Lemma replace_head r rp s :
  s <> [] -> headNot isSpace s -> rp <> [] -> headNot isSpace rp ->
  replace r rp s <> [] /\ headNot isSpace (replace r rp s).
Proof.
  intros Hs Hh Hr Hrh. destruct s as [|x t]; [congruence|].
  assert (Happ : forall tl, rp ++ tl <> [] /\ headNot isSpace (rp ++ tl)).
  { intros tl. destruct rp as [|y rp']; [congruence|]. split; [discriminate | exact Hrh]. }
  unfold replace. simpl.
  destruct (match_at r [] (x :: t)) as [e|].
  - destruct (length (passed e) - 0); apply Happ.
  - split; [discriminate | exact Hh].
Qed.

Lemma apply_rules_head rules :
  Forall (fun p => repl p <> [] /\ headNot isSpace (repl p)) rules ->
  forall s, s <> [] -> headNot isSpace s ->
            apply_rules rules s <> [] /\ headNot isSpace (apply_rules rules s).
Proof.
  induction 1 as [|p rules [Hp1 Hp2] _ IH]; intros s Hs Hh; [auto|].
  unfold apply_rules in *. cbn [fold_left].
  destruct (@replace_head (rule_regex p) (repl p) s Hs Hh Hp1 Hp2) as [N1 N2].
  now apply IH.
Qed.

Ltac repl_heads := repeat constructor; try discriminate.

Lemma rules_variable_heads :
  Forall (fun p => repl p <> [] /\ headNot isSpace (repl p)) rules_variable.
Proof. unfold rules_variable. repl_heads. Qed.

Lemma rules_expression_heads :
  Forall (fun p => repl p <> [] /\ headNot isSpace (repl p)) rules_expression.
Proof. unfold rules_expression. repl_heads. Qed.

Lemma emit_body line :
  type (parseLine line) <> Tempty ->
  exists body,
    emit (parseLine line) = indentation_of (parseLine line) ++ body
    /\ body <> [] /\ headNot isSpace body.
Proof.
  intros Hty.
  assert (Hc : cleaned (parseLine line) <> []).
  { intros E. apply Hty. now apply (proj2 (parseLine_empty_iff line)). }
  destruct (cleaned_trimmed line) as [Hh _].
  unfold emit, emit_with. set (pl := parseLine line) in *.
  destruct (type pl); [| | | | |congruence].
  - rewrite convertVariable_rules. eexists. split; [reflexivity|].
    split; [discriminate | reflexivity].
  - unfold convertFunction. destruct (exec re_function (cleaned pl));
      eexists; (split; [reflexivity|]); split; try discriminate; reflexivity.
  - unfold convertLoop. destruct (extractLoop (cleaned pl));
      eexists; (split; [reflexivity|]); split; try discriminate; reflexivity.
  - unfold convertConditional. destruct (str_eqb (cleaned pl) (u "else:"));
      [|destruct (exec re_if (cleaned pl))];
      eexists; (split; [reflexivity|]); split; try discriminate; reflexivity.
  - rewrite convertExpression_rules. destruct (str_eqb _ _).
    + eexists. split; [reflexivity|]. split; [discriminate | reflexivity].
    + destruct (apply_rules_head rules_expression_heads Hc Hh) as [N1 N2].
      exists (apply_rules rules_expression (cleaned pl) ++ u ";").
      split; [reflexivity|].
      destruct (apply_rules rules_expression (cleaned pl)); [congruence|].
      split; [discriminate | exact N2].
Qed.

Lemma quot2_nat n : Z.to_nat (Z.quot (Z.of_nat n) 2) = n / 2.
Proof.
  rewrite Z.quot_div_nonneg by lia.
  change 2%Z with (Z.of_nat 2). rewrite <- Nat2Z.inj_div. apply Nat2Z.id.
Qed.

(** X11. A line of any category but empty is emitted with exactly
    [2 * (n / 2)] leading spaces, where [n] counts the white-space units in
    front of the input line: what follows them in the output is not empty
    and does not start with white space. *)
Theorem output_indentation (code : str) (i : nat) (line : str)
  (Hline : nth_error (split_nl code) i = Some line)
  (Hcat : type (parseLine line) <> Tempty) :
  exists out body,
    translate code = Some out
    /\ nth_error (split_nl out) i
       = Some (repeat (ch " ") (2 * (length (takeWhile isSpace line) / 2)) ++ body)
    /\ body <> [] /\ headNot isSpace body.
Proof.
  destruct (translate_nth code i Hline) as [out [E N]].
  destruct (emit_body line Hcat) as [body [Eb [B1 B2]]].
  exists out, body. repeat split; auto.
  rewrite N, Eb, indentation_spaces, parseLine_indent, getIndent_takeWhile.
  now rewrite quot2_nat.
Qed.

Lemma output_indentation_witness :
  exists out body,
    translate (u "if ok:" ++ nl :: u "     files(1)") = Some out
    /\ nth_error (split_nl out) 1 = Some (repeat (ch " ") 4 ++ body)
    /\ body <> [] /\ headNot isSpace body.
Proof.
  apply (@output_indentation (u "if ok:" ++ nl :: u "     files(1)") 1 (u "     files(1)")).
  - reflexivity.
  - discriminate.
Defined.

(** X12. A line whose cleaned text is the closing brace alone is classified
    as expression and emitted as the brace at its indentation, with no
    semicolon. *)
Theorem closing_brace_line (code : str) (i : nat) (line : str)
  (Hline : nth_error (split_nl code) i = Some line)
  (Hbrace : trim (removeComment line) = u "}") :
  type (parseLine line) = Texpression
  /\ exists out,
      translate code = Some out
      /\ nth_error (split_nl out) i
         = Some (repeat (ch " ") (2 * (length (takeWhile isSpace line) / 2)) ++ u "}").
Proof.
  assert (He : isEmpty line = false).
  { destruct (isEmpty line) eqn:E; [|reflexivity].
    apply isEmpty_iff in E. rewrite E in Hbrace. discriminate. }
  assert (Hty : type (parseLine line) = Texpression).
  { rewrite parseLine_order, He, Hbrace. reflexivity. }
  split; [exact Hty|].
  destruct (translate_nth code i Hline) as [out [E N]].
  exists out. split; [exact E|]. rewrite N. unfold emit, emit_with. rewrite Hty.
  rewrite parseLine_cleaned, He, Hbrace.
  rewrite indentation_spaces, parseLine_indent, getIndent_takeWhile, quot2_nat.
  reflexivity.
Qed.

Lemma closing_brace_line_witness :
  type (parseLine (u "    }  // end")) = Texpression
  /\ exists out,
      translate (u "x = 1" ++ nl :: u "    }  // end") = Some out
      /\ nth_error (split_nl out) 1 = Some (u "    }").
Proof.
  apply (@closing_brace_line (u "x = 1" ++ nl :: u "    }  // end") 1 (u "    }  // end"));
    reflexivity.
Defined.

(** ** A well-formed function line, end to end *)

Lemma includes_all_false p c s : all p s -> p c = false -> includes c s = false.
Proof.
  intros Hs Hc. unfold includes. induction Hs as [|x t Hx _ IH]; [reflexivity|].
  simpl. rewrite IH, orb_false_r. destruct (N.eqb_spec c x) as [->|]; congruence.
Qed.

Lemma no_slash_no_marker s :
  includes (ch "/") s = false -> find_first (u "//") s = None.
Proof.
  unfold includes. induction s as [|x t IH]; intros H; [reflexivity|].
  cbn [existsb] in H. apply orb_false_elim in H as [Hx Ht].
  cbn [find_first]. change (u "//") with [ch "/"; ch "/"]. cbn [startsWith].
  rewrite Hx. cbn [andb]. change [ch "/"; ch "/"] with (u "//").
  now rewrite (IH Ht).
Qed.

Lemma trim_skip_leading ws s : all isSpace ws -> trim (ws ++ s) = trim s.
Proof. intros H. unfold trim, trimStart. now rewrite dropWhile_app_all. Qed.

Lemma takeWhile_app_all p ws t :
  all p ws -> headNot p t -> takeWhile p (ws ++ t) = ws.
Proof.
  intros Hws Ht. induction Hws as [|x ws Hx _ IH]; simpl.
  - destruct t as [|y r]; [reflexivity|]. simpl in *. now rewrite Ht.
  - now rewrite Hx, IH.
Qed.

(** X13. A line made of white space, [plot ], a name, a parenthesised
    parameter list and a colon is classified as function, and the translation
    of a program holding it has, at the same position, the line
    [function <name>(<params>) {] behind [2 * (n / 2)] spaces, [n] being the
    length of the leading white space. *)
Theorem function_line_translation (code : str) (i : nat) (ws0 ws name params : str)
  (Hline : nth_error (split_nl code) i
           = Some (ws0 ++ u "plot " ++ ws ++ name ++ u "(" ++ params ++ u "):"))
  (Hws0 : all isSpace ws0) (Hws : all isSpace ws)
  (Hname : name <> []) (Hword : all isWord name)
  (Hdot : all isDot params)
  (Hclose : includes (ch ")") params = false)
  (Hslash : includes (ch "/") params = false) :
  type (parseLine (ws0 ++ u "plot " ++ ws ++ name ++ u "(" ++ params ++ u "):"))
  = Tfunction
  /\ exists out,
      translate code = Some out
      /\ nth_error (split_nl out) i
         = Some (repeat (ch " ") (2 * (length ws0 / 2))
                   ++ u "function " ++ name ++ u "(" ++ params ++ u ") {").
Proof.
  set (X := u "plot " ++ ws ++ name ++ u "(" ++ params ++ u "):") in *.
  assert (HX : X = (u "plot " ++ ws ++ name ++ u "(" ++ params) ++ u "):").
  { unfold X. now rewrite <- !app_assoc. }
  assert (Hrm : removeComment (ws0 ++ X) = ws0 ++ X).
  { rewrite removeComment_find, no_slash_no_marker; [reflexivity|].
    unfold X. rewrite !includes_app, Hslash.
    rewrite (includes_all_false _ Hws0), (includes_all_false _ Hws),
      (includes_all_false _ Hword); reflexivity. }
  assert (Htrim : trim (ws0 ++ X) = X).
  { rewrite trim_skip_leading by exact Hws0. apply trim_fixed; [reflexivity|].
    rewrite HX, rev_app_distr. reflexivity. }
  assert (He : isEmpty (ws0 ++ X) = false).
  { destruct (isEmpty (ws0 ++ X)) eqn:E; [|reflexivity].
    apply isEmpty_iff in E. rewrite Hrm, Htrim in E. discriminate. }
  assert (Hty : type (parseLine (ws0 ++ X)) = Tfunction).
  { rewrite parseLine_order, He, Hrm, Htrim. unfold isFunction.
    rewrite <- Htrim at 1. rewrite trim_idem, Htrim. reflexivity. }
  split; [exact Hty|].
  destruct (translate_nth code i Hline) as [out [E N]].
  exists out. split; [exact E|]. rewrite N. unfold emit, emit_with. rewrite Hty.
  rewrite parseLine_cleaned, He, Hrm, Htrim.
  rewrite indentation_spaces, parseLine_indent, getIndent_takeWhile, quot2_nat.
  rewrite (@takeWhile_app_all isSpace ws0 X Hws0) by reflexivity.
  change X with (u "plot" ++ (ch " " :: ws) ++ name ++ u "(" ++ params ++ u "):" ++ []).
  rewrite convertFunction_on_header; auto; try discriminate.
  now constructor.
Qed.

Lemma function_line_translation_witness :
  type (parseLine (u "   plot greet(who, n):")) = Tfunction
  /\ exists out,
      translate (u "x = 1" ++ nl :: u "   plot greet(who, n):") = Some out
      /\ nth_error (split_nl out) 1 = Some (u "  function greet(who, n) {").
Proof.
  apply (@function_line_translation (u "x = 1" ++ nl :: u "   plot greet(who, n):") 1
           (u "   ") [] (u "greet") (u "who, n")).
  - reflexivity.
  - repeat constructor.
  - constructor.
  - discriminate.
  - repeat constructor.
  - repeat constructor.
  - reflexivity.
  - reflexivity.
Defined.

(** ** Keywords standing as whole words *)

Section RuleHit.
Variable p : rule.
Hypothesis Hgood : good_rule p.
Hypothesis Htl : tl p = TWord.

Lemma rule_go_skip_app b : forall t pv,
  rule_go p (length t) pv (t ++ b) = rule_go p 0 (rev t ++ pv) b.
Proof.
  induction t as [|x t IH]; intros pv; [reflexivity|].
  cbn [length app]. rewrite rgo_skip, IH. cbn [rev]. now rewrite <- app_assoc.
Qed.

Lemma kw_len_hit pv b :
  isWordAt pv = false -> headNot isWord b ->
  kw_len p pv (kw p ++ b) = Some (length (kw p)).
Proof.
  intros Hpv Hb. unfold kw_len.
  assert (Hkb : isWordAt (kw p ++ b) = true).
  { pose proof (rule_kw_nonempty Hgood) as Hne. pose proof (rule_kw_word Hgood) as Hw.
    destruct (kw p) as [|x t]; [congruence|]. now inversion Hw. }
  assert (Hb' : isWordAt b = false).
  { destruct b as [|y r]; [reflexivity | exact Hb]. }
  unfold boundary at 1. rewrite Hpv, Hkb. cbn [Bool.eqb negb andb].
  destruct (startsWith_skipn (kw p) b) as [-> ->].
  rewrite Htl. cbn [tail_len]. unfold boundary.
  rewrite (rev_kw_word Hgood), Hb'. cbn [Bool.eqb negb].
  now rewrite Nat.add_0_r.
Qed.

(** One pass over its own keyword standing as a whole word. *)
Lemma apply_rule_hit a b :
  lastNot a -> headNot isWord b ->
  apply_rule (a ++ kw p ++ b) p = apply_rule a p ++ repl p ++ apply_rule b p.
Proof.
  intros Ha Hb. unfold apply_rule, replace.
  fold (rule_go p 0 [] (a ++ kw p ++ b)). fold (rule_go p 0 [] a).
  fold (rule_go p 0 [] b).
  pose proof (rule_kw_nonempty Hgood) as Hne. pose proof (rule_kw_word Hgood) as Hw.
  rewrite (rgo_prefix Hgood); [|lia|exact Ha|].
  2:{ destruct (kw p) as [|x t]; [congruence|]. now inversion Hw. }
  f_equal.
  assert (Hpv : isWordAt (rev a ++ []) = false).
  { rewrite app_nil_r. unfold lastNot in Ha. destruct (rev a); [reflexivity | exact Ha]. }
  pose proof (kw_len_hit _ b Hpv Hb) as Hlen.
  destruct (kw p) as [|x t] eqn:EK; [congruence|].
  cbn [app] in *. rewrite (rgo_cons Hgood), Hlen. cbn [length]. f_equal.
  rewrite rule_go_skip_app. now apply rgo_nonword_start.
Qed.

End RuleHit.

Lemma apply_rule_keeps_lastNot p a : good_rule p -> lastNot a -> lastNot (apply_rule a p).
Proof.
  intros Hg Ha. unfold apply_rule, replace. fold (rule_go p 0 [] a).
  destruct a as [|x t]; [now rewrite (rgo_nil Hg)|].
  apply (rgo_last Hg); [simpl; lia | exact Ha].
Qed.

Lemma apply_rule_keeps_head p b :
  good_rule p -> headNot isWord b -> headNot isWord (apply_rule b p).
Proof.
  intros Hg Hb. unfold apply_rule, replace. fold (rule_go p 0 [] b).
  now apply rgo_head.
Qed.

Lemma apply_rules_keeps rules :
  Forall good_rule rules ->
  forall a b, lastNot a -> headNot isWord b ->
              lastNot (apply_rules rules a) /\ headNot isWord (apply_rules rules b).
Proof.
  induction 1 as [|p rules Hp _ IH]; intros a b Ha Hb; [auto|].
  unfold apply_rules in *. cbn [fold_left].
  apply IH; [now apply apply_rule_keeps_lastNot | now apply apply_rule_keeps_head].
Qed.

Lemma apply_rules_app r1 r2 s :
  apply_rules (r1 ++ r2) s = apply_rules r2 (apply_rules r1 s).
Proof. unfold apply_rules. apply fold_left_app. Qed.

(** A keyword standing as a whole word is replaced by the pass of its rule,
    when the earlier passes have other keywords and the later passes leave
    the replacement alone. *)
Lemma apply_rules_hit r1 p r2 :
  Forall good_rule (r1 ++ p :: r2) ->
  tl p = TWord ->
  Forall (fun q => kw p <> kw q) r1 ->
  (forall a b, lastNot a -> headNot isWord b ->
               apply_rules r2 (a ++ repl p ++ b)
               = apply_rules r2 a ++ repl p ++ apply_rules r2 b) ->
  forall a b,
    lastNot a -> headNot isWord b ->
    apply_rules (r1 ++ p :: r2) (a ++ kw p ++ b)
    = apply_rules (r1 ++ p :: r2) a ++ repl p ++ apply_rules (r1 ++ p :: r2) b.
Proof.
  intros Hg Htl Hk Hinert a b Ha Hb.
  apply Forall_app in Hg as [Hg1 Hg2]. inversion Hg2 as [|? ? Hp Hg3]; subst.
  rewrite !apply_rules_app.
  rewrite (apply_rules_word Hg1 Hk (rule_kw_nonempty Hp) (rule_kw_word Hp) a b Ha Hb).
  destruct (apply_rules_keeps Hg1 a b Ha Hb) as [Ha1 Hb1].
  change (apply_rules (p :: r2) ?s) with (apply_rules r2 (apply_rule s p)).
  unfold apply_rules at 1 4 7. cbn [fold_left].
  fold (apply_rules r2 (apply_rule (apply_rules r1 a ++ kw p ++ apply_rules r1 b) p)).
  fold (apply_rules r2 (apply_rule (apply_rules r1 a) p)).
  fold (apply_rules r2 (apply_rule (apply_rules r1 b) p)).
  rewrite (apply_rule_hit Hp Htl _ _ Ha1 Hb1).
  apply Hinert; [now apply apply_rule_keeps_lastNot | now apply apply_rule_keeps_head].
Qed.

(** ** The token table *)

Lemma replaceToken_rules code : replaceToken code = apply_rules rules_token code.
Proof. reflexivity. Qed.

Lemma rules_token_good : Forall good_rule rules_token.
Proof. unfold rules_token. simpl. repeat constructor; good_rule_tac. Qed.

(** The replacement [console.log] passes the later rules of the table. *)
Lemma console_log_inert (rules : list rule) :
  Forall good_rule rules ->
  Forall (fun q => u "console" <> kw q) rules ->
  Forall (fun q => u "log" <> kw q) rules ->
  forall a b, lastNot a -> headNot isWord b ->
    apply_rules rules (a ++ u "console.log" ++ b)
    = apply_rules rules a ++ u "console.log" ++ apply_rules rules b.
Proof.
  intros Hg Hc Hl a b Ha Hb.
  change (a ++ u "console.log" ++ b) with (a ++ u "console" ++ (ch "." :: u "log" ++ b)).
  rewrite (@apply_rules_word rules (u "console") Hg Hc) ; try discriminate;
    [| repeat constructor | exact Ha | reflexivity ].
  change (ch "." :: u "log" ++ b) with ([ch "."] ++ u "log" ++ b).
  rewrite (@apply_rules_word rules (u "log") Hg Hl); try discriminate;
    [| repeat constructor | reflexivity | exact Hb ].
  assert (Hdot : apply_rules rules [ch "."] = [ch "."]).
  { clear - Hg. induction Hg as [|q rules Hq _ IH]; [reflexivity|].
    unfold apply_rules in *. cbn [fold_left].
    replace (apply_rule [ch "."] q) with [ch "."]; [exact IH|].
    unfold apply_rule, replace. fold (rule_go q 0 [] [ch "."]).
    rewrite (rgo_cons Hq), (kw_len_nonword Hq) by reflexivity.
    now rewrite (rgo_nil Hq). }
  rewrite Hdot. reflexivity.
Qed.

Ltac word_inert :=
  let a := fresh "a" in let b := fresh "b" in
  let Ha := fresh "Ha" in let Hb := fresh "Hb" in
  intros a b Ha Hb;
  apply apply_rules_word;
  [ repeat constructor; good_rule_tac
  | repeat constructor; discriminate
  | discriminate
  | repeat constructor
  | exact Ha
  | exact Hb ].

Ltac rule_hit rules j :=
  change rules with (firstn j rules ++ nth j rules (Rule [] TWord []) :: skipn (S j) rules);
  apply apply_rules_hit;
  [ simpl; repeat constructor; good_rule_tac
  | reflexivity
  | simpl; repeat constructor; discriminate
  | cbv [rules_token TOKEN rules_variable rules_expression
           map firstn skipn nth fst snd repl]
  |
  | ].

(** X14. [replaceToken] rewrites whole words only: a key of the table that
    stands as a whole word is replaced by its entry, a word that is not a key
    is copied, and in both cases the text before and after is rewritten as
    it would be on its own. *)
Theorem replaceToken_whole_words (a w b : str)
  (Hw : w <> []) (Hword : all isWord w)
  (Ha : lastNot a) (Hb : headNot isWord b) :
  (forall entry, In entry TOKEN -> w = u (fst entry) ->
     replaceToken (a ++ w ++ b) = replaceToken a ++ u (snd entry) ++ replaceToken b)
  /\ ((forall entry, In entry TOKEN -> w <> u (fst entry)) ->
      replaceToken (a ++ w ++ b) = replaceToken a ++ w ++ replaceToken b).
Proof.
  split.
  - intros entry Hin ->. rewrite !replaceToken_rules. simpl in Hin.
    destruct Hin as [<-|[<-|[<-|[<-|[<-|[<-|[<-|[<-|[]]]]]]]]]; cbn [fst snd].
    + rule_hit rules_token 0; [word_inert | exact Ha | exact Hb].
    + rule_hit rules_token 1; [word_inert | exact Ha | exact Hb].
    + rule_hit rules_token 2; [word_inert | exact Ha | exact Hb].
    + rule_hit rules_token 3; [word_inert | exact Ha | exact Hb].
    + rule_hit rules_token 4; [word_inert | exact Ha | exact Hb].
    + rule_hit rules_token 5; [| exact Ha | exact Hb].
      apply console_log_inert;
        [repeat constructor; good_rule_tac | | ]; repeat constructor; discriminate.
    + rule_hit rules_token 6; [word_inert | exact Ha | exact Hb].
    + rule_hit rules_token 7; [word_inert | exact Ha | exact Hb].
  - intros Hnk. rewrite !replaceToken_rules.
    apply apply_rules_word; auto; [apply rules_token_good|].
    apply Forall_forall. intros q Hq. unfold rules_token in Hq.
    apply in_map_iff in Hq as [entry [<- Hin]]. cbn [kw]. now apply Hnk.
Qed.

Lemma replaceToken_whole_words_witness :
  replaceToken (u "files(plotter, plot)") = u "console.log(plotter, function)".
Proof.
  transitivity (replaceToken (u "files(plotter, ") ++ u "function" ++ replaceToken (u ")")).
  - refine (proj1 (@replaceToken_whole_words (u "files(plotter, ") (u "plot") (u ")")
                     _ _ _ _) ("plot", "function")%string _ eq_refl).
    + discriminate.
    + repeat constructor.
    + reflexivity.
    + reflexivity.
    + simpl. in_list.
  - reflexivity.
Defined.

(** X15. The boolean and null synonyms standing as whole words are rewritten:
    by the variable pass [truestory], [falsestory], [truth], [lie],
    [universe] and [alibi]; by the expression pass [escape], [truestory] and
    [falsestory].  The text before and after the word is rewritten as it
    would be on its own. *)
Theorem synonyms_rewritten (a b ind : str)
  (Ha : lastNot a) (Hb : headNot isWord b) :
  (forall e, In e synonyms_variable ->
     convertVariable (a ++ u (fst e) ++ b) ind
     = ind ++ u "const " ++ apply_rules rules_variable a ++ u (snd e)
           ++ apply_rules rules_variable b ++ u ";")
  /\ (forall e, In e synonyms_expression ->
        convertExpression (a ++ u (fst e) ++ b) ind
        = ind ++ apply_rules rules_expression a ++ u (snd e)
              ++ apply_rules rules_expression b ++ u ";").
Proof.
  split; intros e Hin; simpl in Hin.
  - rewrite convertVariable_rules.
    assert (H : apply_rules rules_variable (a ++ u (fst e) ++ b)
                = apply_rules rules_variable a ++ u (snd e)
                    ++ apply_rules rules_variable b).
    { destruct Hin as [<-|[<-|[<-|[<-|[<-|[<-|[]]]]]]]; cbn [fst snd].
      - rule_hit rules_variable 8; [word_inert | exact Ha | exact Hb].
      - rule_hit rules_variable 9; [word_inert | exact Ha | exact Hb].
      - rule_hit rules_variable 10; [word_inert | exact Ha | exact Hb].
      - rule_hit rules_variable 11; [word_inert | exact Ha | exact Hb].
      - rule_hit rules_variable 12; [word_inert | exact Ha | exact Hb].
      - rule_hit rules_variable 13; [word_inert | exact Ha | exact Hb]. }
    rewrite H. now rewrite <- !app_assoc.
  - rewrite convertExpression_rules.
    assert (Hbrace : str_eqb (trim (a ++ u (fst e) ++ b)) (u "}") = false).
    { destruct Hin as [<-|[<-|[<-|[]]]]; apply word_line_not_brace;
        try discriminate; repeat constructor. }
    rewrite Hbrace.
    assert (H : apply_rules rules_expression (a ++ u (fst e) ++ b)
                = apply_rules rules_expression a ++ u (snd e)
                    ++ apply_rules rules_expression b).
    { destruct Hin as [<-|[<-|[<-|[]]]]; cbn [fst snd].
      - rule_hit rules_expression 2; [word_inert | exact Ha | exact Hb].
      - rule_hit rules_expression 7; [word_inert | exact Ha | exact Hb].
      - rule_hit rules_expression 8; [word_inert | exact Ha | exact Hb]. }
    rewrite H. now rewrite <- !app_assoc.
Qed.

Lemma synonyms_rewritten_witness :
  convertVariable (u "ok = alibi") [] = u "const ok = null;"
  /\ convertExpression (u "escape") (u "  ") = u "  break;".
Proof.
  split.
  - refine (proj1 (@synonyms_rewritten (u "ok = ") [] [] _ _)
              ("alibi", "null")%string _).
    + reflexivity.
    + exact I.
    + simpl. in_list.
  - refine (proj2 (@synonyms_rewritten [] [] (u "  ") _ _)
              ("escape", "break")%string _).
    + exact I.
    + exact I.
    + simpl. in_list.
Defined.

(** ** The executor's scope under updates *)

Section ScopeUpdates.
Import Executor.
Variable value : Type.
Variable runtime : Runtime value.
Variable console : value.
Variable outcome : Type.
Variable host_call : list str -> str -> list value -> outcome.

Local Abbreviation object := (object value).
Local Abbreviation scope_after := (scope_after runtime console).
Implicit Types (o g src target customScope : object).
Implicit Types (updates : list (str * value)).

Lemma set_fresh o k v : ~ In k (keys o) -> set o k v = o ++ [(k, v)].
Proof.
  induction o as [|[k0 v0] rest IH]; intros H; [reflexivity|].
  simpl in *. destruct (str_eqb_spec k0 k) as [->|N]; [tauto|].
  rewrite IH; tauto.
Qed.

Lemma copy_into_fresh src : forall target,
  NoDup (keys (target ++ src)) -> copy_into target src = target ++ src.
Proof.
  induction src as [|[k v] rest IH]; intros target H; [now rewrite app_nil_r|].
  unfold copy_into in *. cbn [fold_left fst snd].
  assert (Hk : ~ In k (keys target)).
  { unfold keys in *. rewrite map_app in H. cbn [map fst] in H.
    apply NoDup_remove_2 in H. intros Hin. apply H. apply in_or_app. now left. }
  rewrite (@set_fresh target k v Hk), IH; rewrite <- app_assoc; [reflexivity | exact H].
Qed.

Lemma get_app o1 o2 k :
  get (o1 ++ o2) k = match get o1 k with Some v => Some v | None => get o2 k end.
Proof.
  induction o1 as [|[k0 v0] rest IH]; [reflexivity|].
  simpl. destruct (str_eqb k0 k); [reflexivity | exact IH].
Qed.

Lemma updateScope_NoDup g k v : NoDup (keys g) -> NoDup (keys (updateScope g k v)).
Proof.
  intros H. unfold updateScope. destruct (str_eqb k (u "__proto__")); [exact H|].
  exact (@copy_into_NoDup value [(k, v)] g H).
Qed.

Lemma updates_NoDup updates : forall g,
  NoDup (keys g) ->
  NoDup (keys (fold_left (fun g kv => updateScope g (fst kv) (snd kv)) updates g)).
Proof.
  induction updates as [|[k v] rest IH]; intros g Hg; [exact Hg|].
  cbn [fold_left fst snd]. apply IH. now apply updateScope_NoDup.
Qed.

Lemma scope_after_NoDup updates : NoDup (keys (scope_after updates)).
Proof. exact (@updates_NoDup updates _ (setupGlobalScope_NoDup runtime console)). Qed.

Lemma get_updates updates : forall g name,
  Forall (fun kv => fst kv <> u "__proto__") updates ->
  get (fold_left (fun g kv => updateScope g (fst kv) (snd kv)) updates g) name
  = match get (rev updates) name with
    | Some v => Some v
    | None => get g name
    end.
Proof.
  induction updates as [|[k v] rest IH]; intros g name Hown; [reflexivity|].
  inversion Hown as [|? ? Hk Hrest]; subst. cbn [fst] in Hk.
  cbn [fold_left fst snd rev]. rewrite IH, get_app by exact Hrest. unfold updateScope.
  destruct (str_eqb_spec k (u "__proto__")) as [E|_]; [contradiction|].
  rewrite get_set. destruct (get (rev rest) name); [reflexivity|].
  simpl. destruct (str_eqb k name); reflexivity.
Qed.

(** X16. Whatever updates the scope has had, [getScope] returns a scope
    equal to it, and executing with an empty custom scope is executing with
    the global scope alone. *)
Theorem empty_override_is_execute updates (jsCode : str) :
  getScope (scope_after updates) = scope_after updates
  /\ executeWithScope host_call (scope_after updates) jsCode []
     = execute host_call (scope_after updates) jsCode.
Proof.
  assert (H : copy_into [] (scope_after updates) = scope_after updates).
  { apply (copy_into_fresh (scope_after updates) []). apply scope_after_NoDup. }
  split; [exact H|].
  unfold executeWithScope, execute, spread2. cbv zeta.
  change (copy_into (copy_into [] (scope_after updates)) [])
    with (copy_into [] (scope_after updates)).
  now rewrite H.
Qed.

(** X17. After a sequence of [updateScope] calls none of which has the key
    [__proto__], a name denotes, for the code run by [execute], the value of
    the last update of that name, and the built-in value when the name was
    never updated.  An update with the key [__proto__] defines no property:
    after it the scope of a new executor is the built-in scope. *)
Theorem updates_visible_to_execute updates (name : str)
  (Hown : Forall (fun kv => fst kv <> u "__proto__") updates) :
  param_binding (keys (scope_after updates)) (values (scope_after updates)) name
  = match get (rev updates) name with
    | Some v => Some v
    | None => get (setupGlobalScope runtime console) name
    end
  /\ forall v, scope_after [(u "__proto__", v)] = setupGlobalScope runtime console.
Proof.
  split; [|reflexivity].
  rewrite param_binding_get by apply scope_after_NoDup.
  now apply get_updates.
Qed.

(** X18. With a custom scope on top of a global scope updated by calls none
    of which has the key [__proto__], the custom binding of a name comes
    first, then the last update of the name, then the built-in value. *)
Theorem custom_over_updates updates customScope (name : str)
  (Hown : Forall (fun kv => fst kv <> u "__proto__") updates)
  (Hobj : NoDup (keys customScope)) :
  let merged := spread2 (scope_after updates) customScope in
  param_binding (keys merged) (values merged) name
  = match get customScope name with
    | Some v => Some v
    | None =>
        match get (rev updates) name with
        | Some v => Some v
        | None => get (setupGlobalScope runtime console) name
        end
    end.
Proof.
  intros merged. unfold merged, spread2.
  rewrite param_binding_get by (apply copy_into_NoDup, copy_into_NoDup; constructor).
  rewrite copy_into_spec by exact Hobj.
  rewrite copy_into_spec by apply scope_after_NoDup.
  change (get [] name) with (@None value).
  destruct (get customScope name); [reflexivity|].
  rewrite <- (get_updates (setupGlobalScope runtime console) name Hown).
  fold (scope_after updates).
  destruct (get (scope_after updates) name); reflexivity.
Qed.
End ScopeUpdates.

Lemma updates_visible_to_execute_witness :
  Executor.param_binding
    (Executor.keys (scope_after sample_runtime 0 [(u "lie", 50); (u "n", 1); (u "n", 2)]))
    (Executor.values (scope_after sample_runtime 0 [(u "lie", 50); (u "n", 1); (u "n", 2)]))
    (u "n") = Some 2
  /\ scope_after sample_runtime 0 [(u "__proto__", 50)]
     = Executor.setupGlobalScope sample_runtime 0.
Proof.
  assert (Hown : Forall (fun kv : str * nat => fst kv <> u "__proto__")
                        [(u "lie", 50); (u "n", 1); (u "n", 2)]).
  { repeat constructor; discriminate. }
  destruct (@updates_visible_to_execute nat sample_runtime 0
              [(u "lie", 50); (u "n", 1); (u "n", 2)] (u "n") Hown) as [H1 H2].
  split; [exact H1 | exact (H2 50)].
Defined.

Lemma custom_over_updates_witness :
  let merged := Executor.spread2
                  (scope_after sample_runtime 0 [(u "lie", 50); (u "n", 1); (u "n", 2)])
                  sample_custom in
  Executor.param_binding (Executor.keys merged) (Executor.values merged) (u "truth") = Some 99
  /\ Executor.param_binding (Executor.keys merged) (Executor.values merged) (u "lie") = Some 50
  /\ Executor.param_binding (Executor.keys merged) (Executor.values merged) (u "n") = Some 2
  /\ Executor.param_binding (Executor.keys merged) (Executor.values merged) (u "risk") = Some 2.
Proof.
  assert (Hown : Forall (fun kv : str * nat => fst kv <> u "__proto__")
                        [(u "lie", 50); (u "n", 1); (u "n", 2)]).
  { repeat constructor; discriminate. }
  assert (Hobj : NoDup (Executor.keys sample_custom)).
  { repeat constructor; simpl; intuition discriminate. }
  pose proof (fun name =>
                @custom_over_updates nat sample_runtime 0
                  [(u "lie", 50); (u "n", 1); (u "n", 2)] sample_custom name Hown Hobj) as H.
  intros merged. split; [|split; [|split]]; apply H.
Defined.

(** ** Running a program *)

Lemma includes_nl_notNl code : includes nl code = false <-> Forall notNl code.
Proof.
  unfold includes. induction code as [|x t IH]; cbn [existsb].
  - split; [constructor | reflexivity].
  - rewrite orb_false_iff, IH. split.
    + intros [Hx Ht]. constructor; [|exact Ht].
      intros ->. now rewrite N.eqb_refl in Hx.
    + intros H. inversion H as [|? ? Hx Ht]; subst. split; [|exact Ht].
      destruct (N.eqb_spec nl x) as [<-|]; [now elim Hx | reflexivity].
Qed.

Lemma split_nl_two code :
  includes nl code = true -> exists l1 l2 rest, split_nl code = l1 :: l2 :: rest.
Proof.
  unfold includes. induction code as [|x t IH]; cbn [existsb split_nl]; [discriminate|].
  intros H. pose proof (split_nl_not_nil t) as Hne.
  destruct (N.eqb_spec x nl) as [->|Hx].
  - destruct (split_nl t) as [|l ls]; [congruence | eauto].
  - apply orb_prop in H as [H|H].
    + apply N.eqb_eq in H. congruence.
    + destruct (IH H) as [l1 [l2 [rest ->]]]. eauto.
Qed.

Lemma join_nl_two l1 l2 rest : join_nl (l1 :: l2 :: rest) <> [].
Proof.
  change (join_nl (l1 :: l2 :: rest)) with (l1 ++ nl :: join_nl (l2 :: rest)).
  destruct l1; discriminate.
Qed.

Lemma type_empty_isEmpty line : type (parseLine line) = Tempty <-> isEmpty line = true.
Proof.
  rewrite (proj1 (parseLine_empty_iff line)). symmetry. apply isEmpty_iff.
Qed.

Lemma emit_nil_iff line : emit (parseLine line) = [] <-> type (parseLine line) = Tempty.
Proof.
  split.
  - intros E. destruct (type (parseLine line)) eqn:T; try reflexivity;
      (destruct (emit_body line) as [body [Eb [Hb _]]]; [rewrite T; discriminate|];
       rewrite Eb in E; apply app_eq_nil in E as [_ E]; contradiction).
  - intros T. unfold emit, emit_with. now rewrite T.
Qed.

(** The translation is the empty text exactly for a program of one line that
    is blank or a comment. *)
Lemma translation_empty_iff code :
  join_nl (map emit (parse code)) = []
  <-> isEmpty code = true /\ includes nl code = false.
Proof.
  unfold parse. split.
  - intros H. destruct (includes nl code) eqn:I.
    + exfalso. destruct (split_nl_two _ I) as [l1 [l2 [rest E]]].
      rewrite E in H. cbn [map] in H. revert H. apply join_nl_two.
    + split; [|reflexivity]. apply includes_nl_notNl in I.
      rewrite (split_nl_line I) in H. cbn [map join_nl] in H.
      now apply type_empty_isEmpty, emit_nil_iff.
  - intros [He I]. apply includes_nl_notNl in I.
    rewrite (split_nl_line I). cbn [map join_nl].
    now apply emit_nil_iff, type_empty_isEmpty.
Qed.

Section RunCode.
Import Interpreter.
Variable value : Type.
Variable runtime : Executor.Runtime value.
Variable console : value.
Variable exn : Type.
Variable host_call : list str -> str -> list value -> option exn.

Local Abbreviation runCode := (runCode runtime console host_call).
Local Abbreviation execute := (execute runtime console host_call).

(** X19. The interpreter imports the name [Parser] from the parser module,
    which exports its class as [EpsteinParser] only.  So [parse] never
    succeeds: it refuses an empty source and throws a TypeError on every
    other one.  [runCode] therefore fails on every program, with the
    no-source error on the empty program and the TypeError otherwise,
    whatever the host would do with the translation; and [execute], on an
    interpreter that has only been loaded, finds no code. *)
Theorem runCode_outcome (code : str) (st : state) :
  runCode code st
  = (if str_eqb code [] then Failed NoSourceCode else Failed NotAConstructor)
  /\ (forall js, @parse exn st <> Done js)
  /\ execute (loadCode code init) = Failed NoCodeToExecute.
Proof.
  split; [|split].
  - unfold Interpreter.runCode, Interpreter.parse, loadCode. cbn [sourceCode].
    destruct (str_eqb code []); reflexivity.
  - intros js. unfold Interpreter.parse.
    destruct (str_eqb (sourceCode st) []); discriminate.
  - reflexivity.
Qed.
End RunCode.

(** ** The translator on any list of classified lines *)

Lemma repeat_str_None s n : repeat_str s n = None <-> (n < 0)%Z.
Proof.
  unfold repeat_str. destruct (Z.ltb_spec n 0); split; intros; try lia; try discriminate.
  reflexivity.
Qed.

Lemma quot2_neg n : (Z.quot n 2 < 0 <-> n <= -2)%Z.
Proof.
  split; intros H.
  - destruct (Z_le_gt_dec n (-2)) as [|G]; [assumption|]. exfalso.
    destruct (Z_le_gt_dec 0 n).
    + pose proof (Z.quot_pos n 2). lia.
    + assert (n = -1)%Z as -> by lia. vm_compute in H. discriminate.
  - pose proof (Z.quot_opp_l n 2) as E.
    assert (0 < Z.quot (- n) 2)%Z; [|lia].
    apply Z.quot_str_pos. lia.
Qed.

Lemma toJavaScript_loop_cons pl rest acc :
  (type pl = Tempty
   /\ toJavaScript_loop (pl :: rest) acc = toJavaScript_loop rest (acc ++ [[]]))
  \/ (type pl <> Tempty
      /\ repeat_str (u "  ") (Z.quot (indent pl) 2) = None
      /\ toJavaScript_loop (pl :: rest) acc = None)
  \/ (type pl <> Tempty
      /\ exists ind o,
          repeat_str (u "  ") (Z.quot (indent pl) 2) = Some ind
          /\ toJavaScript_loop (pl :: rest) acc = toJavaScript_loop rest (acc ++ [o])).
Proof.
  cbn [toJavaScript_loop].
  destruct (type pl) eqn:T; [| | | | |left; split; reflexivity];
    (destruct (repeat_str (u "  ") (Z.quot (indent pl) 2)) as [ind|];
     [ right; right; split; [discriminate|]; eexists ind, _; split; reflexivity
     | right; left; repeat split; discriminate ]).
Qed.

Lemma toJavaScript_loop_emit_from pls :
  forall acc,
    Forall (fun pl => type pl = Tempty \/ (-2 < indent pl)%Z) pls ->
    toJavaScript_loop pls acc = Some (acc ++ map emit pls).
Proof.
  induction pls as [|pl rest IH]; intros acc H.
  - simpl. now rewrite app_nil_r.
  - inversion H as [|? ? Hpl Hrest]; subst. cbn [map].
    replace (acc ++ emit pl :: map emit rest) with ((acc ++ [emit pl]) ++ map emit rest)
      by now rewrite <- app_assoc.
    rewrite <- (IH (acc ++ [emit pl]) Hrest).
    destruct (toJavaScript_loop_cons pl rest acc)
      as [[T E]|[[T [R E]]|[T [ind [o [R E]]]]]].
    + rewrite E. unfold emit, emit_with. now rewrite T.
    + exfalso. apply repeat_str_None, quot2_neg in R. destruct Hpl; [contradiction | lia].
    + assert (Hq : (0 <= Z.quot (indent pl) 2)%Z).
      { destruct (Z_lt_ge_dec (Z.quot (indent pl) 2) 0) as [L|G]; [|lia].
        apply (proj2 (repeat_str_None (u "  ") _)) in L. congruence. }
      cbn [toJavaScript_loop]. rewrite (repeat_str_nonneg _ Hq).
      unfold emit, emit_with. fold (indentation_of pl).
      destruct (type pl); reflexivity.
Qed.

(** X20. [toJavaScript] on any list of classified lines with integer
    indents.  It fails with a RangeError as soon as a line of a category
    other than empty has an indent of -2 or less.  It succeeds, and returns
    the lines emitted one per classified line, joined by line separators,
    when every line of a category other than empty has an indent above -2
    and no greater than the length of its text, as every line classified by
    the parser has; the indentation is then no longer than the line
    itself. *)
Theorem toJavaScript_indent_range (parsedLines : list ParsedLine) :
  (Exists (fun pl => type pl <> Tempty /\ (indent pl <= -2)%Z) parsedLines ->
   toJavaScript parsedLines = None)
  /\ (Forall (fun pl => type pl = Tempty
                        \/ (-2 < indent pl <= Z.of_nat (length (original pl)))%Z)
             parsedLines ->
      toJavaScript parsedLines = Some (join_nl (map emit parsedLines))
      /\ length (map emit parsedLines) = length parsedLines)
  /\ (forall code,
        Forall (fun pl => (-2 < indent pl <= Z.of_nat (length (original pl)))%Z)
               (parse code)).
Proof.
  split; [|split].
  - intros H. unfold toJavaScript.
    assert (G : forall acc, toJavaScript_loop parsedLines acc = None).
    { induction H as [pl rest [T I]|pl rest _ IH]; intros acc.
      - destruct (toJavaScript_loop_cons pl rest acc)
          as [[T' E]|[[_ [_ E]]|[_ [ind [o [R E]]]]]]; [contradiction | exact E |].
        apply quot2_neg in I. apply (proj2 (repeat_str_None (u "  ") _)) in I. congruence.
      - destruct (toJavaScript_loop_cons pl rest acc)
          as [[_ E]|[[_ [_ E]]|[_ [ind [o [_ E]]]]]]; [| exact E |]; rewrite E; apply IH. }
    now rewrite G.
  - intros H. split; [|apply length_map]. unfold toJavaScript.
    rewrite (@toJavaScript_loop_emit_from parsedLines []); [reflexivity|].
    eapply Forall_impl; [|exact H]. intros pl [T|[L _]]; [now left | now right].
  - intros code. unfold parse. apply Forall_forall. intros pl Hin.
    apply in_map_iff in Hin as [line [<- _]].
    rewrite parseLine_indent, getIndent_takeWhile, parseLine_original.
    pose proof (takeWhile_length isSpace line). lia.
Qed.

(** ** What does not change the translation *)

Lemma find_first_before_marker line c :
  includes (ch "/") line = false ->
  find_first (u "//") (line ++ u "//" ++ c) = Some (length line).
Proof.
  unfold includes. induction line as [|x t IH]; intros H; [reflexivity|].
  cbn [existsb] in H. apply orb_false_elim in H as [Hx Ht].
  cbn [app find_first length]. change (u "//") with [ch "/"; ch "/"] at 1.
  cbn [startsWith]. rewrite Hx. cbn [andb]. now rewrite (IH Ht).
Qed.

Lemma firstn_length_app (l1 l2 : str) : firstn (length l1) (l1 ++ l2) = l1.
Proof. rewrite firstn_app, Nat.sub_diag, firstn_all. simpl. apply app_nil_r. Qed.

Lemma isEmpty_same l1 l2 :
  trim (removeComment l1) = trim (removeComment l2) -> isEmpty l1 = isEmpty l2.
Proof.
  intros H. destruct (isEmpty l1) eqn:E1, (isEmpty l2) eqn:E2; try reflexivity.
  - apply isEmpty_iff in E1. rewrite H in E1. apply isEmpty_iff in E1. congruence.
  - apply isEmpty_iff in E2. rewrite <- H in E2. apply isEmpty_iff in E2. congruence.
Qed.

Lemma parseLine_same l1 l2 :
  trim (removeComment l1) = trim (removeComment l2) ->
  type (parseLine l1) = type (parseLine l2)
  /\ cleaned (parseLine l1) = cleaned (parseLine l2).
Proof.
  intros H. rewrite !parseLine_order, !parseLine_cleaned, (isEmpty_same _ _ H), H. auto.
Qed.

Lemma emit_same l1 l2 :
  type (parseLine l1) = type (parseLine l2) ->
  cleaned (parseLine l1) = cleaned (parseLine l2) ->
  (type (parseLine l1) <> Tempty -> getIndent l1 = getIndent l2) ->
  emit (parseLine l1) = emit (parseLine l2).
Proof.
  intros Ht Hc Hi. unfold emit, emit_with, indentation_of.
  rewrite <- Ht, <- Hc, !parseLine_indent.
  destruct (type (parseLine l1)) eqn:T; try reflexivity;
    rewrite Hi by discriminate; reflexivity.
Qed.

(** X21. A comment after a line that holds no slash changes nothing but the
    original text: the category, the cleaned text, the indent and the emitted
    line are those of the line without the comment. *)
Theorem trailing_comment_ignored (line c : str)
  (Hslash : includes (ch "/") line = false) :
  type (parseLine (line ++ u "//" ++ c)) = type (parseLine line)
  /\ cleaned (parseLine (line ++ u "//" ++ c)) = cleaned (parseLine line)
  /\ indent (parseLine (line ++ u "//" ++ c)) = indent (parseLine line)
  /\ emit (parseLine (line ++ u "//" ++ c)) = emit (parseLine line).
Proof.
  assert (Hrm : trim (removeComment (line ++ u "//" ++ c)) = trim (removeComment line)).
  { rewrite !removeComment_find, find_first_before_marker by exact Hslash.
    rewrite firstn_length_app. now rewrite (no_slash_no_marker _ Hslash). }
  assert (Hind : getIndent (line ++ u "//" ++ c) = getIndent line).
  { rewrite !getIndent_takeWhile. now rewrite takeWhile_app_stop by reflexivity. }
  destruct (parseLine_same _ _ Hrm) as [Ht Hc].
  repeat split; auto.
  - now rewrite !parseLine_indent.
  - apply emit_same; auto.
Qed.

Lemma trailing_comment_ignored_witness :
  type (parseLine (u "  x = 1  // one")) = Tvariable
  /\ emit (parseLine (u "  x = 1  // one")) = u "  const x = 1;".
Proof.
  destruct (@trailing_comment_ignored (u "  x = 1  ") (u " one") eq_refl)
    as [Ht [_ [_ He]]].
  split; [exact Ht | exact He].
Defined.

Lemma toJavaScript_indent_range_witness :
  toJavaScript [MkLine (u "x") (u "x") 0 Texpression;
                MkLine (u "y") (u "y") (-3) Texpression] = None
  /\ toJavaScript [MkLine (u "x") (u "x") (-1) Texpression;
                   MkLine (u "    // note") [] 4 Tempty;
                   MkLine (u "  }") (u "}") 2 Texpression]
     = Some (u "x;" ++ nl :: nl :: u "  }").
Proof.
  split.
  - apply (proj1 (toJavaScript_indent_range
                    [MkLine (u "x") (u "x") 0 Texpression;
                     MkLine (u "y") (u "y") (-3) Texpression])).
    right. left. split; [discriminate | cbn; lia].
  - apply (proj1 (proj2 (toJavaScript_indent_range
                            [MkLine (u "x") (u "x") (-1) Texpression;
                             MkLine (u "    // note") [] 4 Tempty;
                             MkLine (u "  }") (u "}") 2 Texpression]))).
    constructor; [right; cbn; lia|].
    constructor; [left; reflexivity|].
    constructor; [right; cbn; lia | constructor].
Defined.

Lemma find_first_app_spaces ws : all isSpace ws -> forall line,
  find_first (u "//") (line ++ ws) = find_first (u "//") line.
Proof.
  intros Hws.
  assert (Hno : find_first (u "//") ws = None).
  { apply no_slash_no_marker. now apply (includes_all_false _ Hws). }
  assert (Hhd : forall x, startsWith (u "//") (x :: ws) = false).
  { intros x. change (u "//") with [ch "/"; ch "/"]. cbn [startsWith].
    destruct ws as [|y r]; cbn [startsWith]; [apply andb_false_r|].
    inversion Hws as [|? ? Hy _]; subst.
    rewrite (isSpace_not_slash _ Hy). apply andb_false_r. }
  induction line as [|x t IH]; [simpl; now rewrite Hno|].
  cbn [app find_first]. rewrite IH.
  destruct t as [|y t']; [|reflexivity].
  cbn [app]. rewrite Hhd.
  change (startsWith (u "//") [x]) with ((ch "/" =? x)%N && false).
  now rewrite andb_false_r.
Qed.

Lemma find_first_bound p s n : p <> [] -> find_first p s = Some n -> n <= length s.
Proof.
  intros Hp. revert n. induction s as [|x t IH]; intros n H; simpl in H.
  - destruct (startsWith p []); [injection H as <-; lia | discriminate].
  - destruct (startsWith p (x :: t)); [injection H as <-; lia|].
    destruct (find_first p t) as [m|]; [|discriminate].
    injection H as <-. specialize (IH m eq_refl). simpl. lia.
Qed.

Lemma dropWhile_app p w : forall s,
  dropWhile p (s ++ w) = match dropWhile p s with
                         | [] => dropWhile p w
                         | t => t ++ w
                         end.
Proof.
  induction s as [|x s IH]; simpl.
  - reflexivity.
  - destruct (p x); [exact IH | reflexivity].
Qed.

Lemma trimEnd_app_spaces s ws : all isSpace ws -> trimEnd (s ++ ws) = trimEnd s.
Proof.
  intros H. unfold trimEnd. rewrite rev_app_distr.
  now rewrite (dropWhile_app_all _ (all_rev H)).
Qed.

Lemma trim_skip_trailing s ws : all isSpace ws -> trim (s ++ ws) = trim s.
Proof.
  intros H. unfold trim, trimStart. rewrite dropWhile_app.
  destruct (dropWhile isSpace s) as [|x t] eqn:D.
  - rewrite (dropWhile_all H). reflexivity.
  - now apply trimEnd_app_spaces.
Qed.

Lemma takeWhile_app_inside p l r :
  dropWhile p l <> [] -> takeWhile p (l ++ r) = takeWhile p l.
Proof.
  induction l as [|x l IH]; simpl; [congruence|].
  destruct (p x); [intros H; now rewrite IH | reflexivity].
Qed.

(** X22. White space at the end of a line changes neither its category nor
    its cleaned text nor the line emitted for it. *)
Theorem trailing_space_ignored (line ws : str) (Hws : all isSpace ws) :
  type (parseLine (line ++ ws)) = type (parseLine line)
  /\ cleaned (parseLine (line ++ ws)) = cleaned (parseLine line)
  /\ emit (parseLine (line ++ ws)) = emit (parseLine line).
Proof.
  assert (Hrm : trim (removeComment (line ++ ws)) = trim (removeComment line)).
  { rewrite !removeComment_find, find_first_app_spaces by exact Hws.
    destruct (find_first (u "//") line) as [n|] eqn:F.
    - apply find_first_bound in F; [|discriminate].
      rewrite firstn_app. replace (n - length line) with 0 by lia.
      simpl. now rewrite app_nil_r.
    - now apply trim_skip_trailing. }
  destruct (parseLine_same _ _ Hrm) as [Ht Hc]. repeat split; auto.
  apply emit_same; auto. intros Hty. rewrite !getIndent_takeWhile.
  rewrite takeWhile_app_inside; [reflexivity|].
  intros D. apply Hty. rewrite Ht.
  apply (proj2 (proj1 (parseLine_empty_iff line))).
  apply trim_all_space, removeComment_Forall. now apply dropWhile_nil_all.
Qed.

Lemma trailing_space_ignored_witness :
  emit (parseLine (u "  files(1)   ")) = u "  console.log(1);".
Proof.
  refine (proj2 (proj2 (@trailing_space_ignored (u "  files(1)") (u "   ") _))).
  repeat constructor.
Defined.

Lemma find_first_skip_spaces ws line :
  all isSpace ws ->
  find_first (u "//") (ws ++ line)
  = option_map (Nat.add (length ws)) (find_first (u "//") line).
Proof.
  induction 1 as [|x ws Hx _ IH].
  - simpl. destruct (find_first (u "//") line); reflexivity.
  - cbn [app find_first length].
    replace (startsWith (u "//") (x :: ws ++ line)) with false.
    + rewrite IH. destruct (find_first (u "//") line); reflexivity.
    + change (u "//") with [ch "/"; ch "/"]. cbn [startsWith].
      now rewrite (isSpace_not_slash _ Hx).
Qed.

Lemma takeWhile_app_prefix p ws t :
  all p ws -> takeWhile p (ws ++ t) = ws ++ takeWhile p t.
Proof. induction 1 as [|x ws Hx _ IH]; simpl; [reflexivity | now rewrite Hx, IH]. Qed.

(** X23. White space in front of a line changes neither its category nor its
    cleaned text; it adds its length to the indent. *)
Theorem leading_space_only_indents (line ws : str) (Hws : all isSpace ws) :
  type (parseLine (ws ++ line)) = type (parseLine line)
  /\ cleaned (parseLine (ws ++ line)) = cleaned (parseLine line)
  /\ indent (parseLine (ws ++ line))
     = (Z.of_nat (length ws) + indent (parseLine line))%Z.
Proof.
  assert (Hrm : trim (removeComment (ws ++ line)) = trim (removeComment line)).
  { rewrite !removeComment_find, find_first_skip_spaces by exact Hws.
    destruct (find_first (u "//") line) as [n|]; cbn [option_map].
    - rewrite firstn_app, firstn_all2 by lia.
      replace (length ws + n - length ws) with n by lia.
      now apply trim_skip_leading.
    - now apply trim_skip_leading. }
  destruct (parseLine_same _ _ Hrm) as [Ht Hc]. repeat split; auto.
  rewrite !parseLine_indent, !getIndent_takeWhile.
  rewrite takeWhile_app_prefix by exact Hws. rewrite length_app. lia.
Qed.

Lemma leading_space_only_indents_witness :
  type (parseLine (u "    if a:")) = Tconditional
  /\ cleaned (parseLine (u "    if a:")) = u "if a:"
  /\ indent (parseLine (u "    if a:")) = 4%Z.
Proof.
  refine (@leading_space_only_indents (u "if a:") (u "    ") _).
  repeat constructor.
Defined.

(** ** Substitution is local *)

Section RuleSplit.
Variable p : rule.
Hypothesis Hgood : good_rule p.

Lemma kw_len_split pv a rest :
  a <> [] -> lastNot a -> headNot isSpace rest ->
  kw_len p pv (a ++ rest) = kw_len p pv a
  /\ forall n, kw_len p pv a = Some n -> n <= length a.
Proof.
  pose proof (rule_kw_nonempty Hgood) as HK0. pose proof (rule_kw_word Hgood) as HKw0.
  intros Ha Hlast Hhr.
  unfold kw_len. unfold boundary. rewrite (isWordAt_app_l _ Ha).
  destruct (negb (Bool.eqb (isWordAt pv) (isWordAt a))); cbn [andb];
    [|split; [reflexivity | discriminate]].
  destruct (startsWith (kw p) a) eqn:Sa.
  - apply startsWith_app in Sa as [l El]. subst a.
    rewrite <- app_assoc.
    rewrite (proj1 (startsWith_skipn (kw p) _)).
    rewrite !(proj2 (startsWith_skipn (kw p) _)).
    destruct l as [|y l'].
    { exfalso. rewrite app_nil_r in Hlast.
      apply (@lastNot_word_end [] (kw p)); auto. }
    rewrite length_app.
    destruct (tl p) as [c| |]; cbn [tail_len app] in *.
    + split; [reflexivity|]. destruct (y =? c)%N; [|discriminate].
      intros n H. injection H as <-. cbn [length]. lia.
    + split; [reflexivity|]. destruct (boundary _ _); [|discriminate].
      intros n H. injection H as <-. cbn [length]. lia.
    + change (y :: l' ++ rest) with ((y :: l') ++ rest).
      rewrite (@takeWhile_app_stop isSpace (y :: l') rest Hhr). split; [reflexivity|].
      pose proof (takeWhile_length isSpace (y :: l')) as Hle.
      destruct (takeWhile isSpace (y :: l')); [discriminate|].
      intros n H. injection H as <-. cbn [length] in *. lia.
  - destruct (startsWith (kw p) (a ++ rest)) eqn:S; [|split; [reflexivity | discriminate]].
    exfalso. apply startsWith_app in S as [r E].
    apply app_eq_app in E as [l [[E1 E2]|[E1 E2]]].
    + assert (startsWith (kw p) a = true) by (apply startsWith_app; eauto). congruence.
    + rewrite E1 in HKw0. apply Forall_app in HKw0 as [HWa _].
      apply (@lastNot_word_end [] a); auto.
Qed.

(** The pass over [a ++ rest] splits where [a] does not end with a word
    character and [rest] does not start with white space. *)
Lemma rgo_split rest a :
  forall skip pv,
    skip <= length a -> lastNot a -> headNot isSpace rest ->
    rule_go p skip pv (a ++ rest)
    = rule_go p skip pv a ++ rule_go p 0 (rev a ++ pv) rest.
Proof.
  induction a as [|x t IH]; intros skip pv Hs Hl Hr.
  - simpl in Hs. assert (skip = 0) as -> by lia. now rewrite (rgo_nil Hgood).
  - assert (Hstep : forall n, n <= length t ->
              rule_go p n (x :: pv) (t ++ rest)
              = rule_go p n (x :: pv) t ++ rule_go p 0 (rev (x :: t) ++ pv) rest).
    { intros n Hn. rewrite IH; auto; [|now apply lastNot_tail in Hl].
      cbn [rev]. now rewrite <- app_assoc. }
    cbn [app length] in *. destruct skip as [|n].
    + assert (Hne : x :: t <> []) by discriminate.
      destruct (kw_len_split pv rest Hne Hl Hr) as [E B].
      cbn [app] in E. rewrite !(rgo_cons Hgood), E.
      destruct (kw_len p pv (x :: t)) as [[|m]|] eqn:L.
      * rewrite Hstep by lia. now rewrite <- app_assoc.
      * pose proof (B _ eq_refl) as Hm. cbn [length] in Hm.
        rewrite Hstep by lia. now rewrite <- app_assoc.
      * rewrite Hstep by lia. reflexivity.
    + rewrite !rgo_skip. apply Hstep. lia.
Qed.

Lemma lastNot_isWordAt a pv : lastNot a -> isWordAt pv = false -> isWordAt (rev a ++ pv) = false.
Proof.
  unfold lastNot. intros Ha Hpv. destruct (rev a) as [|y r]; [exact Hpv | exact Ha].
Qed.

Lemma apply_rule_split a rest :
  lastNot a -> headNot isSpace rest ->
  apply_rule (a ++ rest) p = apply_rule a p ++ apply_rule rest p.
Proof.
  intros Ha Hr. unfold apply_rule, replace.
  fold (rule_go p 0 [] (a ++ rest)). fold (rule_go p 0 [] a). fold (rule_go p 0 [] rest).
  rewrite rgo_split; [|lia|exact Ha|exact Hr]. f_equal.
  apply (rgo_ctx Hgood). now apply lastNot_isWordAt.
Qed.

(** A unit that is no word character is copied. *)
Lemma apply_rule_nonword x t :
  isWord x = false -> apply_rule (x :: t) p = x :: apply_rule t p.
Proof.
  intros Hx. unfold apply_rule, replace.
  fold (rule_go p 0 [] (x :: t)). fold (rule_go p 0 [] t).
  rewrite (rgo_cons Hgood), (kw_len_nonword Hgood) by exact Hx. f_equal.
  apply (rgo_ctx Hgood). exact Hx.
Qed.

Lemma apply_rule_nil : apply_rule [] p = [].
Proof. unfold apply_rule, replace. apply (rgo_nil Hgood 0 []). Qed.

Lemma apply_rule_keeps_nospace b :
  headNot isSpace (repl p) -> headNot isSpace b -> headNot isSpace (apply_rule b p).
Proof.
  intros Hrp Hb. unfold apply_rule, replace. fold (rule_go p 0 [] b).
  destruct b as [|y t]; [now rewrite (rgo_nil Hgood)|].
  rewrite (rgo_cons Hgood). pose proof (rule_repl_nonempty Hgood) as Hne.
  destruct (kw_len p [] (y :: t)) as [[|m]|]; [| |exact Hb];
    (destruct (repl p); [congruence | exact Hrp]).
Qed.

Lemma kw_head_word b : isWordAt (kw p ++ b) = true.
Proof.
  pose proof (rule_kw_nonempty Hgood) as Hne. pose proof (rule_kw_word Hgood) as Hw.
  destruct (kw p) as [|x t]; [congruence|]. now inversion Hw.
Qed.

(** The pass of a rule whose keyword is followed by a fixed unit, over the
    keyword followed by that unit. *)
Lemma apply_rule_hit_char c b :
  tl p = TChar c -> apply_rule (kw p ++ c :: b) p = repl p ++ apply_rule b p.
Proof.
  intros Htl. unfold apply_rule, replace.
  fold (rule_go p 0 [] (kw p ++ c :: b)). fold (rule_go p 0 [] b).
  pose proof (rule_tail_good Hgood) as HT. rewrite Htl in HT. destruct HT as [Hc _].
  assert (Hlen : kw_len p [] (kw p ++ c :: b) = Some (S (length (kw p)))).
  { unfold kw_len. unfold boundary at 1. rewrite kw_head_word. cbn [isWordAt Bool.eqb negb andb].
    destruct (startsWith_skipn (kw p) (c :: b)) as [-> ->].
    rewrite Htl. cbn [tail_len]. rewrite N.eqb_refl. f_equal. lia. }
  pose proof (kw_head_word (c :: b)) as Hh.
  pose proof (rule_kw_nonempty Hgood) as Hne0.
  destruct (kw p) as [|x t] eqn:EK; [congruence|].
  cbn [app] in *. rewrite (rgo_cons Hgood), Hlen. cbn [length]. f_equal.
  change (t ++ c :: b) with (t ++ [c] ++ b). rewrite app_assoc.
  replace (S (length t)) with (length (t ++ [c])) by (rewrite length_app; simpl; lia).
  rewrite rule_go_skip_app. apply (rgo_ctx Hgood).
  rewrite rev_app_distr. simpl. exact Hc.
Qed.

Lemma spaces_isWordAt sp pv :
  sp <> [] -> all isSpace sp -> isWordAt (rev sp ++ pv) = false.
Proof.
  intros Hne Hsp. apply all_rev in Hsp.
  destruct (rev sp) as [|y r] eqn:E.
  - apply (f_equal (@rev char)) in E. rewrite rev_involutive in E. contradiction.
  - inversion Hsp as [|? ? Hy _]; subst. simpl.
    destruct (isWord y) eqn:W; [|reflexivity].
    apply isWord_not_space in W. congruence.
Qed.

(** The pass of a rule whose keyword is followed by white space, over the
    keyword followed by a maximal run of white space. *)
Lemma apply_rule_hit_spaces sp b :
  tl p = TSpaces -> sp <> [] -> all isSpace sp -> headNot isSpace b ->
  apply_rule (kw p ++ sp ++ b) p = repl p ++ apply_rule b p.
Proof.
  intros Htl Hne Hsp Hb. unfold apply_rule, replace.
  fold (rule_go p 0 [] (kw p ++ sp ++ b)). fold (rule_go p 0 [] b).
  assert (Hlen : kw_len p [] (kw p ++ sp ++ b) = Some (length (kw p) + length sp)).
  { unfold kw_len. unfold boundary at 1. rewrite kw_head_word. cbn [isWordAt Bool.eqb negb andb].
    destruct (startsWith_skipn (kw p) (sp ++ b)) as [-> ->].
    rewrite Htl. cbn [tail_len]. rewrite (takeWhile_app_all b Hsp Hb).
    destruct sp; [congruence | reflexivity]. }
  pose proof (rule_kw_nonempty Hgood) as Hne0.
  destruct (kw p) as [|x t] eqn:EK; [congruence|].
  cbn [app] in *. rewrite (rgo_cons Hgood), Hlen. cbn [length Nat.add]. f_equal.
  rewrite app_assoc, <- length_app.
  rewrite rule_go_skip_app. apply (rgo_ctx Hgood).
  rewrite rev_app_distr, <- app_assoc. now apply spaces_isWordAt.
Qed.

(** The keyword of such a rule with no white space behind it is copied. *)
Lemma apply_rule_miss_spaces b :
  tl p = TSpaces -> headNot isSpace b -> headNot isWord b ->
  apply_rule (kw p ++ b) p = kw p ++ apply_rule b p.
Proof.
  intros Htl Hs Hw. unfold apply_rule, replace.
  fold (rule_go p 0 [] (kw p ++ b)). fold (rule_go p 0 [] b).
  assert (Hlen : kw_len p [] (kw p ++ b) = None).
  { unfold kw_len. unfold boundary at 1. rewrite kw_head_word. cbn [isWordAt Bool.eqb negb andb].
    destruct (startsWith_skipn (kw p) b) as [-> ->].
    rewrite Htl. cbn [tail_len]. destruct b as [|y r]; [reflexivity|].
    simpl in Hs. simpl. now rewrite Hs. }
  pose proof (rule_kw_word Hgood) as HW.
  pose proof (rule_kw_nonempty Hgood) as Hne0.
  destruct (kw p) as [|x t] eqn:EK; [congruence|].
  inversion HW as [|? ? Hx Ht]; subst.
  cbn [app] in *. rewrite (rgo_cons Hgood), Hlen. f_equal.
  rewrite (rgo_inword Hgood b (x :: []) Ht) by exact Hx. f_equal.
  now apply (rgo_nonword_start Hgood).
Qed.

End RuleSplit.

Local Abbreviation heads := (fun p : rule => repl p <> [] /\ headNot isSpace (repl p)).

Lemma apply_rules_nil rules : Forall good_rule rules -> apply_rules rules [] = [].
Proof.
  induction 1 as [|p rules Hp _ IH]; [reflexivity|].
  unfold apply_rules in *. cbn [fold_left]. now rewrite (@apply_rule_nil p Hp).
Qed.

Lemma apply_rules_nonword rules x :
  Forall good_rule rules -> isWord x = false ->
  forall t, apply_rules rules (x :: t) = x :: apply_rules rules t.
Proof.
  intros Hg Hx. induction Hg as [|p rules Hp _ IH]; intros t; [reflexivity|].
  unfold apply_rules in *. cbn [fold_left].
  now rewrite (@apply_rule_nonword p Hp x t Hx), IH.
Qed.

Lemma apply_rules_spaces rules sp :
  Forall good_rule rules -> all isSpace sp ->
  forall b, apply_rules rules (sp ++ b) = sp ++ apply_rules rules b.
Proof.
  intros Hg Hsp b. induction Hsp as [|x sp Hx _ IH]; [reflexivity|].
  cbn [app]. rewrite apply_rules_nonword, IH; auto.
  destruct (isWord x) eqn:W; [|reflexivity].
  apply isWord_not_space in W. congruence.
Qed.

Lemma apply_rules_keeps_nospace rules :
  Forall good_rule rules -> Forall heads rules ->
  forall b, headNot isSpace b -> headNot isSpace (apply_rules rules b).
Proof.
  intros Hg. induction Hg as [|p rules Hp _ IH]; intros Hh b Hb; [exact Hb|].
  inversion Hh as [|? ? [_ Hrp] Hh']; subst.
  unfold apply_rules in *. cbn [fold_left].
  apply IH; [exact Hh'|]. now apply apply_rule_keeps_nospace.
Qed.

(** The passes of a table split where the text on the left does not end with
    a word character and the text on the right does not start with white
    space. *)
Lemma apply_rules_split rules :
  Forall good_rule rules -> Forall heads rules ->
  forall a rest, lastNot a -> headNot isSpace rest ->
    apply_rules rules (a ++ rest) = apply_rules rules a ++ apply_rules rules rest.
Proof.
  intros Hg. induction Hg as [|p rules Hp _ IH]; intros Hh a rest Ha Hr; [reflexivity|].
  inversion Hh as [|? ? [_ Hrp] Hh']; subst.
  unfold apply_rules in *. cbn [fold_left].
  rewrite (@apply_rule_split p Hp a rest Ha Hr).
  apply IH; [exact Hh' | now apply apply_rule_keeps_lastNot
            | now apply apply_rule_keeps_nospace].
Qed.

Lemma apply_rules_word_head rules w :
  Forall good_rule rules -> Forall (fun p => w <> kw p) rules ->
  w <> [] -> all isWord w ->
  forall b, headNot isWord b -> apply_rules rules (w ++ b) = w ++ apply_rules rules b.
Proof.
  intros Hg Hk Hne Hw b Hb.
  rewrite <- (app_nil_l (w ++ b)).
  rewrite (@apply_rules_word rules w Hg Hk Hne Hw [] b I Hb).
  now rewrite apply_rules_nil.
Qed.

(** A word that is no keyword of the table, followed by a unit that is no
    word character, passes the table unchanged. *)
Lemma word_then_inert rules W c :
  Forall good_rule rules -> Forall (fun q => W <> kw q) rules ->
  W <> [] -> all isWord W -> isWord c = false ->
  forall b, apply_rules rules (W ++ c :: b) = W ++ c :: apply_rules rules b.
Proof.
  intros Hg Hk Hne Hw Hc b.
  rewrite (@apply_rules_word_head rules W Hg Hk Hne Hw (c :: b) Hc).
  now rewrite (@apply_rules_nonword rules c Hg Hc b).
Qed.

Lemma apply_rules_hit_char r1 p r2 c :
  Forall good_rule (r1 ++ p :: r2) ->
  tl p = TChar c ->
  Forall (fun q => kw p <> kw q) r1 ->
  (forall b, apply_rules r2 (repl p ++ b) = repl p ++ apply_rules r2 b) ->
  forall b,
    apply_rules (r1 ++ p :: r2) (kw p ++ c :: b)
    = repl p ++ apply_rules (r1 ++ p :: r2) b.
Proof.
  intros Hg Htl Hk Hinert b.
  apply Forall_app in Hg as [Hg1 Hg2]. inversion Hg2 as [|? ? Hp Hg3]; subst.
  pose proof (rule_tail_good Hp) as HT. rewrite Htl in HT. destruct HT as [Hc _].
  rewrite !apply_rules_app.
  rewrite (@word_then_inert r1 (kw p) c Hg1 Hk (rule_kw_nonempty Hp) (rule_kw_word Hp) Hc).
  change (apply_rules (p :: r2) ?s) with (apply_rules r2 (apply_rule s p)).
  rewrite (@apply_rule_hit_char p Hp c _ Htl). apply Hinert.
Qed.

Lemma apply_rules_hit_spaces r1 p r2 :
  Forall good_rule (r1 ++ p :: r2) -> Forall heads r1 ->
  tl p = TSpaces ->
  Forall (fun q => kw p <> kw q) r1 ->
  (forall b, apply_rules r2 (repl p ++ b) = repl p ++ apply_rules r2 b) ->
  forall sp b,
    sp <> [] -> all isSpace sp -> headNot isSpace b ->
    apply_rules (r1 ++ p :: r2) (kw p ++ sp ++ b)
    = repl p ++ apply_rules (r1 ++ p :: r2) b.
Proof.
  intros Hg Hh Htl Hk Hinert sp b Hne Hsp Hb.
  apply Forall_app in Hg as [Hg1 Hg2]. inversion Hg2 as [|? ? Hp Hg3]; subst.
  rewrite !apply_rules_app.
  rewrite (@apply_rules_word_head r1 (kw p) Hg1 Hk (rule_kw_nonempty Hp) (rule_kw_word Hp) (sp ++ b)).
  2:{ destruct sp as [|y r]; [congruence|]. inversion Hsp as [|? ? Hy _]; subst.
      simpl. destruct (isWord y) eqn:W; [|reflexivity].
      apply isWord_not_space in W. congruence. }
  rewrite (@apply_rules_spaces r1 sp Hg1 Hsp b).
  change (apply_rules (p :: r2) ?s) with (apply_rules r2 (apply_rule s p)).
  rewrite (@apply_rule_hit_spaces p Hp sp _ Htl Hne Hsp).
  - apply Hinert.
  - now apply apply_rules_keeps_nospace.
Qed.

Lemma apply_rules_miss_spaces r1 p r2 :
  Forall good_rule (r1 ++ p :: r2) -> Forall heads r1 ->
  tl p = TSpaces ->
  Forall (fun q => kw p <> kw q) r1 ->
  Forall (fun q => kw p <> kw q) r2 ->
  forall b,
    headNot isSpace b -> headNot isWord b ->
    apply_rules (r1 ++ p :: r2) (kw p ++ b)
    = kw p ++ apply_rules (r1 ++ p :: r2) b.
Proof.
  intros Hg Hh Htl Hk1 Hk2 b Hs Hw.
  apply Forall_app in Hg as [Hg1 Hg2]. inversion Hg2 as [|? ? Hp Hg3]; subst.
  rewrite !apply_rules_app.
  rewrite (@apply_rules_word_head r1 (kw p) Hg1 Hk1 (rule_kw_nonempty Hp) (rule_kw_word Hp) b Hw).
  destruct (apply_rules_keeps Hg1 [] b I Hw) as [_ Hw1].
  pose proof (@apply_rules_keeps_nospace r1 Hg1 Hh b Hs) as Hs1.
  change (apply_rules (p :: r2) ?s) with (apply_rules r2 (apply_rule s p)).
  rewrite (@apply_rule_miss_spaces p Hp _ Htl Hs1 Hw1).
  apply (@apply_rules_word_head r2 (kw p) Hg3 Hk2 (rule_kw_nonempty Hp) (rule_kw_word Hp)).
  now apply apply_rule_keeps_head.
Qed.


Lemma line_not_brace_iff line : str_eqb (trim line) (u "}") = false <-> trim line <> u "}".
Proof.
  destruct (str_eqb (trim line) (u "}")) eqn:E.
  - apply str_eqb_eq in E. split; [discriminate | congruence].
  - split; [|reflexivity]. intros _ H. apply str_eqb_eq in H. congruence.
Qed.

(** X24. Substitution is local: where the text on the left does not end with
    a word character and the text on the right does not start with white
    space, the passes of [convertVariable], and those of
    [convertExpression] on a line other than a closing brace, rewrite the two
    sides independently. *)
Theorem substitution_splits (a b ind : str)
  (Ha : lastNot a) (Hb : headNot isSpace b) :
  convertVariable (a ++ b) ind
  = ind ++ u "const " ++ apply_rules rules_variable a
        ++ apply_rules rules_variable b ++ u ";"
  /\ (trim (a ++ b) <> u "}" ->
      convertExpression (a ++ b) ind
      = ind ++ apply_rules rules_expression a
            ++ apply_rules rules_expression b ++ u ";").
Proof.
  split.
  - rewrite convertVariable_rules.
    rewrite (@apply_rules_split rules_variable rules_variable_good
               rules_variable_heads a b Ha Hb).
    now rewrite <- !app_assoc.
  - intros Hbrace. rewrite convertExpression_rules.
    rewrite (proj2 (line_not_brace_iff (a ++ b)) Hbrace).
    rewrite (@apply_rules_split rules_expression rules_expression_good
               rules_expression_heads a b Ha Hb).
    now rewrite <- !app_assoc.
Qed.

Lemma substitution_splits_witness :
  convertVariable (u "ok = truth && " ++ u "lie") [] = u "const ok = true && " ++ u "false" ++ u ";"
  /\ convertExpression (u "files(1); " ++ u "escape") (u "  ")
     = u "  " ++ u "console.log(1); " ++ u "break" ++ u ";".
Proof.
  split.
  - refine (proj1 (@substitution_splits (u "ok = truth && ") (u "lie") [] _ _));
      reflexivity.
  - refine (proj2 (@substitution_splits (u "files(1); ") (u "escape") (u "  ") _ _) _);
      [reflexivity | reflexivity | discriminate].
Defined.

Ltac call_table rules j :=
  change rules with (firstn j rules ++ nth j rules (Rule [] TWord []) :: skipn (S j) rules);
  apply apply_rules_hit_char;
  [ simpl; repeat constructor; good_rule_tac
  | reflexivity
  | simpl; repeat constructor; discriminate
  | cbv [rules_variable rules_expression firstn skipn nth repl] ].

Ltac inert_word W c :=
  let b := fresh "b" in
  intros b;
  apply (@word_then_inert _ W c);
  [ repeat constructor; good_rule_tac
  | repeat constructor; discriminate
  | discriminate
  | repeat constructor
  | reflexivity ].

Ltac inert_unit :=
  let b := fresh "b" in
  intros b;
  apply apply_rules_nonword; [repeat constructor; good_rule_tac | reflexivity].

Lemma calls_variable (p : rule) (c : char) b :
  In p rules_variable -> tl p = TChar c ->
  apply_rules rules_variable (kw p ++ c :: b) = repl p ++ apply_rules rules_variable b.
Proof.
  intros Hin Htl. simpl in Hin.
  destruct Hin as [<-|[<-|[<-|[<-|[<-|[<-|[<-|[<-|Hin]]]]]]]];
    [injection Htl as <-; cbn [kw repl].. |].
  - call_table rules_variable 0. inert_word (u "Number") (ch "(").
  - call_table rules_variable 1. inert_word (u "parseFloat") (ch "(").
  - call_table rules_variable 2. inert_word (u "String") (ch "(").
  - call_table rules_variable 3. inert_word (u "Boolean") (ch "(").
  - call_table rules_variable 4. inert_unit.
  - call_table rules_variable 5. inert_unit.
  - call_table rules_variable 6. inert_unit.
  - call_table rules_variable 7. inert_unit.
  - destruct Hin as [<-|[<-|[<-|[<-|[<-|[<-|[]]]]]]]; discriminate.
Qed.

Lemma console_log_call_inert (rules : list rule) :
  Forall good_rule rules ->
  Forall (fun q => u "console" <> kw q) rules ->
  Forall (fun q => u "log" <> kw q) rules ->
  forall b, apply_rules rules (u "console.log(" ++ b)
            = u "console.log(" ++ apply_rules rules b.
Proof.
  intros Hg Hc Hl b.
  change (u "console.log(" ++ b) with (u "console" ++ ch "." :: u "log" ++ ch "(" :: b).
  rewrite (@word_then_inert rules (u "console") (ch ".") Hg Hc);
    [|discriminate | repeat constructor | reflexivity].
  rewrite (@word_then_inert rules (u "log") (ch "(") Hg Hl);
    [|discriminate | repeat constructor | reflexivity].
  reflexivity.
Qed.

Lemma calls_expression (p : rule) (c : char) b :
  In p rules_expression -> tl p = TChar c ->
  apply_rules rules_expression (kw p ++ c :: b)
  = repl p ++ apply_rules rules_expression b.
Proof.
  intros Hin Htl. simpl in Hin.
  destruct Hin as [<-|[<-|[<-|[<-|[<-|[<-|[<-|[<-|[<-|[]]]]]]]]]];
    try discriminate; injection Htl as <-; cbn [kw repl].
  - call_table rules_expression 0. intros b0.
    apply console_log_call_inert;
      [repeat constructor; good_rule_tac | | ]; repeat constructor; discriminate.
  - call_table rules_expression 3. inert_word (u "Number") (ch "(").
  - call_table rules_expression 4. inert_word (u "parseFloat") (ch "(").
  - call_table rules_expression 5. inert_word (u "String") (ch "(").
  - call_table rules_expression 6. inert_word (u "Boolean") (ch "(").
Qed.

Lemma kw_starts_nospace p b : good_rule p -> headNot isSpace (kw p ++ b).
Proof.
  intros Hp. pose proof (@kw_head_word p Hp b) as H.
  destruct (kw p ++ b) as [|x t]; [exact I|]. simpl in *. now apply isWord_not_space.
Qed.

Lemma In_good (rules : list rule) p : Forall good_rule rules -> In p rules -> good_rule p.
Proof. intros H Hin. rewrite Forall_forall in H. now apply H. Qed.

(** X25. Call forms: every pass of [convertVariable] or [convertExpression]
    whose pattern is a keyword followed by a bracket ([theory(], [risk(],
    [ghost(], [money(], [island[], [girl{], [mission(], [weapon[],
    [files(]) replaces the keyword and the bracket, where the keyword starts
    a word, by the replacement of the pass; the text before and after is
    rewritten as it would be on its own. *)
Theorem call_forms_rewritten (a b ind : str) (p : rule) (c : char)
  (Ha : lastNot a) (Htl : tl p = TChar c) :
  (In p rules_variable ->
   convertVariable (a ++ kw p ++ c :: b) ind
   = ind ++ u "const " ++ apply_rules rules_variable a ++ repl p
         ++ apply_rules rules_variable b ++ u ";")
  /\ (In p rules_expression ->
      convertExpression (a ++ kw p ++ c :: b) ind
      = ind ++ apply_rules rules_expression a ++ repl p
            ++ apply_rules rules_expression b ++ u ";").
Proof.
  split; intros Hin.
  - pose proof (@In_good rules_variable p rules_variable_good Hin) as Hp.
    rewrite convertVariable_rules.
    rewrite (@apply_rules_split rules_variable rules_variable_good rules_variable_heads
               a (kw p ++ c :: b) Ha (@kw_starts_nospace p (c :: b) Hp)).
    rewrite (@calls_variable p c b Hin Htl). now rewrite <- !app_assoc.
  - pose proof (@In_good rules_expression p rules_expression_good Hin) as Hp.
    rewrite convertExpression_rules.
    rewrite (@word_line_not_brace a (kw p) (c :: b) (rule_kw_nonempty Hp) (rule_kw_word Hp)).
    rewrite (@apply_rules_split rules_expression rules_expression_good
               rules_expression_heads
               a (kw p ++ c :: b) Ha (@kw_starts_nospace p (c :: b) Hp)).
    rewrite (@calls_expression p c b Hin Htl). now rewrite <- !app_assoc.
Qed.

Lemma call_forms_rewritten_witness :
  convertVariable (u "n = " ++ u "theory" ++ ch "(" :: u "x) + risk(y)") []
  = u "const n = Number(x) + parseFloat(y);"
  /\ convertExpression ([] ++ u "files" ++ ch "(" :: u "ghost(1))") (u "  ")
     = u "  console.log(String(1));".
Proof.
  split.
  - refine (proj1 (@call_forms_rewritten (u "n = ") (u "x) + risk(y)") []
                     (Rule (u "theory") (TChar (ch "(")) (u "Number(")) (ch "(") _ _) _).
    + reflexivity.
    + reflexivity.
    + simpl. in_list.
  - refine (proj2 (@call_forms_rewritten [] (u "ghost(1))") (u "  ")
                     (Rule (u "files") (TChar (ch "(")) (u "console.log(")) (ch "(") _ _) _).
    + exact I.
    + reflexivity.
    + simpl. in_list.
Defined.

Lemma return_hit sp b :
  sp <> [] -> all isSpace sp -> headNot isSpace b ->
  apply_rules rules_expression (u "suicide" ++ sp ++ b)
  = u "return " ++ apply_rules rules_expression b.
Proof.
  intros Hne Hsp Hb.
  change rules_expression
    with (firstn 1 rules_expression ++ nth 1 rules_expression (Rule [] TWord [])
            :: skipn 2 rules_expression).
  apply (@apply_rules_hit_spaces (firstn 1 rules_expression)
           (nth 1 rules_expression (Rule [] TWord [])) (skipn 2 rules_expression));
    try assumption.
  - simpl. repeat constructor; good_rule_tac.
  - simpl. repeat constructor; discriminate.
  - reflexivity.
  - simpl. repeat constructor; discriminate.
  - cbv [rules_expression firstn skipn nth repl]. inert_word (u "return") (ch " ").
Qed.

Lemma return_miss b :
  headNot isSpace b -> headNot isWord b ->
  apply_rules rules_expression (u "suicide" ++ b)
  = u "suicide" ++ apply_rules rules_expression b.
Proof.
  intros Hs Hw.
  change rules_expression
    with (firstn 1 rules_expression ++ nth 1 rules_expression (Rule [] TWord [])
            :: skipn 2 rules_expression).
  apply (@apply_rules_miss_spaces (firstn 1 rules_expression)
           (nth 1 rules_expression (Rule [] TWord [])) (skipn 2 rules_expression));
    try assumption.
  - simpl. repeat constructor; good_rule_tac.
  - simpl. repeat constructor; discriminate.
  - reflexivity.
  - simpl. repeat constructor; discriminate.
  - simpl. repeat constructor; discriminate.
Qed.

(** X26. [convertExpression] turns [suicide] followed by white space into
    [return] and one space, whatever the length of the white space; a
    [suicide] with neither white space nor a word character behind it (at
    the end of the line, before a semicolon) is copied unchanged. *)
Theorem return_statement (a b ind : str)
  (Ha : lastNot a) (Hb : headNot isSpace b) :
  (forall sp, sp <> [] -> all isSpace sp ->
     convertExpression (a ++ u "suicide" ++ sp ++ b) ind
     = ind ++ apply_rules rules_expression a ++ u "return "
           ++ apply_rules rules_expression b ++ u ";")
  /\ (headNot isWord b ->
      convertExpression (a ++ u "suicide" ++ b) ind
      = ind ++ apply_rules rules_expression a ++ u "suicide"
            ++ apply_rules rules_expression b ++ u ";").
Proof.
  split.
  - intros sp Hne Hsp. rewrite convertExpression_rules.
    rewrite (@word_line_not_brace a (u "suicide") (sp ++ b));
      [|discriminate | repeat constructor].
    rewrite (@apply_rules_split rules_expression rules_expression_good
               rules_expression_heads a (u "suicide" ++ sp ++ b) Ha);
      [|reflexivity].
    rewrite (@return_hit sp b Hne Hsp Hb). now rewrite <- !app_assoc.
  - intros Hw. rewrite convertExpression_rules.
    rewrite (@word_line_not_brace a (u "suicide") b);
      [|discriminate | repeat constructor].
    rewrite (@apply_rules_split rules_expression rules_expression_good
               rules_expression_heads a (u "suicide" ++ b) Ha);
      [|reflexivity].
    rewrite (@return_miss b Hb Hw). now rewrite <- !app_assoc.
Qed.

Lemma return_statement_witness :
  convertExpression (u "  " ++ u "suicide" ++ u "   " ++ u "truestory") []
  = u "  return true;"
  /\ convertExpression ([] ++ u "suicide" ++ []) (u "    ") = u "    suicide;".
Proof.
  split.
  - refine (proj1 (@return_statement (u "  ") (u "truestory") [] _ _) (u "   ") _ _).
    + reflexivity.
    + reflexivity.
    + discriminate.
    + repeat constructor.
  - refine (proj2 (@return_statement [] [] (u "    ") _ _) _).
    + exact I.
    + exact I.
    + exact I.
Defined.
